(** * BAS server framework: the acceptor orchestrator and the proxy work objects

    A shallow embedding of [bas/server.hpp] (class [bas::server]) and of
    [examples/proxy/server/server_work.hpp] with [client_work.hpp]
    (classes [proxy::server_work] and [proxy::client_work]).

    Layout: the definitions come first ([Asio], [Proxy], [Server]), the
    lemmas about them afterwards. *)

From Stdlib Require Import String.
From Stdlib Require Import List Bool Arith NArith ZArith Lia.
Import ListNotations.

Set Implicit Arguments.

(* ================================================================== *)
(** * Error codes *)

Module Asio.

(** [boost::system::error_code], reduced to what the code looks at:
    [e.value()].  [!e] holds exactly for the value 0. *)
Definition error_code := Z.

Definition success : error_code := 0%Z.

(** The [boost::asio::error] enumerators named in the [on_close]
    switches.  Their declarations are in Boost, not in this repository;
    the values are the POSIX ones Boost maps them to on Linux ([eof] is 2
    in the misc category).  No lemma below depends on the numbers. *)
Definition eof : error_code := 2%Z.
Definition connection_aborted : error_code := 103%Z.
Definition connection_reset : error_code := 104%Z.
Definition no_buffer_space : error_code := 105%Z.
Definition timed_out : error_code := 110%Z.
Definition connection_refused : error_code := 111%Z.
Definition operation_aborted : error_code := 125%Z.

(** [if (e)]: the code carries an error. *)
Definition failed (e : error_code) : bool := negb (Z.eqb e 0).

End Asio.

(* ================================================================== *)
(** * The proxy work objects and the handler pair *)

Module Proxy.

Import Asio.

(** A handler reference.  A proxy pair has one server-side handler (the
    parent) and one client-side handler (the child); a pointer to a
    handler is [option side], [None] being the null pointer. *)
Inductive side := Parent | Child.

Definition other (x : side) : side :=
  match x with Parent => Child | Child => Parent end.

Definition side_eqb (x y : side) : bool :=
  match x, y with
  | Parent, Parent | Child, Child => true
  | _, _ => false
  end.

(** [bas::event]: the five states the two work objects exchange, with the
    [value_] payload (a [std::size_t]). *)
Inductive event_state :=
| parent_write | parent_close | child_open | child_write | child_close.

Record event := mk_event { state_ : event_state; value_ : N }.

(** What a work callback does to the outside, in program order.  The
    store into the peer pointer is recorded as well, so that its place
    among the calls can be read from the trace. *)
Inductive op :=
| OpPostParent (target : side) (ev : event)  (* target->post_parent(ev) *)
| OpPostChild (target : side) (ev : event)   (* target->post_child(ev) *)
| OpAsyncReadSome                            (* handler.async_read_some() *)
| OpAsyncWrite (src : side) (n : N)
    (* handler.async_write(buffer(src->read_buffer().data(), n)) *)
| OpClose                                    (* handler.close() *)
| OpStore (p : option side)                  (* peer pointer = p *)
| OpConnect                                  (* client_.connect(handler) *)
| OpPrint (msg : string)                     (* std::cout << msg *)
| OpPrintError (tag : string) (e : error_code).
    (* std::cout << tag << e << " message " << e.message() *)

(** A callback body: it reads and writes the one member of its work
    object (the peer pointer), emits operations, and is undefined when it
    dereferences a null pointer. *)
Definition M (A : Type) : Type :=
  option side -> option (A * option side * list op).

Definition ret {A} (a : A) : M A := fun p => Some (a, p, []).

Definition bind {A B} (m : M A) (k : A -> M B) : M B :=
  fun p =>
    match m p with
    | None => None
    | Some (a, p1, o1) =>
        match k a p1 with
        | None => None
        | Some (b, p2, o2) => Some (b, p2, o1 ++ o2)
        end
    end.

Notation "x <- m ;; k" := (bind m (fun x => k))
  (at level 61, m at next level, right associativity).
Notation "m ;; k" := (bind m (fun _ => k))
  (at level 61, right associativity).

(** Read the peer pointer. *)
Definition load : M (option side) := fun p => Some (p, p, []).

(** Assign the peer pointer. *)
Definition store (v : option side) : M unit :=
  fun _ => Some (tt, v, [OpStore v]).

(** [ptr->...]: dereference the peer pointer. *)
Definition deref : M side :=
  fun p => match p with Some h => Some (h, p, []) | None => None end.

Definition emit (o : op) : M unit := fun p => Some (tt, p, [o]).

Definition nl : string := String (Ascii.ascii_of_nat 10) EmptyString.

(** The [switch (e.value())] that ends both [on_close] functions. *)
Definition report (ok_line err_tag : string) (e : error_code) : M unit :=
  if (Z.eqb e 0 || Z.eqb e eof)%bool then emit (OpPrint ok_line)
  else if (Z.eqb e connection_aborted || Z.eqb e connection_reset
           || Z.eqb e connection_refused)%bool then ret tt
  else emit (OpPrintError err_tag e).

(** ** [proxy::server_work] (member: [child_handler_]) *)
Module server_work.

Definition on_set_child (child_handler : option side) : M unit :=
  store child_handler.

Definition on_clear : M unit := ret tt.

Definition on_open : M unit := emit OpConnect.

Definition on_read (bytes_transferred : N) : M unit :=
  c <- deref ;;
  emit (OpPostParent c (mk_event parent_write bytes_transferred)).

Definition on_write (bytes_transferred : N) : M unit :=
  emit OpAsyncReadSome.

Definition on_close (e : error_code) : M unit :=
  p <- load ;;
  match p with
  | Some c =>
      emit (OpPostParent c (mk_event parent_close 0)) ;;
      store None
  | None => ret tt
  end ;;
  report (String.append "source ok ..............." nl) "source error " e.

Definition on_parent (ev : event) : M unit := ret tt.

Definition on_child (ev : event) : M unit :=
  match state_ ev with
  | child_open => emit OpAsyncReadSome
  | child_write => c <- deref ;; emit (OpAsyncWrite c (value_ ev))
  | child_close => store None ;; emit OpClose
  | _ => ret tt
  end.

End server_work.

(** ** [proxy::client_work] (member: [parent_handler_]) *)
Module client_work.

Definition on_set_parent (parent_handler : option side) : M unit :=
  store parent_handler.

Definition on_clear : M unit := ret tt.

Definition on_open : M unit :=
  p <- deref ;; emit (OpPostChild p (mk_event child_open 0)).

Definition on_read (bytes_transferred : N) : M unit :=
  p <- deref ;;
  emit (OpPostChild p (mk_event child_write bytes_transferred)).

Definition on_write (bytes_transferred : N) : M unit :=
  emit OpAsyncReadSome.

Definition on_close (e : error_code) : M unit :=
  p <- load ;;
  match p with
  | Some c =>
      emit (OpPostChild c (mk_event child_close 0)) ;;
      store None
  | None => ret tt
  end ;;
  report (String.append "target ok ***************" nl) "target error " e.

Definition on_parent (ev : event) : M unit :=
  match state_ ev with
  | parent_write => p <- deref ;; emit (OpAsyncWrite p (value_ ev))
  | parent_close => store None ;; emit OpClose
  | _ => ret tt
  end.

Definition on_child (ev : event) : M unit := ret tt.

End client_work.

(** ** The handler pair

    [bas::service_handler] and [bas::client] are not among the sources;
    the handler side of the pair follows sections 3, 4.3, 4.6 and 5 of
    the specification. *)

(** A callback waiting in a handler's work loop. *)
Inductive task :=
| TOpen
| TRead (n : N)
| TWrite (n : N)
| TClose (e : error_code)
| TParent (ev : event)
| TChild (ev : event).

(** Modelled from the spec: the [state] attribute of a service handler,
    [idle], [open], [closing], [closed] (section 3).  The stopped flag is
    [state <> open]. *)
Inductive hstate := idle | open | closing | closed.

(** Modelled from the spec: the service handler (section 3), reduced to
    the socket's outstanding operations, the fixed-size read buffer, the
    bytes written to the socket so far, and the handler's callbacks
    waiting on its work loop, oldest first. *)
Record handler := mk_handler {
  state : hstate;
  read_armed : bool;
  write_pending : option (side * N);
  read_buffer : list Byte.byte;
  socket_out : list Byte.byte;
  queue : list task
}.

(** What happened on the work loops, newest first. *)
Inductive obs :=
| Ran (x : side) (t : task) (ops : list op)
| Dropped (x : side) (t : task)
| Faulted (x : side) (t : task).

Record sys := mk_sys {
  hp : handler;                     (* the parent (server-side) handler *)
  hc : handler;                     (* the child (client-side) handler *)
  child_handler_ : option side;     (* member of the parent's server_work *)
  parent_handler_ : option side;    (* member of the child's client_work *)
  crashed : bool;                   (* a null pointer was dereferenced *)
  history : list obs
}.

Definition get (x : side) (s : sys) : handler :=
  match x with Parent => hp s | Child => hc s end.

Definition upd (x : side) (f : handler -> handler) (s : sys) : sys :=
  match x with
  | Parent => mk_sys (f (hp s)) (hc s) (child_handler_ s)
                (parent_handler_ s) (crashed s) (history s)
  | Child => mk_sys (hp s) (f (hc s)) (child_handler_ s)
               (parent_handler_ s) (crashed s) (history s)
  end.

Definition ptr (x : side) (s : sys) : option side :=
  match x with Parent => child_handler_ s | Child => parent_handler_ s end.

Definition set_ptr (x : side) (p : option side) (s : sys) : sys :=
  match x with
  | Parent => mk_sys (hp s) (hc s) p (parent_handler_ s)
                (crashed s) (history s)
  | Child => mk_sys (hp s) (hc s) (child_handler_ s) p
               (crashed s) (history s)
  end.

Definition note (o : obs) (s : sys) : sys :=
  mk_sys (hp s) (hc s) (child_handler_ s) (parent_handler_ s)
    (crashed s) (o :: history s).

Definition fault (x : side) (t : task) (s : sys) : sys :=
  mk_sys (hp s) (hc s) (child_handler_ s) (parent_handler_ s)
    true (Faulted x t :: history s).

Definition enqueue (t : task) (h : handler) : handler :=
  mk_handler (state h) (read_armed h) (write_pending h) (read_buffer h)
    (socket_out h) (queue h ++ [t]).

Definition set_queue (q : list task) (h : handler) : handler :=
  mk_handler (state h) (read_armed h) (write_pending h) (read_buffer h)
    (socket_out h) q.

Definition set_state (st : hstate) (h : handler) : handler :=
  mk_handler st (read_armed h) (write_pending h) (read_buffer h)
    (socket_out h) (queue h).

Definition set_read (b : bool) (h : handler) : handler :=
  mk_handler (state h) b (write_pending h) (read_buffer h)
    (socket_out h) (queue h).

Definition set_write (w : option (side * N)) (h : handler) : handler :=
  mk_handler (state h) (read_armed h) w (read_buffer h)
    (socket_out h) (queue h).

Definition is_open (h : handler) : bool :=
  match state h with open => true | _ => false end.

(** Modelled from the spec: [service_handler::close(e)] (4.3, shutdown
    protocol).  Idempotent; the first call enters [closing], closes the
    socket, which cancels the outstanding read and write, and posts
    [on_close(e)] to the work loop. *)
Definition close_handler (e : error_code) (h : handler) : handler :=
  match state h with
  | open =>
      mk_handler closing false None (read_buffer h) (socket_out h)
        (queue h ++ [TClose e])
  | _ => h
  end.

(** Modelled from the spec: what the handler [x] does for each operation
    its work object asks for.  [post_parent] and [post_child] enqueue the
    delivery on the target's work loop; [async_read_some] and
    [async_write] start the single outstanding read or write; [close()] is
    [close] with error code 0. *)
Definition apply_op (x : side) (s : sys) (o : op) : sys :=
  match o with
  | OpPostParent target ev => upd target (enqueue (TParent ev)) s
  | OpPostChild target ev => upd target (enqueue (TChild ev)) s
  | OpAsyncReadSome => upd x (set_read true) s
  | OpAsyncWrite src n => upd x (set_write (Some (src, n))) s
  | OpClose => upd x (close_handler success) s
  | OpStore _ | OpConnect | OpPrint _ | OpPrintError _ _ => s
  end.

(** The work object of each side, dispatched on the callback. *)
Definition callback (x : side) (t : task) : M unit :=
  match x, t with
  | Parent, TOpen => server_work.on_open
  | Parent, TRead n => server_work.on_read n
  | Parent, TWrite n => server_work.on_write n
  | Parent, TClose e => server_work.on_close e
  | Parent, TParent ev => server_work.on_parent ev
  | Parent, TChild ev => server_work.on_child ev
  | Child, TOpen => client_work.on_open
  | Child, TRead n => client_work.on_read n
  | Child, TWrite n => client_work.on_write n
  | Child, TClose e => client_work.on_close e
  | Child, TParent ev => client_work.on_parent ev
  | Child, TChild ev => client_work.on_child ev
  end.

Definition is_on_close (t : task) : bool :=
  match t with TClose _ => true | _ => false end.

(** Modelled from the spec: the work loop of [x] runs the oldest waiting
    callback (5: callbacks of one handler are serialized, FIFO).
    [on_close] is the last callback of a session (4.3), so whatever is
    still queued behind it is discarded.  A callback that dereferences a
    null pointer stops the process. *)
Definition deliver (x : side) (s : sys) : option sys :=
  match queue (get x s) with
  | [] => None
  | t :: q =>
      match state (get x s) with
      | closed | idle => Some (note (Dropped x t) (upd x (set_queue q) s))
      | _ =>
          match callback x t (ptr x s) with
          | None => Some (fault x t s)
          | Some (_, p, ops) =>
              let s1 := set_ptr x p (upd x (set_queue q) s) in
              let s2 := fold_left (apply_op x) ops s1 in
              let s3 := if is_on_close t
                        then upd x (set_state closed) s2 else s2 in
              Some (note (Ran x t ops) s3)
          end
      end
  end.

(** What the I/O loops and the timers do to the pair. *)
Inductive label :=
| Deliver (x : side)
| ReadDone (x : side) (data : list Byte.byte)
| ReadFail (x : side) (e : error_code)
| WriteDone (x : side)
| WriteFail (x : side) (e : error_code)
| Timeout (x : side).

(** Modelled from the spec: a read completion stores the bytes at the
    start of the read buffer, whose size never changes, and posts
    [on_read(n)]; it needs an outstanding read on an open handler. *)
Definition read_done (data : list Byte.byte) (h : handler) : handler :=
  mk_handler (state h) false (write_pending h)
    (data ++ skipn (length data) (read_buffer h)) (socket_out h)
    (queue h ++ [TRead (N.of_nat (length data))]).

(** Modelled from the spec: a write completion has put the first [n]
    bytes of the buffer it was given on the socket and posts
    [on_write(n)].  The buffer is the one of handler [src], read when the
    write takes place. *)
Definition write_done (src_buffer : list Byte.byte) (n : N) (h : handler)
  : handler :=
  mk_handler (state h) (read_armed h) None (read_buffer h)
    (socket_out h ++ firstn (N.to_nat n) src_buffer)
    (queue h ++ [TWrite n]).

Definition step (l : label) (s : sys) : option sys :=
  if crashed s then None else
  match l with
  | Deliver x => deliver x s
  | ReadDone x data =>
      let h := get x s in
      if (read_armed h && is_open h && (1 <=? length data)
          && (length data <=? length (read_buffer h)))%bool
      then Some (upd x (read_done data) s)
      else None
  | ReadFail x e =>
      if (read_armed (get x s) && failed e)%bool
      then Some (upd x (fun h => close_handler e (set_read false h)) s)
      else None
  | WriteDone x =>
      match write_pending (get x s) with
      | Some (src, n) =>
          if is_open (get x s)
          then Some (upd x (write_done (read_buffer (get src s)) n) s)
          else None
      | None => None
      end
  | WriteFail x e =>
      match write_pending (get x s) with
      | Some _ =>
          if failed e
          then Some (upd x (fun h => close_handler e (set_write None h)) s)
          else None
      | None => None
      end
  | Timeout x => Some (upd x (close_handler timed_out) s)
  end.

Fixpoint run (ls : list label) (s : sys) : option sys :=
  match ls with
  | [] => Some s
  | l :: ls' =>
      match step l s with
      | Some s' => run ls' s'
      | None => None
      end
  end.

Definition fresh (capacity : nat) (q : list task) : handler :=
  mk_handler open false None (repeat Byte.x00 capacity) [] q.

(** Modelled from the spec: the pair right after [client::connect]
    succeeded (4.6): both handlers open, parent and child wired to each
    other, [on_open] posted to the child's work loop.  The parent's
    [on_open] has run (it is what called [connect]). *)
Definition init (capacity : nat) : sys :=
  mk_sys (fresh capacity []) (fresh capacity [TOpen])
    (Some Child) (Some Parent) false [].

Inductive reachable (capacity : nat) : sys -> Prop :=
| reach_init : reachable capacity (init capacity)
| reach_step : forall s l s',
    reachable capacity s -> step l s = Some s' -> reachable capacity s'.

(** *** Observations on a state *)

Definition count (f : task -> bool) (q : list task) : nat :=
  length (filter f q).

Arguments count : simpl never.

Definition ran_on_close (x : side) (o : obs) : bool :=
  match o with
  | Ran y (TClose _) _ => side_eqb x y
  | _ => false
  end.

(** How many times [on_close] has run on side [x]. *)
Definition on_close_runs (x : side) (s : sys) : nat :=
  length (filter (ran_on_close x) (history s)).

Definition is_close_event (ev : event) : bool :=
  match state_ ev with
  | parent_close | child_close => true
  | _ => false
  end.

Definition posts_close (o : op) : bool :=
  match o with
  | OpPostParent _ ev | OpPostChild _ ev => is_close_event ev
  | _ => false
  end.

(** Side [x] sent a close-event in this callback. *)
Definition sends_close (x : side) (o : obs) : bool :=
  match o with
  | Ran y _ ops => (side_eqb x y && existsb posts_close ops)%bool
  | _ => false
  end.

(** The callback that hands side [x] its peer's close-event:
    [on_child(child_close)] on the parent, [on_parent(parent_close)] on
    the child. *)
Definition is_close_for (x : side) (t : task) : bool :=
  match x, t with
  | Parent, TChild ev =>
      match state_ ev with child_close => true | _ => false end
  | Child, TParent ev =>
      match state_ ev with parent_close => true | _ => false end
  | _, _ => false
  end.

Arguments is_close_for x t : simpl nomatch.

(** Side [x] was handed its peer's close-event in this callback. *)
Definition receives_close (x : side) (o : obs) : bool :=
  match o with
  | Ran y t _ => (side_eqb x y && is_close_for x t)%bool
  | _ => false
  end.

(** No close-event is sent by a side that has been handed one: the
    history is newest first, so the tail is what came before. *)
Fixpoint no_close_sent_back (x : side) (h : list obs) : bool :=
  match h with
  | [] => true
  | o :: before =>
      ((if sends_close x o
        then negb (receives_close x o || existsb (receives_close x) before)
        else true)
       && no_close_sent_back x before)%bool
  end.

(** Nothing is waiting on either work loop and nothing went wrong. *)
Definition quiescent (s : sys) : Prop :=
  crashed s = false /\ queue (hp s) = [] /\ queue (hc s) = [].

Definition is_parent_write (t : task) : bool :=
  match t with
  | TParent ev => match state_ ev with parent_write => true | _ => false end
  | _ => false
  end.

(** The parent's read buffer is being consumed by the child: a
    [parent_write] is waiting for the child, or the child's write from
    that buffer has not completed. *)
Definition parent_buffer_in_use (s : sys) : bool :=
  (existsb is_parent_write (queue (hc s))
   || match write_pending (hc s) with
      | Some (Parent, _) => true
      | _ => false
      end)%bool.

Definition b2n (b : bool) : nat := if b then 1 else 0.

(** The callbacks that carry the data plane forward on side [x]. *)
Definition is_token (x : side) (t : task) : bool :=
  match x, t with
  | _, TRead _ | _, TWrite _ => true
  | Parent, TChild ev =>
      match state_ ev with child_open | child_write => true | _ => false end
  | Child, TOpen => true
  | Child, TParent ev =>
      match state_ ev with parent_write => true | _ => false end
  | _, _ => false
  end.

Arguments is_token x t : simpl nomatch.

(** Data-plane activity on one handler: an outstanding read, an
    outstanding write, and the waiting callbacks that will start one. *)
Definition tokens_of (x : side) (h : handler) : nat :=
  b2n (read_armed h)
  + b2n (match write_pending h with Some _ => true | None => false end)
  + count (is_token x) (queue h).

Definition tokens (s : sys) : nat :=
  tokens_of Parent (hp s) + tokens_of Child (hc s).

(** The operations of a callback run from peer pointer [p]; empty when
    the callback is undefined there. *)
Definition trace_of (m : M unit) (p : option side) : list op :=
  match m p with
  | Some (_, _, ops) => ops
  | None => []
  end.

Definition is_null_store (o : op) : bool :=
  match o with OpStore None => true | _ => false end.

(** In [ops], the peer pointer is set to null and a close-event is posted
    later. *)
Fixpoint null_store_before_signal (ops : list op) : bool :=
  match ops with
  | [] => false
  | o :: rest =>
      if posts_close o then false
      else if is_null_store o then existsb posts_close rest
      else null_store_before_signal rest
  end.

(** In [ops], a close-event is posted and the peer pointer is set to null
    later. *)
Fixpoint signal_before_null_store (ops : list op) : bool :=
  match ops with
  | [] => false
  | o :: rest =>
      if is_null_store o then false
      else if posts_close o then existsb is_null_store rest
      else signal_before_null_store rest
  end.

(** *** Vocabulary of the invariants *)

(** Operations the handler pair does not react to. *)
Definition quiet (o : op) : bool :=
  match o with
  | OpStore _ | OpConnect | OpPrint _ | OpPrintError _ _ => true
  | _ => false
  end.

(** Operations that neither close the handler nor post a close-event. *)
Definition benign (o : op) : bool :=
  match o with
  | OpPostParent _ ev | OpPostChild _ ev => negb (is_close_event ev)
  | OpClose => false
  | _ => true
  end.

(** The data-plane activities an operation starts. *)
Definition creates (o : op) : nat :=
  match o with
  | OpPostParent target ev => b2n (is_token target (TParent ev))
  | OpPostChild target ev => b2n (is_token target (TChild ev))
  | OpAsyncReadSome | OpAsyncWrite _ _ => 1
  | _ => 0
  end.

Definition creates_all (ops : list op) : nat :=
  fold_right (fun o n => creates o + n) 0 ops.

(** The close-event side [x] posts to the handler [c]. *)
Definition close_post (x c : side) : op :=
  match x with
  | Parent => OpPostParent c (mk_event parent_close 0)
  | Child => OpPostChild c (mk_event child_close 0)
  end.

(** The three kinds of callback: [on_close]; being handed the peer's
    close-event; everything else. *)
Inductive shape (x : side) (t : task) (p : option side)
  : option side -> list op -> Prop :=
| shape_close : forall e o,
    t = TClose e -> forallb quiet o = true ->
    shape x t p None
      (match p with
       | Some c => [close_post x c; OpStore None]
       | None => []
       end ++ o)
| shape_told :
    is_close_for x t = true ->
    shape x t p None [OpStore None; OpClose]
| shape_data : forall ops,
    is_on_close t = false -> is_close_for x t = false ->
    forallb benign ops = true ->
    shape x t p p ops.

(** What the shutdown invariant looks at on one side. *)
Record sview := mk_sview {
  v_state : hstate;
  v_closes : nat;      (* [on_close] callbacks waiting *)
  v_events : nat;      (* close-events from the peer waiting *)
  v_ptr : option side;
  v_runs : nat;        (* [on_close] callbacks run *)
  v_recv : bool;       (* a close-event from the peer was handed over *)
  v_nsb : bool         (* no close-event was sent after that *)
}.

Definition view (y : side) (s : sys) : sview :=
  mk_sview (state (get y s))
    (count is_on_close (queue (get y s)))
    (count (is_close_for y) (queue (get y s)))
    (ptr y s)
    (on_close_runs y s)
    (existsb (receives_close y) (history s))
    (no_close_sent_back y (history s)).

Arguments view : simpl never.

(** How the moves of the pair act on a view. *)
Definition sv_enqueue (y : side) (t : task) (v : sview) : sview :=
  mk_sview (v_state v) (v_closes v + b2n (is_on_close t))
    (v_events v + b2n (is_close_for y t)) (v_ptr v) (v_runs v)
    (v_recv v) (v_nsb v).

Definition sv_push_front (y : side) (t : task) (v : sview) : sview :=
  mk_sview (v_state v) (b2n (is_on_close t) + v_closes v)
    (b2n (is_close_for y t) + v_events v) (v_ptr v) (v_runs v)
    (v_recv v) (v_nsb v).

Definition sv_close (v : sview) : sview :=
  match v_state v with
  | open =>
      mk_sview closing (v_closes v + 1) (v_events v) (v_ptr v) (v_runs v)
        (v_recv v) (v_nsb v)
  | _ => v
  end.

Definition sv_set_ptr (p : option side) (v : sview) : sview :=
  mk_sview (v_state v) (v_closes v) (v_events v) p (v_runs v)
    (v_recv v) (v_nsb v).

Definition sv_set_state (st : hstate) (v : sview) : sview :=
  mk_sview st (v_closes v) (v_events v) (v_ptr v) (v_runs v)
    (v_recv v) (v_nsb v).

Definition sv_note (y : side) (o : obs) (v : sview) : sview :=
  mk_sview (v_state v) (v_closes v) (v_events v) (v_ptr v)
    (b2n (ran_on_close y o) + v_runs v)
    (receives_close y o || v_recv v)
    ((if sends_close y o
      then negb (receives_close y o || v_recv v) else true)
     && v_nsb v).

(** The invariant of side [x], seen from its own view [me] and its
    peer's view [peer]. *)
Record side_inv (x : side) (me peer : sview) : Prop := mk_side_inv {
  lifecycle :
    match v_state me with
    | idle => False
    | open => v_closes me = 0 /\ v_runs me = 0
    | closing => v_closes me = 1 /\ v_runs me = 0
    | closed => v_runs me = 1
    end;
  wired : v_ptr me = None \/ v_ptr me = Some (other x);
  null_stopped : v_ptr me = None -> v_state me <> open;
  null_peer :
    v_ptr me = None -> v_state me = closed \/ v_state peer = closed;
  event_sound : 1 <= v_events me -> v_state peer = closed;
  peer_told :
    v_state me = closed -> v_state peer <> open \/ 1 <= v_events peer;
  recv_null : v_recv me = true -> v_ptr me = None;
  none_sent_back : v_nsb me = true
}.

Definition inv (s : sys) : Prop :=
  side_inv Parent (view Parent s) (view Child s)
  /\ side_inv Child (view Child s) (view Parent s).

(** *** Sample runs of the pair *)

(** The state after the steps [ls] from the start, with read buffers of
    [capacity] bytes. *)
Definition after (ls : list label) (capacity : nat) : sys :=
  match run ls (init capacity) with
  | Some s => s
  | None => init capacity
  end.

(** The child opens, the parent reads two bytes and hands them over. *)
Definition handover_run : list label :=
  [Deliver Child; Deliver Parent;
   ReadDone Parent [Byte.x68; Byte.x69]; Deliver Parent].

(** ... the child writes them, reads one byte and hands it back. *)
Definition handback_run : list label :=
  handover_run
  ++ [Deliver Child; WriteDone Child; Deliver Child;
      ReadDone Child [Byte.x21]; Deliver Child].

(** ... the child writes them, its target hangs up, both sides close. *)
Definition shutdown_run : list label :=
  handover_run
  ++ [Deliver Child; WriteDone Child; Deliver Child;
      ReadFail Child eof; Deliver Child; Deliver Parent; Deliver Parent].

(** The child's session timer fires while the parent's read completes:
    [child_close] reaches the parent's work loop ahead of [on_read]. *)
Definition fault_run : list label :=
  [Deliver Child; Deliver Parent; Timeout Child; Deliver Child;
   ReadDone Parent [Byte.x68]; Deliver Parent; Deliver Parent].

End Proxy.
(* ================================================================== *)
(** * The server *)

Module Server.

Import Asio.

Definition loop_id := nat.
Definition handler_id := nat.

(** [boost::asio::ip::tcp::endpoint]: address and port.  Opening an
    acceptor with [endpoint_.protocol()] is recorded as opening it for that
    endpoint. *)
Record endpoint := mk_endpoint { address : string; port : N }.

Inductive pool_kind := AcceptorPool | IoPool | WorkPool.

(** ** Callbacks in flight *)

(** A callback waiting on the I/O pool or on the work pool.  When it runs
    it may post successors into either pool; [on_close] is the callback
    after which the handler goes back to its pool.  On the loops of the
    acceptor pool wait the [acceptor::close] that [stop] dispatched for
    acceptor [a], and the completion handler of an accept on [a] that a
    [close] cancelled. *)
Inductive callback :=
| on_open (h : handler_id)
| on_close (h : handler_id) (e : error_code)
| other
| close_call (a : nat)
| accept_aborted (a : nat).

#[local] Unset Elimination Schemes.
Inductive task :=
| Task (cb : callback) (to_io : list task) (to_work : list task).
#[local] Set Elimination Schemes.

Fixpoint weight (t : task) : nat :=
  match t with
  | Task _ a b =>
      S ((fix go (l : list task) : nat :=
            match l with [] => 0 | x :: r => weight x + go r end) a
         + (fix go (l : list task) : nat :=
              match l with [] => 0 | x :: r => weight x + go r end) b)
  end.

Fixpoint weights (l : list task) : nat :=
  match l with [] => 0 | x :: r => weight x + weights r end.

(** ** The pool of event loops *)

(** Modelled from the spec: [bas::io_service_pool] (sections 3, 4.1 and
    4.2; [io_service_pool.hpp] is not among the sources): the number of
    loops, the round-robin cursor, the sizing parameters of the elastic
    pool, whether the worker threads run, and the callbacks waiting. *)
Record io_service_pool := mk_pool {
  loops : nat;
  cursor : nat;
  high_watermark : nat;
  thread_load : nat;
  running : bool;
  pending : list task
}.

(** Modelled from the spec: [io_service_pool(n)], a pool of [n] loops
    that never grows, and [io_service_pool(n, high_watermark, load)]. *)
Definition make_pool (n hw load : nat) : io_service_pool :=
  mk_pool n 0 hw load false [].

Definition fixed_pool (n : nat) : io_service_pool := make_pool n n 1.

(** Modelled from the spec: [get_io_service()], the next loop in
    round-robin order; the cursor advances with wrap (4.1). *)
Definition get_io_service (p : io_service_pool)
  : loop_id * io_service_pool :=
  (cursor p mod loops p,
   mk_pool (loops p) (S (cursor p) mod loops p) (high_watermark p)
     (thread_load p) (running p) (pending p)).

(** Modelled from the spec: the size the elastic pool needs for load
    hint [h]: [clamp(ceil(h / L), 1, wmax)] (4.2). *)
Definition required (p : io_service_pool) (h : nat) : nat :=
  Nat.min (Nat.max ((h + thread_load p - 1) / thread_load p) 1)
    (high_watermark p).

(** Modelled from the spec: [get_io_service(load)] (4.2): grow to the
    required size if that is larger, then select round-robin. *)
Definition get_io_service_load (p : io_service_pool) (h : nat)
  : loop_id * io_service_pool :=
  get_io_service
    (mk_pool (Nat.max (loops p) (required p h)) (cursor p)
       (high_watermark p) (thread_load p) (running p) (pending p)).

(** Modelled from the spec: [is_free()]: nothing waits and nothing runs
    (4.1, is-idle). *)
Definition is_free (p : io_service_pool) : bool :=
  match pending p with [] => true | _ => false end.

Definition set_running (b : bool) (p : io_service_pool) : io_service_pool :=
  mk_pool (loops p) (cursor p) (high_watermark p) (thread_load p) b
    (pending p).

Definition set_pending (l : list task) (p : io_service_pool)
  : io_service_pool :=
  mk_pool (loops p) (cursor p) (high_watermark p) (thread_load p)
    (running p) l.

(** ** The pool of handlers *)

Inductive hstate := idle | open | closing | closed.

(** Modelled from the spec: the service handler as the server sees it
    (section 3): its state, the loops it is bound to, and the error it was
    closed with. *)
Record service_handler := mk_handler {
  h_state : hstate;
  io_loop : option loop_id;
  work_loop : option loop_id;
  close_error : option error_code
}.

Definition idle_handler : service_handler := mk_handler idle None None None.

(** Modelled from the spec: [bas::service_handler_pool] (4.4;
    [service_handler_pool.hpp] is not among the sources): every handler
    ever constructed, the free list, the in-use counter and the number of
    handlers to preallocate. *)
Record service_handler_pool := mk_handler_pool {
  handlers : list service_handler;
  free_list : list handler_id;
  in_use : nat;
  preallocated : nat
}.

Definition new_handler_pool (preallocated_handler_number : nat)
  : service_handler_pool :=
  mk_handler_pool [] [] 0 preallocated_handler_number.

(** Modelled from the spec: [init()] preallocates the handlers (4.4). *)
Definition init (p : service_handler_pool) : service_handler_pool :=
  mk_handler_pool (repeat idle_handler (preallocated p))
    (seq 0 (preallocated p)) (in_use p) (preallocated p).

Fixpoint update {A} (i : nat) (f : A -> A) (l : list A) : list A :=
  match l, i with
  | [], _ => []
  | x :: r, 0 => f x :: r
  | x :: r, S j => x :: update j f r
  end.

(** Modelled from the spec: [get_load()], the in-use count (4.4). *)
Definition get_load (p : service_handler_pool) : nat := in_use p.

(** Modelled from the spec: [get_service_handler(io, work)]: a recycled
    handler, or a freshly allocated one when the free list is empty,
    bound to the two loops; the in-use counter goes up (4.4). *)
Definition get_service_handler (io work : loop_id) (p : service_handler_pool)
  : handler_id * service_handler_pool :=
  let bound := mk_handler idle (Some io) (Some work) None in
  match free_list p with
  | h :: rest =>
      (h, mk_handler_pool (update h (fun _ => bound) (handlers p)) rest
            (S (in_use p)) (preallocated p))
  | [] =>
      (length (handlers p),
       mk_handler_pool (handlers p ++ [bound]) [] (S (in_use p))
         (preallocated p))
  end.

(** Modelled from the spec: [put(handler)]: the counter goes down, the
    per-session state is cleared, the handler is pushed back onto the
    free list (4.4). *)
Definition put (h : handler_id) (p : service_handler_pool)
  : service_handler_pool :=
  mk_handler_pool (update h (fun _ => idle_handler) (handlers p))
    (free_list p ++ [h]) (pred (in_use p)) (preallocated p).

Definition set_handler (h : handler_id) (f : service_handler -> service_handler)
  (p : service_handler_pool) : service_handler_pool :=
  mk_handler_pool (update h f (handlers p)) (free_list p) (in_use p)
    (preallocated p).

(** ** The server object *)

(** [boost::asio::ip::tcp::acceptor], reduced to what [server] does with
    it: the acceptor-pool loop it was constructed on, the socket options
    and state, and the handler of the accept in progress. *)
Record acceptor := mk_acceptor {
  acc_loop : loop_id;
  acc_open : option endpoint;
  acc_reuse_address : bool;
  acc_bound : option endpoint;
  acc_listening : bool;
  acc_pending : option handler_id
}.

Definition fresh_acceptor (l : loop_id) : acceptor :=
  mk_acceptor l None false None false None.

(** The calls [server] makes on its collaborators, in program order. *)
Inductive call :=
| acceptor_open (a : nat) (ep : endpoint)
| acceptor_set_reuse_address (a : nat) (on : bool)
| acceptor_bind (a : nat) (ep : endpoint)
| acceptor_listen (a : nat)
| acceptor_async_accept (a : nat) (h : handler_id)
| acceptor_close (a : nat)
| acceptor_dispatch_close (a : nat)
| handler_start (h : handler_id)
| handler_close (h : handler_id) (e : error_code)
| pool_start (k : pool_kind)
| pool_stop (k : pool_kind) (force : bool)
| pool_run (k : pool_kind).

Record server := mk_server {
  service_handler_pool_ : service_handler_pool;
  acceptor_service_pool_ : io_service_pool;
  io_service_pool_ : io_service_pool;
  work_service_pool_ : io_service_pool;
  acceptors_ : list acceptor;
  endpoint_ : endpoint;
  started_ : bool;
  log : list call
}.

Definition pool (k : pool_kind) (s : server) : io_service_pool :=
  match k with
  | AcceptorPool => acceptor_service_pool_ s
  | IoPool => io_service_pool_ s
  | WorkPool => work_service_pool_ s
  end.

Definition with_pool (k : pool_kind) (f : io_service_pool -> io_service_pool)
  (s : server) : server :=
  match k with
  | AcceptorPool =>
      mk_server (service_handler_pool_ s) (f (acceptor_service_pool_ s))
        (io_service_pool_ s) (work_service_pool_ s) (acceptors_ s)
        (endpoint_ s) (started_ s) (log s)
  | IoPool =>
      mk_server (service_handler_pool_ s) (acceptor_service_pool_ s)
        (f (io_service_pool_ s)) (work_service_pool_ s) (acceptors_ s)
        (endpoint_ s) (started_ s) (log s)
  | WorkPool =>
      mk_server (service_handler_pool_ s) (acceptor_service_pool_ s)
        (io_service_pool_ s) (f (work_service_pool_ s)) (acceptors_ s)
        (endpoint_ s) (started_ s) (log s)
  end.

Definition with_handlers (f : service_handler_pool -> service_handler_pool)
  (s : server) : server :=
  mk_server (f (service_handler_pool_ s)) (acceptor_service_pool_ s)
    (io_service_pool_ s) (work_service_pool_ s) (acceptors_ s)
    (endpoint_ s) (started_ s) (log s).

Definition with_acceptor (a : nat) (f : acceptor -> acceptor) (s : server)
  : server :=
  mk_server (service_handler_pool_ s) (acceptor_service_pool_ s)
    (io_service_pool_ s) (work_service_pool_ s)
    (update a f (acceptors_ s)) (endpoint_ s) (started_ s) (log s).

Definition set_started (b : bool) (s : server) : server :=
  mk_server (service_handler_pool_ s) (acceptor_service_pool_ s)
    (io_service_pool_ s) (work_service_pool_ s) (acceptors_ s)
    (endpoint_ s) b (log s).

Definition record (c : call) (s : server) : server :=
  mk_server (service_handler_pool_ s) (acceptor_service_pool_ s)
    (io_service_pool_ s) (work_service_pool_ s) (acceptors_ s)
    (endpoint_ s) (started_ s) (log s ++ [c]).


(** ** Running the callbacks of a pool *)

Definition post (k : pool_kind) (l : list task) (s : server) : server :=
  with_pool k (fun p => set_pending (pending p ++ l) p) s.

(** Modelled from the spec: what the framework does around a callback
    (4.3): after [on_close] has returned the handler recycles to its
    pool. *)
Definition settle (cb : callback) (s : server) : server :=
  match cb with
  | on_close h _ => with_handlers (put h) s
  | _ => s
  end.

Definition exec (t : task) (s : server) : server :=
  match t with
  | Task cb to_io to_work => post WorkPool to_work (post IoPool to_io (settle cb s))
  end.

(** The callbacks in flight on the I/O pool and on the work pool. *)
Definition in_flight (s : server) : nat :=
  weights (pending (io_service_pool_ s))
  + weights (pending (work_service_pool_ s)).

(** The loops of pool [k] run until nothing waits on that pool. *)
Fixpoint drain (fuel : nat) (k : pool_kind) (s : server) : server :=
  match fuel with
  | 0 => s
  | S fuel' =>
      match pending (pool k s) with
      | [] => s
      | t :: rest =>
          drain fuel' k (exec t (with_pool k (set_pending rest) s))
      end
  end.

(** Modelled from the spec: [io_service_pool::start()] (4.1): the worker
    threads are launched; a no-op on a started pool. *)
Definition start_pool (k : pool_kind) (s : server) : server :=
  record (pool_start k) (with_pool k (set_running true) s).

(** Modelled from the spec: [io_service_pool::stop(force)] (4.1): a no-op
    on a stopped pool; the cooperative stop returns once the queue has
    drained, the forced one abandons what is outstanding.  Every callback
    that runs takes one off the finite stock in flight, which bounds the
    drain. *)
Definition stop_pool (k : pool_kind) (force : bool) (s : server) : server :=
  let s1 := record (pool_stop k force) s in
  if negb (running (pool k s1)) then s1
  else if force
       then with_pool k (fun p => set_running false (set_pending [] p)) s1
       else with_pool k (set_running false) (drain (in_flight s1) k s1).

(** ** [server::accept_one] *)

Definition accept_one (a : nat) (s : server) : server :=
  let load := get_load (service_handler_pool_ s) in
  let (io, io_pool) := get_io_service (io_service_pool_ s) in
  let (work, work_pool) := get_io_service_load (work_service_pool_ s) load in
  let (h, handler_pool) :=
    get_service_handler io work (service_handler_pool_ s) in
  let s1 :=
    with_handlers (fun _ => handler_pool)
      (with_pool WorkPool (fun _ => work_pool)
         (with_pool IoPool (fun _ => io_pool) s)) in
  record (acceptor_async_accept a h)
    (with_acceptor a
       (fun c => mk_acceptor (acc_loop c) (acc_open c)
                   (acc_reuse_address c) (acc_bound c) (acc_listening c)
                   (Some h)) s1).

(** Modelled from the spec: [service_handler::start()] (4.3): the handler
    is open and [on_open] is posted to the work loop.  What the session
    goes on to do is [session]: the callbacks [on_open] leads to. *)
Definition start_handler (h : handler_id) (session : list task * list task)
  (s : server) : server :=
  post WorkPool [Task (on_open h) (fst session) (snd session)]
    (with_handlers
       (set_handler h (fun x => mk_handler open (io_loop x) (work_loop x)
                                  (close_error x)))
       (record (handler_start h) s)).

(** Modelled from the spec: [service_handler::close(e)] (4.3, shutdown
    protocol): the handler enters [closing] with [e] and [on_close(e)] is
    posted to the work loop. *)
Definition close_handler (h : handler_id) (e : error_code) (s : server)
  : server :=
  post WorkPool [Task (on_close h e) [] []]
    (with_handlers
       (set_handler h (fun x => mk_handler closing (io_loop x) (work_loop x)
                                  (Some e)))
       (record (handler_close h e) s)).

(** ** [server::handle_accept] *)

Definition handle_accept (e : error_code) (session : list task * list task)
  (h : handler_id) (a : nat) (s : server) : server :=
  if negb (failed e)
  then accept_one a (start_handler h session s)
  else close_handler h e s.

(** The accept armed on acceptor [a] completes with [e]: the operation is
    no longer outstanding and its completion handler runs. *)
Definition complete_accept (a : nat) (e : error_code)
  (session : list task * list task) (s : server) : server :=
  match nth_error (acceptors_ s) a with
  | Some c =>
      match acc_pending c with
      | Some h =>
          handle_accept e session h a
            (with_acceptor a
               (fun c => mk_acceptor (acc_loop c) (acc_open c)
                           (acc_reuse_address c) (acc_bound c)
                           (acc_listening c) None) s)
      | None => s
      end
  | None => s
  end.

(** ** [server::stop] *)

(** [get_io_service().dispatch(bind(&acceptor::close, acceptor))].
    [stop] is called from a thread that runs none of the acceptor loops
    ([run] keeps its caller inside [acceptor_service_pool_.run()]), so the
    call is queued on the acceptor's loop and [dispatch] returns. *)
Definition dispatch_close (a : nat) (s : server) : server :=
  post AcceptorPool [Task (close_call a) [] []]
    (record (acceptor_dispatch_close a) s).

(** [server::stop]: one [dispatch] per acceptor, then
    [acceptor_service_pool_.stop()].  The pool's [stop()] asks the acceptor
    loops to exit and returns (section 4.1 of the specification;
    [io_service_pool.hpp] is not among the sources); what waits on the
    loops runs before [acceptor_service_pool_.run()] returns, see
    [serve]. *)
Definition stop (s : server) : server :=
  if negb (started_ s) then s
  else
    let s1 := fold_left (fun s a => dispatch_close a s)
                (seq 0 (length (acceptors_ s))) s in
    with_pool AcceptorPool (set_running false)
      (record (pool_stop AcceptorPool false) s1).

(** ** The acceptor loops *)

(** [acceptor::close], run on the acceptor's own loop: the socket is
    closed; an accept in progress is cancelled, and its completion handler
    is queued on the loop, to be called with [operation_aborted]. *)
Definition close_acceptor (a : nat) (s : server) : server :=
  let s1 :=
    with_acceptor a
      (fun c => mk_acceptor (acc_loop c) None false None false
                  (acc_pending c))
      (record (acceptor_close a) s) in
  match nth_error (acceptors_ s) a with
  | Some c =>
      match acc_pending c with
      | Some _ => post AcceptorPool [Task (accept_aborted a) [] []] s1
      | None => s1
      end
  | None => s1
  end.

(** What an acceptor loop does with the oldest call waiting on it. *)
Definition run_acceptor_task (t : task) (s : server) : server :=
  match t with
  | Task (close_call a) _ _ => close_acceptor a s
  | Task (accept_aborted a) _ _ =>
      complete_accept a operation_aborted ([], []) s
  | _ => exec t s
  end.

(** Modelled from the spec: the acceptor loops run what waits on them,
    oldest first (4.1: a loop returns from [run] once its queue has
    drained).  One queue stands for the loops of the pool. *)
Fixpoint drain_acceptor_loops (fuel : nat) (s : server) : server :=
  match fuel with
  | 0 => s
  | S fuel' =>
      match pending (acceptor_service_pool_ s) with
      | [] => s
      | t :: rest =>
          drain_acceptor_loops fuel'
            (run_acceptor_task t
               (with_pool AcceptorPool (set_pending rest) s))
      end
  end.

(** A call that runs queues at most one more, so twice the number of the
    calls waiting is fuel enough. *)
Definition finish_acceptor_loops (s : server) : server :=
  drain_acceptor_loops (2 * length (pending (acceptor_service_pool_ s))) s.

(** ** [server::run] *)

(** What the rest of the process does while [run] is inside
    [acceptor_service_pool_.run()]. *)
Inductive event :=
| accept_completes (a : nat) (e : error_code)
    (session : list task * list task)
| stop_called.

(** The world [run] executes in: the error [bind] reports for each
    acceptor, if any, and the events during the blocking call. *)
Record environment := mk_environment {
  bind_error : nat -> option error_code;
  events : list event
}.

Inductive outcome :=
| Returned (s : server)
| Thrown (e : error_code) (s : server)
| Blocked (s : server)
| Spinning.

(** A piece of [run] either completes or throws. *)
Inductive attempt :=
| Ok (s : server)
| Throws (e : error_code) (s : server).

Definition already_open : error_code := 1%Z.

(** The body of the first loop of [run] for acceptor [a].  [open] throws
    on an acceptor that is open, [bind] throws what the environment
    reports. *)
Definition open_acceptor (env : environment) (a : nat) (s : server)
  : attempt :=
  match nth_error (acceptors_ s) a with
  | None => Ok s
  | Some c =>
      let ep := endpoint_ s in
      let s1 := record (acceptor_open a ep) s in
      match acc_open c with
      | Some _ => Throws already_open s1
      | None =>
          let s2 :=
            record (acceptor_set_reuse_address a true)
              (with_acceptor a
                 (fun c => mk_acceptor (acc_loop c) (Some ep) true
                             (acc_bound c) (acc_listening c)
                             (acc_pending c)) s1) in
          let s3 := record (acceptor_bind a ep) s2 in
          match bind_error env a with
          | Some e => Throws e s3
          | None =>
              let s4 :=
                record (acceptor_listen a)
                  (with_acceptor a
                     (fun c => mk_acceptor (acc_loop c) (acc_open c)
                                 (acc_reuse_address c) (Some ep) true
                                 (acc_pending c)) s3) in
              Ok (accept_one a s4)
          end
      end
  end.

Fixpoint open_acceptors (env : environment) (l : list nat) (s : server)
  : attempt :=
  match l with
  | [] => Ok s
  | a :: rest =>
      match open_acceptor env a s with
      | Ok s1 => open_acceptors env rest s1
      | Throws e s1 => Throws e s1
      end
  end.

Definition handle_event (ev : event) (s : server) : server :=
  match ev with
  | accept_completes a e session => complete_accept a e session s
  | stop_called => stop s
  end.

(** Modelled from the spec: [acceptor_service_pool_.run()] (3, 4.1,
    4.5): it runs the acceptor loops on the caller's thread and returns
    once the pool has been asked to stop and what waits on the loops has
    run. *)
Fixpoint serve (evs : list event) (s : server) : option server :=
  if negb (running (acceptor_service_pool_ s))
  then Some (finish_acceptor_loops s)
  else
    match evs with
    | [] => None
    | ev :: rest => serve rest (handle_event ev s)
    end.

(** The [while] loop of the graceful stop. *)
Fixpoint drain_loop (fuel : nat) (s : server) : option server :=
  match fuel with
  | 0 => None
  | S fuel' =>
      if (negb (is_free (io_service_pool_ s))
          || negb (is_free (work_service_pool_ s)))%bool
      then
        drain_loop fuel'
          (stop_pool WorkPool false
             (stop_pool IoPool false
                (start_pool IoPool (start_pool WorkPool s))))
      else Some s
  end.

(** [run] from the return of [acceptor_service_pool_.run()] on. *)
Definition shut_down (fuel : nat) (force_stop : bool) (s : server)
  : option server :=
  if force_stop
  then Some (set_started false
               (stop_pool WorkPool true (stop_pool IoPool true s)))
  else
    match drain_loop fuel
            (stop_pool WorkPool false (stop_pool IoPool false s)) with
    | Some s1 => Some (set_started false s1)
    | None => None
    end.

(** [run] up to the call of [acceptor_service_pool_.run()]. *)
Definition start_up (env : environment) (s : server)
  : attempt :=
  match open_acceptors env (seq 0 (length (acceptors_ s))) s with
  | Ok s1 =>
      Ok (record (pool_run AcceptorPool)
            (with_pool AcceptorPool (set_running true)
               (set_started true
                  (start_pool IoPool (start_pool WorkPool s1)))))
  | Throws e s1 => Throws e s1
  end.

Definition run (fuel : nat) (force_stop : bool) (env : environment)
  (s : server) : outcome :=
  if started_ s then Returned s
  else
    match start_up env s with
    | Throws e s1 => Thrown e s1
    | Ok s1 =>
        match serve (events env) s1 with
        | None => Blocked s1
        | Some s2 =>
            match shut_down fuel force_stop s2 with
            | Some s3 => Returned s3
            | None => Spinning
            end
        end
    end.

(** ** The constructor *)

(** The loop of the constructor: one acceptor per iteration, on the next
    loop of the acceptor pool. *)
Fixpoint create_acceptors (n : nat) (s : server) : server :=
  match n with
  | 0 => s
  | S n' =>
      let (l, p) := get_io_service (acceptor_service_pool_ s) in
      create_acceptors n'
        (mk_server (service_handler_pool_ s) p (io_service_pool_ s)
           (work_service_pool_ s)
           (acceptors_ s ++ [fresh_acceptor l])
           (endpoint_ s) (started_ s) (log s))
  end.

Definition new_server (handler_pool : service_handler_pool)
  (address : string) (port : N)
  (io_pool_size work_pool_init_size work_pool_high_watermark
     work_pool_thread_load : nat) : server :=
  with_handlers init
    (create_acceptors io_pool_size
       (mk_server handler_pool (fixed_pool io_pool_size)
          (fixed_pool io_pool_size)
          (make_pool work_pool_init_size work_pool_high_watermark
             work_pool_thread_load)
          [] (mk_endpoint address port) false [])).

(** ** Vocabulary of the lemmas *)

(** The free list of a handler pool names constructed handlers only. *)
Definition pool_ok (p : service_handler_pool) : Prop :=
  Forall (fun h => h < length (handlers p)) (free_list p).

(** The calls the first loop of [run] makes for acceptor [a], the accept
    being armed on handler [h]. *)
Definition opening_calls (ep : endpoint) (ah : nat * handler_id)
  : list call :=
  [acceptor_open (fst ah) ep; acceptor_set_reuse_address (fst ah) true;
   acceptor_bind (fst ah) ep; acceptor_listen (fst ah);
   acceptor_async_accept (fst ah) (snd ah)].

(** One round of the graceful stop's loop. *)
Definition drain_round : list call :=
  [pool_start WorkPool; pool_start IoPool;
   pool_stop IoPool false; pool_stop WorkPool false].

(** One round of the loop: both pools restarted, then stopped. *)
Definition round (s : server) : server :=
  stop_pool WorkPool false
    (stop_pool IoPool false (start_pool IoPool (start_pool WorkPool s))).

(** What running callbacks leaves alone. *)
Definition same_frame (s' s : server) : Prop :=
  log s' = log s /\ started_ s' = started_ s
  /\ running (io_service_pool_ s') = running (io_service_pool_ s)
  /\ running (work_service_pool_ s') = running (work_service_pool_ s).

(** Acceptor [a] has an accept in progress. *)
Definition accept_armed (a : nat) (s : server) : bool :=
  match nth_error (acceptors_ s) a with
  | Some c => match acc_pending c with Some _ => true | None => false end
  | None => false
  end.

(** ** Sample servers *)

Definition quiet_world : environment :=
  mk_environment (fun _ => None) [].

(** A connection is accepted on acceptor 0, the accept on acceptor 1
    fails, then [stop] is called. *)
Definition sample_world : environment :=
  mk_environment (fun _ => None)
    [accept_completes 0 success ([Task other [] [Task other [] []]], []);
     accept_completes 1 connection_reset ([], []);
     stop_called].

(** Two acceptors, two preallocated handlers, address 0.0.0.0:1000. *)
Definition sample_server : server :=
  new_server (new_handler_pool 2) "0.0.0.0" 1000 2 2 4 64.

(** ... inside [acceptor_service_pool_.run()], one accept armed on each
    acceptor. *)
Definition sample_started : server :=
  match start_up quiet_world sample_server with
  | Ok s => s
  | Throws _ s => s
  end.

(** ... with a read completion waiting on the I/O pool whose callback
    posts to the work pool, which posts a write back to the I/O pool. *)
Definition sample_busy : server :=
  post IoPool [Task other [] [Task other [Task other [] []] []]]
    sample_started.

End Server.

(* ================================================================== *)
(** * Vocabulary for the work objects and the pair *)

Module ProxyMore.

Import Asio Proxy.

(** The callbacks that dereference the peer pointer: [on_read] and
[on_child] for [child_write] in [server_work]; [on_open], [on_read] and
[on_parent] for [parent_write] in [client_work]. *)
Definition derefs (x : side) (t : task) : bool :=
  match x, t with
  | _, TRead _ => true
  | Parent, TChild ev =>
      match state_ ev with child_write => true | _ => false end
  | Child, TOpen => true
  | Child, TParent ev =>
      match state_ ev with parent_write => true | _ => false end
  | _, _ => false
  end.

Definition is_null (p : option side) : bool :=
  match p with None => true | Some _ => false end.

Definition undefined {A} (r : option A) : bool :=
  match r with None => true | Some _ => false end.

(** The peer pointer a callback leaves behind. *)
Definition pointer_after (m : M unit) (p : option side)
  : option (option side) :=
  match m p with
  | Some (_, p', _) => Some p'
  | None => None
  end.

Definition is_console (o : op) : bool :=
  match o with OpPrint _ | OpPrintError _ _ => true | _ => false end.

Definition stores_pointer (o : op) : bool :=
  match o with OpStore (Some _) => true | _ => false end.

(** [on_set_child] of [server_work], [on_set_parent] of [client_work]. *)
Definition install (x : side) (c : option side) : M unit :=
  match x with
  | Parent => server_work.on_set_child c
  | Child => client_work.on_set_parent c
  end.

(** The handler an operation is addressed to or reads from. *)
Definition addressee (o : op) : option side :=
  match o with
  | OpPostParent c _ | OpPostChild c _ | OpAsyncWrite c _ => Some c
  | _ => None
  end.

Definition addressed_to (c : side) (o : op) : bool :=
  match addressee o with Some a => side_eqb a c | None => true end.

(** The error codes [on_close] passes over in silence. *)
Definition unreported (e : error_code) : bool :=
  (Z.eqb e connection_aborted || Z.eqb e connection_reset
   || Z.eqb e connection_refused)%bool.

(** The error codes [on_close] reports as a normal end. *)
Definition normal_end (e : error_code) : bool :=
  (Z.eqb e 0 || Z.eqb e eof)%bool.

(** The callbacks, other than [on_read], that dereference the peer
pointer. *)
Definition needs_peer (x : side) (t : task) : bool :=
  (derefs x t && negb (match t with TRead _ => true | _ => false end))%bool.

(** What waits behind the first close-event for [x] in a work loop. *)
Fixpoint behind_close (x : side) (q : list task) : list task :=
  match q with
  | [] => []
  | t :: r => if is_close_for x t then r else behind_close x r
  end.

(** Side [x], given by its state, peer pointer and waiting callbacks: a
null pointer on a handler that has not run [on_close] comes with no waiting
callback that needs the peer, and none waits behind a close-event. *)
Definition guarded_at (x : side) (st : hstate) (p : option side)
  (q : list task) : Prop :=
  (p = None -> st = closed \/ count (needs_peer x) q = 0)
  /\ count (needs_peer x) (behind_close x q) = 0.

Definition guarded (x : side) (s : sys) : Prop :=
  guarded_at x (state (get x s)) (ptr x s) (queue (get x s)).

(** The bytes a step of the pair reads from the socket of side [x]. *)
Definition received (x : side) (l : label) : list Byte.byte :=
  match l with
  | ReadDone y data => if side_eqb x y then data else []
  | _ => []
  end.

(** Everything read from the socket of side [x] during the steps [ls]. *)
Definition stream_in (x : side) (ls : list label) : list Byte.byte :=
  flat_map (received x) ls.

Definition read_size (t : task) : nat :=
  match t with TRead n => N.to_nat n | _ => 0 end.

(** The byte count of the event by which side [x] hands its read buffer
over: [parent_write] from the parent, [child_write] from the child. *)
Definition write_event_size (x : side) (t : task) : nat :=
  match x, t with
  | Parent, TParent ev =>
      match state_ ev with parent_write => N.to_nat (value_ ev) | _ => 0 end
  | Child, TChild ev =>
      match state_ ev with child_write => N.to_nat (value_ ev) | _ => 0 end
  | _, _ => 0
  end.

Definition total (f : task -> nat) (q : list task) : nat :=
  list_sum (map f q).

Arguments total : simpl never.

Definition pending_size (w : option (side * N)) : nat :=
  match w with Some (_, n) => N.to_nat n | None => 0 end.

(** The bytes read on side [x] that are on their way to the other side:
counted by an [on_read] waiting on [x], by a write event waiting on the
other side, or by the other side's outstanding write. *)
Definition in_flight (x : side) (s : sys) : nat :=
  total read_size (queue (get x s))
  + total (write_event_size x) (queue (get (other x) s))
  + pending_size (write_pending (get (other x) s)).

(** The bytes read on side [x] and not yet written on the other side. *)
Definition owed (x : side) (s : sys) : list Byte.byte :=
  firstn (in_flight x s) (read_buffer (get x s)).

(** Every outstanding write reads from the peer's buffer, and the read
buffers keep their size. *)
Definition sound (capacity : nat) (s : sys) : Prop :=
  (forall y src n, write_pending (get y s) = Some (src, n) -> src = other y)
  /\ (forall y, length (read_buffer (get y s)) = capacity).

(** What was read on side [x] is what was written on the other side,
followed by at most one buffer of bytes; while the data plane is alive,
these are the bytes on their way. *)
Definition relay (capacity : nat) (x : side) (ls : list label) (s : sys)
  : Prop :=
  exists rest,
    stream_in x ls = socket_out (get (other x) s) ++ rest
    /\ length rest <= capacity
    /\ (1 <= tokens s -> rest = owed x s).

End ProxyMore.

(* ================================================================== *)
(** * Vocabulary for the server *)

Module ServerMore.

Import Asio Server.

(** The acceptor [c] after [close]: no socket, nothing in progress. *)
Definition closed_acceptor (c : acceptor) : acceptor :=
  fresh_acceptor (acc_loop c).

(** The [acceptor::close] of acceptor [a], waiting on its loop. *)
Definition close_request (a : nat) : task := Task (close_call a) [] [].

Definition is_closing (a : nat) (t : task) : bool :=
  match t with Task (close_call b) _ _ => b =? a | _ => false end.

Definition is_aborted (a : nat) (t : task) : bool :=
  match t with Task (accept_aborted b) _ _ => b =? a | _ => false end.

(** Acceptor [a], seen from the calls [q] waiting on the acceptor loops:
    its [close] is still waiting, or it has no socket and, if its accept
    is still in progress, the cancelled accept's handler is waiting. *)
Definition closing_down (q : list task) (acceptors : list acceptor)
  (a : nat) : Prop :=
  existsb (is_closing a) q = true
  \/ (forall c, nth_error acceptors a = Some c ->
      acc_open c = None /\ acc_reuse_address c = false
      /\ acc_bound c = None /\ acc_listening c = false
      /\ (acc_pending c <> None -> existsb (is_aborted a) q = true)).

(** What the fuel of the acceptor loops has to cover. *)
Definition loop_work (q : list task) : nat :=
  length q
  + length (filter (fun t => match t with
                             | Task (close_call _) _ _ => true
                             | _ => false
                             end) q).

Definition is_stop (ev : event) : bool :=
  match ev with stop_called => true | _ => false end.

Definition is_blocked (o : outcome) : bool :=
  match o with Blocked _ => true | _ => false end.

(** Acceptor [a] of [s] listens on [ep] with the reuse-address option. *)
Definition listening_on (ep : endpoint) (a : nat) (s : server) : Prop :=
  exists c,
    nth_error (acceptors_ s) a = Some c
    /\ acc_open c = Some ep /\ acc_reuse_address c = true
    /\ acc_bound c = Some ep /\ acc_listening c = true.

(** No acceptor of [s] has a socket. *)
Definition all_closed (s : server) : Prop :=
  forall a c, nth_error (acceptors_ s) a = Some c -> c = closed_acceptor c.

(** The server after the events [evs], taken in order. *)
Definition after_events (evs : list event) (s : server) : server :=
  fold_left (fun s ev => handle_event ev s) evs s.

(** The event is neither a [stop] nor an accept on [a] completing with an
error. *)
Definition spares (a : nat) (ev : event) : bool :=
  match ev with
  | accept_completes a' e _ => (negb (a' =? a) || negb (failed e))%bool
  | stop_called => false
  end.

(** The parts of the server that arming, starting and closing leave as
    they are. *)
Definition same_control (s' s : server) : Prop :=
  started_ s' = started_ s
  /\ acceptor_service_pool_ s' = acceptor_service_pool_ s
  /\ running (io_service_pool_ s') = running (io_service_pool_ s)
  /\ running (work_service_pool_ s') = running (work_service_pool_ s)
  /\ endpoint_ s' = endpoint_ s
  /\ length (acceptors_ s') = length (acceptors_ s).

End ServerMore.

(* ================================================================== *)
(** * Lemmas on the proxy pair *)

Unset Implicit Arguments.

Section ProxyFacts.

Import Proxy Asio.

Lemma count_app f (q1 q2 : list task) :
  count f (q1 ++ q2) = count f q1 + count f q2.
Proof. unfold count. rewrite filter_app, length_app. reflexivity. Qed.

Lemma count_cons f t (q : list task) :
  count f (t :: q) = b2n (f t) + count f q.
Proof. unfold count. simpl. destruct (f t); reflexivity. Qed.

Lemma count_snoc f t (q : list task) :
  count f (q ++ [t]) = count f q + b2n (f t).
Proof. rewrite count_app, count_cons. unfold count. simpl. lia. Qed.

Lemma report_quiet ok tag e p :
  exists o, report ok tag e p = Some (tt, p, o) /\ forallb quiet o = true.
Proof.
  unfold report.
  destruct (_ || _)%bool; [|destruct (_ || _)%bool];
    eexists; (split; [reflexivity|]); reflexivity.
Qed.

(** ** The data plane: at most one activity in flight *)

Lemma creates_all_app o1 o2 :
  creates_all (o1 ++ o2) = creates_all o1 + creates_all o2.
Proof. induction o1; simpl; [reflexivity|]. rewrite IHo1. lia. Qed.

Lemma creates_quiet ops : forallb quiet ops = true -> creates_all ops = 0.
Proof.
  induction ops as [|o ops IH]; simpl; [reflexivity|].
  intros H. apply andb_prop in H. destruct H as [Ho Hr].
  rewrite (IH Hr). destruct o; simpl in *; try discriminate; reflexivity.
Qed.

Ltac break_state :=
  repeat match goal with
  | s : sys |- _ => destruct s
  | h : handler |- _ => destruct h
  end; simpl in *.

Lemma tokens_close_handler x e h :
  tokens_of x (close_handler e h) <= tokens_of x h.
Proof.
  unfold close_handler, tokens_of. destruct h as [st ra wp rb so q]; simpl.
  destruct st; simpl; try lia.
  rewrite count_snoc. destruct x; simpl; lia.
Qed.

Lemma tokens_upd_le x f s :
  (forall y, tokens_of y (f (get x s)) <= tokens_of y (get x s)) ->
  tokens (upd x f s) <= tokens s.
Proof.
  intros H. destruct x; unfold tokens; simpl.
  - specialize (H Parent). simpl in H. lia.
  - specialize (H Child). simpl in H. lia.
Qed.

Lemma tokens_apply_op x o s :
  tokens (apply_op x s o) <= tokens s + creates o.
Proof.
  destruct o as [target ev|target ev| |src n| |p| |m|tag e]; simpl; try lia.
  - destruct target; destruct s as [[] [] ? ? ? ?]; unfold tokens, tokens_of;
      simpl; rewrite count_snoc; simpl; lia.
  - destruct target; destruct s as [[] [] ? ? ? ?]; unfold tokens, tokens_of;
      simpl; rewrite count_snoc; simpl; lia.
  - destruct x; destruct s as [[? ra ? ? ? ?] [? ra' ? ? ? ?] ? ? ? ?];
      unfold tokens, tokens_of; simpl; destruct ra, ra'; simpl; lia.
  - destruct x; destruct s as [[? ? wp ? ? ?] [? ? wp' ? ? ?] ? ? ? ?];
      unfold tokens, tokens_of; simpl; destruct wp, wp'; simpl; lia.
  - pose proof (tokens_upd_le x (close_handler success) s) as H.
    assert (tokens (upd x (close_handler success) s) <= tokens s); [|lia].
    apply H. intros y. apply tokens_close_handler.
Qed.

Lemma tokens_fold x ops : forall s,
  tokens (fold_left (apply_op x) ops s) <= tokens s + creates_all ops.
Proof.
  induction ops as [|o ops IH]; intros s; simpl; [lia|].
  specialize (IH (apply_op x s o)).
  pose proof (tokens_apply_op x o s). lia.
Qed.

Ltac use_report :=
  match goal with
  | |- context [report ?a ?b ?c ?d] =>
      let o := fresh "o" in
      let E := fresh "E" in
      let Q := fresh "Q" in
      destruct (report_quiet a b c d) as [o [E Q]]; rewrite E
  end.

(** [server_work::on_close], as one equation: the close-event goes to the
    child when the pointer is set, the pointer is null afterwards, and the
    rest is console output. *)
Lemma server_on_close_eq e p :
  exists o, forallb quiet o = true /\
    server_work.on_close e p
    = Some (tt, None,
            match p with
            | Some c => [OpPostParent c (mk_event parent_close 0);
                         OpStore None]
            | None => []
            end ++ o).
Proof.
  unfold server_work.on_close, bind, load, emit, store, ret.
  destruct p as [c|]; use_report; exists o; split; auto.
Qed.

Lemma client_on_close_eq e p :
  exists o, forallb quiet o = true /\
    client_work.on_close e p
    = Some (tt, None,
            match p with
            | Some c => [OpPostChild c (mk_event child_close 0);
                         OpStore None]
            | None => []
            end ++ o).
Proof.
  unfold client_work.on_close, bind, load, emit, store, ret.
  destruct p as [c|]; use_report; exists o; split; auto.
Qed.

Ltac unfold_work :=
  unfold server_work.on_open, server_work.on_read, server_work.on_write,
    server_work.on_parent, server_work.on_child,
    client_work.on_open, client_work.on_read, client_work.on_write,
    client_work.on_parent, client_work.on_child,
    bind, deref, emit, load, store, ret.

(** A callback starts at most one activity, and only when it was itself
    one. *)
Lemma callback_creates x t p u p' ops :
  callback x t p = Some (u, p', ops) ->
  creates_all ops <= b2n (is_token x t).
Proof.
  destruct x, t as [|n|n|e|[st v]|[st v]]; simpl.
  4: destruct (server_on_close_eq e p) as [o [Q ->]].
  10: destruct (client_on_close_eq e p) as [o [Q ->]].
  all: unfold_work.
  all: try (intros [= <- <- <-]; rewrite creates_all_app, (creates_quiet _ Q);
            destruct p as [[]|]; simpl; lia).
  all: try (destruct p as [[]|]; simpl; intros [= <- <- <-]; simpl; lia).
  all: destruct st; destruct p as [[]|]; simpl; intros H; inversion H;
       subst; simpl; lia.
Qed.

Lemma tokens_step l s s' : step l s = Some s' -> tokens s' <= tokens s.
Proof.
  unfold step. destruct (crashed s) eqn:Hc; [discriminate|].
  destruct l as [x|x data|x e|x|x e|x].
  - unfold deliver.
    destruct (queue (get x s)) as [|t q] eqn:Hq; [discriminate|].
    assert (Hpop : tokens (upd x (set_queue q) s) + b2n (is_token x t)
                   = tokens s).
    { destruct x; break_state; subst; unfold tokens, tokens_of; simpl;
        rewrite count_cons; lia. }
    assert (Hdrop : tokens (note (Dropped x t) (upd x (set_queue q) s))
                    <= tokens s).
    { change (tokens (upd x (set_queue q) s) <= tokens s). lia. }
    destruct (state (get x s)) eqn:Hst; try (intros [= <-]; exact Hdrop).
    all: destruct (callback x t (ptr x s)) as [[[u p] ops]|] eqn:Hcb;
      [|intros [= <-]; destruct x; break_state; unfold tokens, tokens_of;
        simpl; lia].
    all: intros [= <-].
    all: apply callback_creates in Hcb.
    all: pose proof (tokens_fold x ops (set_ptr x p (upd x (set_queue q) s)))
           as Hf.
    all: assert (Hp : tokens (set_ptr x p (upd x (set_queue q) s))
                      = tokens (upd x (set_queue q) s))
           by (destruct x; reflexivity).
    all: set (s2 := fold_left (apply_op x) ops
                      (set_ptr x p (upd x (set_queue q) s))) in *.
    all: assert (Hfin : tokens (note (Ran x t ops)
                          (if is_on_close t
                           then upd x (set_state closed) s2 else s2))
                        = tokens s2)
           by (destruct (is_on_close t), x; reflexivity).
    all: lia.
  - destruct (_ && _)%bool eqn:Hg; [|discriminate]. intros [= <-].
    repeat (apply andb_prop in Hg; destruct Hg as [Hg ?]).
    destruct x; break_state; subst; unfold tokens, tokens_of; simpl;
      rewrite count_snoc; simpl; lia.
  - destruct (_ && _)%bool eqn:Hg; [|discriminate]. intros [= <-].
    apply tokens_upd_le. intros y.
    etransitivity; [apply tokens_close_handler|].
    unfold tokens_of; simpl. destruct (read_armed (get x s)); simpl; lia.
  - destruct (write_pending (get x s)) as [[src n]|] eqn:Hw; [|discriminate].
    destruct (is_open (get x s)); [|discriminate]. intros [= <-].
    destruct x; break_state; subst; unfold tokens, tokens_of; simpl;
      rewrite count_snoc; simpl; lia.
  - destruct (write_pending (get x s)) as [[src n]|] eqn:Hw; [|discriminate].
    destruct (failed e); [|discriminate]. intros [= <-].
    apply tokens_upd_le. intros y.
    etransitivity; [apply tokens_close_handler|].
    unfold tokens_of; simpl. rewrite Hw; simpl; lia.
  - intros [= <-]. apply tokens_upd_le. intros y. apply tokens_close_handler.
Qed.

Lemma tokens_reachable cap s : reachable cap s -> tokens s <= 1.
Proof.
  induction 1 as [|s l s' _ IH Hs].
  - unfold tokens, tokens_of; simpl. reflexivity.
  - apply tokens_step in Hs. lia.
Qed.


(** ** Paired shutdown *)

Lemma callback_shape x t p u p' ops :
  callback x t p = Some (u, p', ops) -> shape x t p p' ops.
Proof.
  destruct x, t as [|n|n|e|[st v]|[st v]]; simpl.
  4: destruct (server_on_close_eq e p) as [o [Q ->]].
  10: destruct (client_on_close_eq e p) as [o [Q ->]].
  all: unfold_work.
  all: try (intros [= <- <- <-];
            first [ exact (@shape_close Parent _ p e o eq_refl Q)
                  | exact (@shape_close Child _ p e o eq_refl Q) ]).
  all: try (destruct p as [[]|]; simpl; intros [= <- <- <-];
            apply shape_data; reflexivity).
  all: destruct st; destruct p as [[]|]; simpl; intros H; inversion H; subst;
       first [ apply shape_told; reflexivity
             | apply shape_data; reflexivity ].
Qed.

Lemma fold_quiet x o : forall s,
  forallb quiet o = true -> fold_left (apply_op x) o s = s.
Proof.
  induction o as [|a o IH]; intros s H; simpl; [reflexivity|].
  apply andb_prop in H. destruct H as [Ha Ho].
  rewrite <- (IH s Ho) at 2. f_equal.
  destruct a; simpl in *; try discriminate; reflexivity.
Qed.

Lemma quiet_no_post o : forallb quiet o = true -> existsb posts_close o = false.
Proof.
  induction o as [|a o IH]; simpl; [reflexivity|].
  intros H. apply andb_prop in H. destruct H as [Ha Ho].
  rewrite (IH Ho). destruct a; simpl in *; try discriminate; reflexivity.
Qed.

Lemma benign_no_post o : forallb benign o = true -> existsb posts_close o = false.
Proof.
  induction o as [|a o IH]; simpl; [reflexivity|].
  intros H. apply andb_prop in H. destruct H as [Ha Ho].
  rewrite (IH Ho). destruct a; simpl in *; try reflexivity;
    destruct (is_close_event ev); simpl in *; congruence.
Qed.

Lemma close_event_not_close_for y t :
  match t with
  | TParent ev | TChild ev => is_close_event ev = false
  | _ => True
  end -> is_close_for y t = false.
Proof.
  destruct y, t as [| | | |[[] v]|[[] v]]; simpl; unfold is_close_event;
    simpl; congruence.
Qed.

Lemma view_apply_benign x o s y :
  benign o = true -> view y (apply_op x s o) = view y s.
Proof.
  destruct o as [target ev|target ev| |src n| |p| |m|tag e]; simpl;
    try discriminate; try reflexivity; intros Hb.
  - apply negb_true_iff in Hb.
    pose proof (close_event_not_close_for y (TParent ev) Hb) as Hc.
    destruct target, y; destruct s as [[] [] ? ? ? ?]; unfold view; simpl;
      rewrite ?count_snoc, ?Hc; simpl; rewrite ?Nat.add_0_r; reflexivity.
  - apply negb_true_iff in Hb.
    pose proof (close_event_not_close_for y (TChild ev) Hb) as Hc.
    destruct target, y; destruct s as [[] [] ? ? ? ?]; unfold view; simpl;
      rewrite ?count_snoc, ?Hc; simpl; rewrite ?Nat.add_0_r; reflexivity.
  - destruct x, y; reflexivity.
  - destruct x, y; reflexivity.
Qed.

Lemma view_fold_benign x ops y : forall s,
  forallb benign ops = true ->
  view y (fold_left (apply_op x) ops s) = view y s.
Proof.
  induction ops as [|o ops IH]; intros s H; simpl; [reflexivity|].
  apply andb_prop in H. destruct H as [Ho Hr].
  rewrite (IH _ Hr). apply view_apply_benign. exact Ho.
Qed.


Lemma other_other x : other (other x) = x.
Proof. destruct x; reflexivity. Qed.

Lemma side_eqb_refl x : side_eqb x x = true.
Proof. destruct x; reflexivity. Qed.

Lemma side_eqb_other x : side_eqb (other x) x = false.
Proof. destruct x; reflexivity. Qed.

Lemma is_close_for_not_on_close x t :
  is_close_for x t = true -> is_on_close t = false.
Proof. destruct x, t; simpl; congruence. Qed.

(** *** Views after each move *)

Lemma view_upd_other x f s : view (other x) (upd x f s) = view (other x) s.
Proof. destruct x; reflexivity. Qed.

Lemma view_upd_enqueue x t s :
  view x (upd x (enqueue t) s) = sv_enqueue x t (view x s).
Proof.
  destruct x; unfold view, sv_enqueue; simpl; rewrite !count_snoc;
    reflexivity.
Qed.

Lemma view_upd_close x e s :
  view x (upd x (close_handler e) s) = sv_close (view x s).
Proof.
  destruct x; destruct s as [[st1 ? ? ? ? ?] [st2 ? ? ? ? ?] ? ? ? ?];
    unfold view, sv_close, close_handler, on_close_runs; simpl;
    [destruct st1|destruct st2]; simpl;
    rewrite ?count_snoc; simpl; rewrite ?Nat.add_0_r; reflexivity.
Qed.

Lemma view_upd_set_state x st s :
  view x (upd x (set_state st) s) = sv_set_state st (view x s).
Proof. destruct x; reflexivity. Qed.

Lemma view_pop x t q s :
  queue (get x s) = t :: q ->
  view x s = sv_push_front x t (view x (upd x (set_queue q) s)).
Proof.
  intros Hq. destruct x; unfold view, sv_push_front; simpl in *;
    rewrite Hq, !count_cons; reflexivity.
Qed.

Lemma view_set_ptr x p s : view x (set_ptr x p s) = sv_set_ptr p (view x s).
Proof. destruct x; reflexivity. Qed.

Lemma view_set_ptr_other x p s :
  view (other x) (set_ptr x p s) = view (other x) s.
Proof. destruct x; reflexivity. Qed.

Lemma view_note y o s : view y (note o s) = sv_note y o (view y s).
Proof.
  destruct y; unfold view, sv_note, on_close_runs; simpl;
    destruct (ran_on_close _ o); reflexivity.
Qed.

Lemma view_same_fields x f s :
  (forall h, state (f h) = state h /\ queue (f h) = queue h) ->
  forall y, view y (upd x f s) = view y s.
Proof.
  intros H y. destruct x, y; unfold view; simpl; try reflexivity;
    [destruct (H (hp s)) as [-> ->]|destruct (H (hc s)) as [-> ->]];
    reflexivity.
Qed.

Lemma sv_note_neutral y o v :
  ran_on_close y o = false -> receives_close y o = false ->
  sends_close y o = false -> sv_note y o v = v.
Proof.
  intros H1 H2 H3. unfold sv_note. rewrite H1, H2, H3. destruct v; reflexivity.
Qed.

Lemma inv_at x s :
  inv s <->
  side_inv x (view x s) (view (other x) s)
  /\ side_inv (other x) (view (other x) s) (view x s).
Proof. destruct x; unfold inv; simpl; tauto. Qed.

Lemma inv_view_eq s s' :
  (forall y, view y s' = view y s) -> inv s -> inv s'.
Proof. intros Hv. unfold inv. rewrite !Hv. auto. Qed.

Lemma inv_fault x t s : inv s -> inv (fault x t s).
Proof.
  apply inv_view_eq. intros y. destruct y; reflexivity.
Qed.

(** *** The invariant under each move, on views *)

Ltac fwd1 :=
  repeat match goal with
  | H : _ /\ _ |- _ => destruct H
  | H : ?A -> _ |- _ =>
      let HA := fresh in
      assert (HA : A) by (solve [ assumption | reflexivity | lia ]);
      specialize (H HA); clear HA
  end.

Ltac leaf := solve [ assumption | discriminate | lia | congruence ].

Ltac close_goal := first [ leaf | left; leaf | right; leaf ].

Ltac try_split tac :=
  match goal with
  | H : _ \/ _ |- _ => solve [ destruct H; fwd1; tac ]
  end.

Ltac finish :=
  simpl in *; intros; subst; fwd1;
  first [ close_goal
        | try_split close_goal
        | try_split ltac:(try_split close_goal) ].

Ltac open_invs H1 H2 :=
  destruct H1 as [L1 W1 O1 N1 E1 T1 R1 S1];
  destruct H2 as [L2 W2 O2 N2 E2 T2 R2 S2]; simpl in *.

Lemma pres_close x me peer :
  side_inv x me peer -> side_inv (other x) peer me ->
  side_inv x (sv_close me) peer /\ side_inv (other x) peer (sv_close me).
Proof.
  intros H1 H2. unfold sv_close.
  destruct me as [st k ev p r v n]; simpl.
  destruct st; auto.
  destruct peer as [st' k' ev' p' r' v' n'].
  open_invs H1 H2. destruct st'; split; constructor; finish.
Qed.

Lemma pres_drop x st k ev p r v n k1 e1 peer :
  side_inv x (mk_sview st k ev p r v n) peer ->
  side_inv (other x) peer (mk_sview st k ev p r v n) ->
  st = closed \/ st = idle -> e1 <= ev ->
  side_inv x (mk_sview st k1 e1 p r v n) peer
  /\ side_inv (other x) peer (mk_sview st k1 e1 p r v n).
Proof.
  intros H1 H2 Hst He.
  destruct peer as [st' k' ev' p' r' v' n'].
  open_invs H1 H2.
  destruct Hst; subst; [|contradiction].
  destruct st'; split; constructor; finish.
Qed.


Lemma pres_told x st k e1 p r v n peer :
  side_inv x (mk_sview st k (S e1) p r v n) peer ->
  side_inv (other x) peer (mk_sview st k (S e1) p r v n) ->
  st = open \/ st = closing ->
  side_inv x (sv_close (mk_sview st k e1 None r true n)) peer
  /\ side_inv (other x) peer (sv_close (mk_sview st k e1 None r true n)).
Proof.
  intros H1 H2 Hst.
  destruct peer as [st' k' ev' p' r' v' n'].
  open_invs H1 H2. unfold sv_close.
  destruct Hst; subst; simpl; destruct st'; split; constructor; finish.
Qed.

Lemma pres_onclose x st k1 ev p r v n peer :
  side_inv x (mk_sview st (S k1) ev p r v n) peer ->
  side_inv (other x) peer (mk_sview st (S k1) ev p r v n) ->
  st = open \/ st = closing ->
  let me' :=
    mk_sview closed k1 ev None (S r) v
      ((match p with Some _ => negb v | None => true end) && n) in
  let peer' :=
    match p with
    | Some _ =>
        mk_sview (v_state peer) (v_closes peer) (S (v_events peer))
          (v_ptr peer) (v_runs peer) (v_recv peer) (v_nsb peer)
    | None => peer
    end in
  side_inv x me' peer' /\ side_inv (other x) peer' me'.
Proof.
  intros H1 H2 Hst.
  destruct peer as [st' k' ev' p' r' v' n'].
  open_invs H1 H2.
  destruct Hst; subst; simpl; destruct st', p as [c|], v; simpl in *;
    split; constructor; finish.
Qed.



(** *** The invariant under each step of the pair *)

Lemma view_upd_other' x f s : view x (upd (other x) f s) = view x s.
Proof. destruct x; reflexivity. Qed.

Lemma inv_drop x t q s :
  inv s -> queue (get x s) = t :: q ->
  state (get x s) = closed \/ state (get x s) = idle ->
  inv (note (Dropped x t) (upd x (set_queue q) s)).
Proof.
  intros H Hq Hst. apply (inv_at x) in H. apply (inv_at x).
  rewrite !view_note, !sv_note_neutral by reflexivity.
  rewrite view_upd_other.
  rewrite (view_pop x t q s Hq) in H.
  assert (Hs : v_state (view x (upd x (set_queue q) s)) = state (get x s))
    by (destruct x; reflexivity).
  destruct (view x (upd x (set_queue q) s)) as [st k1 e1 p r v n].
  simpl in Hs. subst st. unfold sv_push_front in H. simpl in H.
  destruct H as [H1 H2].
  apply (pres_drop x _ _ _ _ _ _ _ k1 e1 _ H1 H2); [exact Hst|lia].
Qed.

Lemma inv_data x t q ops s :
  inv s -> queue (get x s) = t :: q ->
  is_on_close t = false -> is_close_for x t = false ->
  forallb benign ops = true ->
  inv (note (Ran x t ops)
         (fold_left (apply_op x) ops
            (set_ptr x (ptr x s) (upd x (set_queue q) s)))).
Proof.
  intros H Hq Hc Hf Hb. apply inv_view_eq with (s := s); [|exact H].
  intros y. rewrite view_note, sv_note_neutral.
  - rewrite view_fold_benign by exact Hb.
    assert (Hp : set_ptr x (ptr x s) (upd x (set_queue q) s)
                 = upd x (set_queue q) s)
      by (destruct x, s; reflexivity).
    rewrite Hp.
    destruct x, y; try reflexivity.
    + rewrite (view_pop Parent t q s Hq). unfold sv_push_front.
      rewrite Hc, Hf. simpl.
      destruct (view Parent (upd Parent (set_queue q) s)); reflexivity.
    + rewrite (view_pop Child t q s Hq). unfold sv_push_front.
      rewrite Hc, Hf. simpl.
      destruct (view Child (upd Child (set_queue q) s)); reflexivity.
  - destruct t; simpl in *; try discriminate; reflexivity.
  - simpl. destruct y, x; simpl; try reflexivity; exact Hf.
  - simpl. rewrite (benign_no_post _ Hb). apply andb_false_r.
Qed.

Lemma inv_told x t q s :
  inv s -> queue (get x s) = t :: q ->
  state (get x s) = open \/ state (get x s) = closing ->
  is_close_for x t = true ->
  inv (note (Ran x t [OpStore None; OpClose])
         (upd x (close_handler success)
            (set_ptr x None (upd x (set_queue q) s)))).
Proof.
  intros H Hq Hst Hf. apply (inv_at x) in H. apply (inv_at x).
  pose proof (is_close_for_not_on_close _ _ Hf) as Hc.
  rewrite !view_note.
  rewrite (sv_note_neutral (other x)).
  2: destruct t; simpl in *; try discriminate; reflexivity.
  2: simpl; rewrite side_eqb_other; reflexivity.
  2: simpl; rewrite side_eqb_other; reflexivity.
  rewrite view_upd_other, view_set_ptr_other, view_upd_other.
  rewrite view_upd_close, view_set_ptr.
  rewrite (view_pop x t q s Hq) in H.
  assert (Hs : v_state (view x (upd x (set_queue q) s)) = state (get x s))
    by (destruct x; reflexivity).
  destruct (view x (upd x (set_queue q) s)) as [st k1 e1 p r v n].
  simpl in Hs. subst st. unfold sv_push_front in H. rewrite Hc, Hf in H.
  simpl in H. destruct H as [H1 H2].
  pose proof (pres_told _ _ _ _ _ _ _ _ _ H1 H2 Hst) as [G1 G2].
  assert (Hr : ran_on_close x (Ran x t [OpStore None; OpClose]) = false)
    by (destruct t; simpl in *; try discriminate; reflexivity).
  assert (Hn : forall w,
    sv_note x (Ran x t [OpStore None; OpClose]) w
    = mk_sview (v_state w) (v_closes w) (v_events w) (v_ptr w) (v_runs w)
        true (v_nsb w)).
  { intros w. unfold sv_note. rewrite Hr. simpl.
    rewrite side_eqb_refl, Hf. reflexivity. }
  rewrite Hn. unfold sv_set_ptr, sv_close in *. simpl in *.
  destruct (state (get x s)); simpl in *; split; assumption.
Qed.


Lemma view_close_post_peer x s :
  view (other x) (apply_op x s (close_post x (other x)))
  = mk_sview (v_state (view (other x) s)) (v_closes (view (other x) s))
      (S (v_events (view (other x) s))) (v_ptr (view (other x) s))
      (v_runs (view (other x) s)) (v_recv (view (other x) s))
      (v_nsb (view (other x) s)).
Proof.
  destruct x; unfold view; simpl; rewrite !count_snoc; simpl;
    f_equal; lia.
Qed.

Lemma view_close_post_self x s :
  view x (apply_op x s (close_post x (other x))) = view x s.
Proof. destruct x; reflexivity. Qed.

Lemma inv_onclose x e q o s :
  inv s -> queue (get x s) = TClose e :: q ->
  state (get x s) = open \/ state (get x s) = closing ->
  forallb quiet o = true ->
  let ops := match ptr x s with
             | Some c => [close_post x c; OpStore None]
             | None => []
             end ++ o in
  inv (note (Ran x (TClose e) ops)
         (upd x (set_state closed)
            (fold_left (apply_op x) ops
               (set_ptr x None (upd x (set_queue q) s))))).
Proof.
  intros H Hq Hst Hquiet ops.
  assert (Hw : ptr x s = None \/ ptr x s = Some (other x)).
  { apply (inv_at x) in H. destruct H as [[_ W _ _ _ _ _ _] _].
    destruct x; exact W. }
  apply (inv_at x) in H. apply (inv_at x).
  rewrite (view_pop x _ q s Hq) in H.
  assert (Hs : v_state (view x (upd x (set_queue q) s)) = state (get x s))
    by (destruct x; reflexivity).
  assert (Hp : v_ptr (view x (upd x (set_queue q) s)) = ptr x s)
    by (destruct x; reflexivity).
  destruct H as [H1 H2].
  unfold ops. rewrite fold_left_app, fold_quiet by exact Hquiet.
  rewrite !view_note, view_upd_set_state, view_upd_other.
  assert (Hsend : existsb posts_close ops
                  = match ptr x s with Some _ => true | None => false end).
  { unfold ops. rewrite existsb_app, (quiet_no_post _ Hquiet).
    destruct (ptr x s), x; reflexivity. }
  fold ops.
  assert (Hn1 : forall w,
    sv_note x (Ran x (TClose e) ops) w
    = mk_sview (v_state w) (v_closes w) (v_events w) (v_ptr w)
        (S (v_runs w)) (v_recv w)
        ((match ptr x s with Some _ => negb (v_recv w) | None => true end)
         && v_nsb w)).
  { intros w. unfold sv_note. simpl. rewrite side_eqb_refl, Hsend.
    simpl. destruct x, (ptr _ s); reflexivity. }
  assert (Hn2 : forall w, sv_note (other x) (Ran x (TClose e) ops) w = w).
  { intros w. apply sv_note_neutral; simpl; rewrite side_eqb_other;
      reflexivity. }
  rewrite Hn2.
  pose proof (pres_onclose x (state (get x s))
                (v_closes (view x (upd x (set_queue q) s)))
                (v_events (view x (upd x (set_queue q) s)))
                (ptr x s)
                (v_runs (view x (upd x (set_queue q) s)))
                (v_recv (view x (upd x (set_queue q) s)))
                (v_nsb (view x (upd x (set_queue q) s)))
                (view (other x) s)) as P.
  destruct (view x (upd x (set_queue q) s)) as [st k1 e1 p r v n] eqn:V1.
  simpl in Hs, Hp. subst st p. unfold sv_push_front in H1, H2.
  assert (Hcf : is_close_for x (TClose e) = false) by (destruct x; reflexivity).
  rewrite Hcf in H1, H2.
  simpl in H1, H2, P.
  specialize (P H1 H2 Hst). destruct P as [P1 P2].
  clear Hsend. clearbody ops.
  destruct Hw as [Hw|Hw]; rewrite Hw in *; cbn [fold_left].
  - rewrite view_set_ptr, view_set_ptr_other, view_upd_other, V1, Hn1.
    unfold sv_set_state, sv_set_ptr. simpl. split; assumption.
  - assert (Hst2 : forall s0, apply_op x s0 (OpStore None) = s0)
      by reflexivity.
    rewrite Hst2, view_close_post_self, view_close_post_peer.
    rewrite view_set_ptr, view_set_ptr_other, view_upd_other, V1, Hn1.
    unfold sv_set_state, sv_set_ptr. simpl. split; assumption.
Qed.


Lemma inv_close_handler x e s : inv s -> inv (upd x (close_handler e) s).
Proof.
  intros H. apply (inv_at x) in H. apply (inv_at x).
  rewrite view_upd_close, view_upd_other.
  destruct H as [H1 H2]. apply pres_close; assumption.
Qed.

Lemma view_read_done x data s y :
  view y (upd x (read_done data) s) = view y s.
Proof.
  destruct x, y; unfold view; simpl; rewrite ?count_snoc; simpl;
    rewrite ?Nat.add_0_r; reflexivity.
Qed.

Lemma view_write_done x buf n s y :
  view y (upd x (write_done buf n) s) = view y s.
Proof.
  destruct x, y; unfold view; simpl; rewrite ?count_snoc; simpl;
    rewrite ?Nat.add_0_r; reflexivity.
Qed.

Lemma inv_step l s s' : inv s -> step l s = Some s' -> inv s'.
Proof.
  intros H. unfold step. destruct (crashed s); [discriminate|].
  destruct l as [x|x data|x e|x|x e|x].
  - unfold deliver.
    destruct (queue (get x s)) as [|t q] eqn:Hq; [discriminate|].
    destruct (state (get x s)) eqn:Hst; cbv beta iota.
    1: intros [= <-]; apply inv_drop; auto.
    3: intros [= <-]; apply inv_drop; auto.
    all: destruct (callback x t (ptr x s)) as [[[u p] ops]|] eqn:Hcb;
      [|intros [= <-]; apply inv_fault; exact H].
    all: intros [= <-]; apply callback_shape in Hcb.
    all: inversion Hcb as [e o Ht Hquiet Hp Hops|Hf Hp Hops
                           |ops' Hc Hf Hb Hp Hops]; subst.
    all: try (apply inv_onclose; auto).
    all: try (rewrite (is_close_for_not_on_close _ _ Hf);
              apply inv_told; auto).
    all: rewrite Hc; apply inv_data; auto.
  - destruct (_ && _)%bool; [|discriminate]. intros [= <-].
    apply inv_view_eq with (s := s); [|exact H].
    intros y. apply view_read_done.
  - destruct (_ && _)%bool; [|discriminate]. intros [= <-].
    assert (Hu : upd x (fun h => close_handler e (set_read false h)) s
                 = upd x (close_handler e) (upd x (set_read false) s))
      by (destruct x; reflexivity).
    rewrite Hu. apply inv_close_handler.
    apply inv_view_eq with (s := s); [|exact H].
    apply view_same_fields. intros h; split; reflexivity.
  - destruct (write_pending (get x s)) as [[src n]|]; [|discriminate].
    destruct (is_open (get x s)); [|discriminate]. intros [= <-].
    apply inv_view_eq with (s := s); [|exact H].
    intros y. apply view_write_done.
  - destruct (write_pending (get x s)) as [[src n]|]; [|discriminate].
    destruct (failed e); [|discriminate]. intros [= <-].
    assert (Hu : upd x (fun h => close_handler e (set_write None h)) s
                 = upd x (close_handler e) (upd x (set_write None) s))
      by (destruct x; reflexivity).
    rewrite Hu. apply inv_close_handler.
    apply inv_view_eq with (s := s); [|exact H].
    apply view_same_fields. intros h; split; reflexivity.
  - intros [= <-]. apply inv_close_handler. exact H.
Qed.

Lemma inv_init cap : inv (init cap).
Proof.
  split; constructor; unfold view, on_close_runs, count; simpl; intros;
    try discriminate; auto; lia.
Qed.

Lemma inv_reachable cap s : reachable cap s -> inv s.
Proof.
  induction 1 as [|s l s' _ IH Hs]; [apply inv_init|].
  exact (inv_step l s s' IH Hs).
Qed.

(** ** The claims on the pair *)

Lemma run_reachable cap ls : forall s0 s,
  reachable cap s0 -> run ls s0 = Some s -> reachable cap s.
Proof.
  induction ls as [|l ls IH]; intros s0 s H0; simpl.
  - intros [= <-]. exact H0.
  - destruct (step l s0) as [s1|] eqn:Hs; [|discriminate].
    apply IH. exact (@reach_step cap s0 l s1 H0 Hs).
Qed.

Lemma after_reachable cap ls :
  run ls (init cap) <> None -> reachable cap (after ls cap).
Proof.
  unfold after. destruct (run ls (init cap)) as [s|] eqn:Hr; [|congruence].
  intros _. exact (run_reachable cap ls _ _ (reach_init cap) Hr).
Qed.

(** X17. Paired shutdown, as far as the code keeps it: on every state the
    pair can reach, [on_close] has run at most once on each side; once both
    work loops are empty and no null pointer was dereferenced, if
    [on_close] has run on one side it has run exactly once on both; and no
    side ever posted a close-event after it had been handed its peer's.
    The mechanism: [on_close] posts no close-event when the peer pointer is
    null, and the callback that is handed the peer's close-event stores
    null and then calls [close()]. *)
Theorem paired_shutdown cap s :
  reachable cap s ->
  (on_close_runs Parent s <= 1 /\ on_close_runs Child s <= 1)
  /\ (quiescent s ->
      1 <= on_close_runs Parent s \/ 1 <= on_close_runs Child s ->
      on_close_runs Parent s = 1 /\ on_close_runs Child s = 1)
  /\ (no_close_sent_back Parent (history s) = true
      /\ no_close_sent_back Child (history s) = true)
  /\ (forall e,
        existsb posts_close (trace_of (server_work.on_close e) None) = false
        /\ existsb posts_close (trace_of (client_work.on_close e) None)
           = false)
  /\ (forall v p,
        trace_of (server_work.on_child (mk_event child_close v)) p
        = [OpStore None; OpClose]
        /\ trace_of (client_work.on_parent (mk_event parent_close v)) p
           = [OpStore None; OpClose]).
Proof.
  intros Hr. apply inv_reachable in Hr.
  idtac.
  destruct Hr as [[L1 W1 O1 N1 E1 T1 R1 S1] [L2 W2 O2 N2 E2 T2 R2 S2]].
  unfold view in *; simpl in *.
  assert (Hle : on_close_runs Parent s <= 1 /\ on_close_runs Child s <= 1).
  { split.
    - destruct (state (hp s)); [contradiction|lia|lia|lia].
    - destruct (state (hc s)); [contradiction|lia|lia|lia]. }
  split; [exact Hle|]. split; [|split; [auto|split]].
  - intros [_ [Qp Qc]] Hone. rewrite Qp, Qc in *.
    unfold count in *; simpl in *.
    assert (HP : (state (hp s) = open /\ on_close_runs Parent s = 0)
                 \/ (state (hp s) = closed /\ on_close_runs Parent s = 1)).
    { destruct (state (hp s)); [contradiction|left|destruct L1; discriminate
                               |right]; split; auto; lia. }
    assert (HC : (state (hc s) = open /\ on_close_runs Child s = 0)
                 \/ (state (hc s) = closed /\ on_close_runs Child s = 1)).
    { destruct (state (hc s)); [contradiction|left|destruct L2; discriminate
                               |right]; split; auto; lia. }
    clear L1 L2 W1 W2 O1 O2 N1 N2 E1 E2 R1 R2 S1 S2.
    destruct HP as [[Sp Rp]|[Sp Rp]], HC as [[Sc Rc]|[Sc Rc]].
    + lia.
    + destruct (T2 Sc) as [X|X]; [congruence|lia].
    + destruct (T1 Sp) as [X|X]; [congruence|lia].
    + lia.
  - intros e.
    destruct (server_on_close_eq e None) as [o1 [Q1 E1']].
    destruct (client_on_close_eq e None) as [o2 [Q2 E2']].
    unfold trace_of. rewrite E1', E2'. simpl.
    rewrite (quiet_no_post _ Q1), (quiet_no_post _ Q2). auto.
  - intros v p. split; reflexivity.
Qed.

Lemma paired_shutdown_witness :
  reachable 4 (after shutdown_run 4)
  /\ quiescent (after shutdown_run 4)
  /\ on_close_runs Parent (after shutdown_run 4) = 1
  /\ on_close_runs Child (after shutdown_run 4) = 1.
Proof.
  assert (R : reachable 4 (after shutdown_run 4))
    by (apply after_reachable; discriminate).
  assert (Q : quiescent (after shutdown_run 4))
    by (repeat split; reflexivity).
  split; [exact R|]. split; [exact Q|].
  apply (paired_shutdown 4 (after shutdown_run 4) R).
  - exact Q.
  - left. apply Nat.le_refl.
Defined.

(** C2. The paired shutdown does not survive the unguarded dereference in
    [on_read] (the defect of C10).  After [fault_run] the child's
    [on_close] has run, once, and has posted [child_close]; the parent was
    handed it and called [close()], so its own [on_close] waits on its work
    loop, behind [on_read]; [on_read] ran on the null [child_handler_] and
    the process has stopped: whatever is tried from there, the parent's
    [on_close] has not run. *)
Theorem paired_shutdown_cut_short :
  reachable 4 (after fault_run 4)
  /\ on_close_runs Child (after fault_run 4) = 1
  /\ on_close_runs Parent (after fault_run 4) = 0
  /\ queue (hp (after fault_run 4)) = [TRead 1; TClose success]
  /\ crashed (after fault_run 4) = true
  /\ (forall ls s',
        run ls (after fault_run 4) = Some s' -> on_close_runs Parent s' = 0).
Proof.
  assert (C : crashed (after fault_run 4) = true)
    by (vm_compute; reflexivity).
  assert (P : on_close_runs Parent (after fault_run 4) = 0)
    by (vm_compute; reflexivity).
  split; [apply after_reachable; vm_compute; discriminate|].
  split; [vm_compute; reflexivity|].
  split; [exact P|].
  split; [vm_compute; reflexivity|].
  split; [exact C|].
  revert C P. generalize (after fault_run 4) as s0.
  intros s0 C P [|l ls] s'.
  - intros [= <-]. exact P.
  - change (run (l :: ls) s0)
      with (match step l s0 with Some s1 => run ls s1 | None => None end).
    unfold step. rewrite C. discriminate.
Qed.


(** C3, as stated, fails: in [server_work::on_close] run with the child
    pointer set and error code 0, the close-event is posted first and the
    pointer is set to null after it, not before. *)
Lemma null_before_signal_counterexample :
  trace_of (server_work.on_close success) (Some Child)
  = [OpPostParent Child (mk_event parent_close 0); OpStore None;
     OpPrint (String.append "source ok ..............." nl)]
  /\ null_store_before_signal
       (trace_of (server_work.on_close success) (Some Child)) = false.
Proof. split; reflexivity. Qed.

(** C3, amended: in both [on_close] functions, when the peer pointer is
    set, the close-event is posted to the peer first and the peer pointer is
    set to null right after it; nothing but console output follows, and the
    pointer is null when [on_close] returns. *)
Theorem on_close_signals_then_nulls e c :
  (exists o,
      server_work.on_close e (Some c)
      = Some (tt, None,
              OpPostParent c (mk_event parent_close 0) :: OpStore None :: o)
      /\ forallb quiet o = true)
  /\ (exists o,
      client_work.on_close e (Some c)
      = Some (tt, None,
              OpPostChild c (mk_event child_close 0) :: OpStore None :: o)
      /\ forallb quiet o = true)
  /\ signal_before_null_store (trace_of (server_work.on_close e) (Some c))
     = true
  /\ signal_before_null_store (trace_of (client_work.on_close e) (Some c))
     = true
  /\ null_store_before_signal (trace_of (server_work.on_close e) (Some c))
     = false
  /\ null_store_before_signal (trace_of (client_work.on_close e) (Some c))
     = false.
Proof.
  destruct (server_on_close_eq e (Some c)) as [o1 [Q1 E1]].
  destruct (client_on_close_eq e (Some c)) as [o2 [Q2 E2]].
  unfold trace_of. rewrite E1, E2. simpl.
  repeat split; try reflexivity.
  - exists o1. split; [reflexivity|exact Q1].
  - exists o2. split; [reflexivity|exact Q2].
Qed.

(** ** The data plane *)

Lemma reachable_open_wired cap s x :
  reachable cap s -> state (get x s) = open -> ptr x s = Some (other x).
Proof.
  intros Hr Hst. apply inv_reachable in Hr. apply (inv_at x) in Hr.
  destruct Hr as [[_ W O _ _ _ _ _] _]. unfold view in *; simpl in *.
  destruct W as [W|W]; [|exact W]. destruct (O W Hst).
Qed.

(** C8. A [parent_write] event with byte count [n], handed to the open
    child of a pair, makes the child's work object issue exactly one
    operation, the write of [n] bytes from the parent's read buffer, and
    that write puts the first [n] bytes of the parent's read buffer on the
    child's socket; symmetrically for [child_write] handed to the open
    parent. *)
Theorem write_first_n_of_peer_buffer cap :
  (forall s n q,
      reachable cap s -> crashed s = false ->
      queue (hc s) = TParent (mk_event parent_write n) :: q ->
      state (hc s) = open ->
      exists s1 s2,
        step (Deliver Child) s = Some s1
        /\ history s1
           = Ran Child (TParent (mk_event parent_write n))
               [OpAsyncWrite Parent n] :: history s
        /\ write_pending (hc s1) = Some (Parent, n)
        /\ step (WriteDone Child) s1 = Some s2
        /\ socket_out (hc s2)
           = socket_out (hc s) ++ firstn (N.to_nat n) (read_buffer (hp s)))
  /\ (forall s n q,
      reachable cap s -> crashed s = false ->
      queue (hp s) = TChild (mk_event child_write n) :: q ->
      state (hp s) = open ->
      exists s1 s2,
        step (Deliver Parent) s = Some s1
        /\ history s1
           = Ran Parent (TChild (mk_event child_write n))
               [OpAsyncWrite Child n] :: history s
        /\ write_pending (hp s1) = Some (Child, n)
        /\ step (WriteDone Parent) s1 = Some s2
        /\ socket_out (hp s2)
           = socket_out (hp s) ++ firstn (N.to_nat n) (read_buffer (hc s))).
Proof.
  split; intros s n q Hr Hc Hq Hst.
  - pose proof (reachable_open_wired cap s Child Hr Hst) as Hp.
    destruct s as [[st1 ra1 wp1 rb1 so1 q1] [st2 ra2 wp2 rb2 so2 q2]
                   cp pp cr hi].
    simpl in *. subst.
    eexists. eexists. unfold step, deliver. simpl.
    split; [reflexivity|]. simpl.
    repeat split; reflexivity.
  - pose proof (reachable_open_wired cap s Parent Hr Hst) as Hp.
    destruct s as [[st1 ra1 wp1 rb1 so1 q1] [st2 ra2 wp2 rb2 so2 q2]
                   cp pp cr hi].
    simpl in *. subst.
    eexists. eexists. unfold step, deliver. simpl.
    split; [reflexivity|]. simpl.
    repeat split; reflexivity.
Qed.

Lemma write_first_n_of_peer_buffer_witness :
  (exists s1 s2,
      step (Deliver Child) (after handover_run 4) = Some s1
      /\ step (WriteDone Child) s1 = Some s2
      /\ socket_out (hc s2) = [Byte.x68; Byte.x69])
  /\ (exists s1 s2,
      step (Deliver Parent) (after handback_run 4) = Some s1
      /\ step (WriteDone Parent) s1 = Some s2
      /\ socket_out (hp s2) = [Byte.x21]).
Proof.
  split.
  - destruct (proj1 (write_first_n_of_peer_buffer 4)
                (after handover_run 4) 2%N [])
      as [s1 [s2 [A [_ [_ [B C]]]]]].
    + apply after_reachable; discriminate.
    + reflexivity.
    + reflexivity.
    + reflexivity.
    + exists s1, s2. repeat split; [exact A|exact B|exact C].
  - destruct (proj2 (write_first_n_of_peer_buffer 4)
                (after handback_run 4) 1%N [])
      as [s1 [s2 [A [_ [_ [B C]]]]]].
    + apply after_reachable; discriminate.
    + reflexivity.
    + reflexivity.
    + reflexivity.
    + exists s1, s2. repeat split; [exact A|exact B|exact C].
Defined.

Lemma existsb_count (f g : task -> bool) q :
  (forall t, f t = true -> g t = true) ->
  existsb f q = true -> 1 <= count g q.
Proof.
  intros Hfg. induction q as [|t q IH]; simpl; [discriminate|].
  rewrite count_cons. destruct (f t) eqn:Ft.
  - rewrite (Hfg t Ft). simpl. lia.
  - simpl. intros H. specialize (IH H). lia.
Qed.

(** C9. While the parent's read buffer is being consumed by the child (a
    [parent_write] waits for the child, or the child's write from that
    buffer has not completed) no read is armed on the parent; and the
    parent's work object arms a read nowhere but in [on_write] and in
    [on_child] for [child_open]. *)
Theorem no_read_while_buffer_in_use cap s :
  reachable cap s ->
  (parent_buffer_in_use s = true -> read_armed (hp s) = false)
  /\ (forall t p u p' ops,
        callback Parent t p = Some (u, p', ops) ->
        In OpAsyncReadSome ops ->
        (exists n, t = TWrite n)
        \/ (exists v, t = TChild (mk_event child_open v))).
Proof.
  intros Hr. split.
  - intros Hb. pose proof (tokens_reachable cap s Hr) as Ht.
    unfold tokens, tokens_of, parent_buffer_in_use in *.
    assert (Hc : 1 <= b2n (match write_pending (hc s) with
                           | Some _ => true
                           | None => false
                           end)
                     + count (is_token Child) (queue (hc s))).
    { apply orb_true_iff in Hb. destruct Hb as [Hb|Hb].
      - apply (existsb_count is_parent_write (is_token Child)) in Hb; [lia|].
        intros [| | | |[[] v]|]; simpl; congruence.
      - destruct (write_pending (hc s)) as [[[] n]|]; simpl;
          try discriminate; lia. }
    destruct (read_armed (hp s)); [simpl in Ht; lia|reflexivity].
  - intros t p u p' ops Hcb Hin.
    destruct t as [|n|n|e|[st v]|[st v]]; simpl in Hcb.
    4: destruct (server_on_close_eq e p) as [o [Q E]]; rewrite E in Hcb.
    all: revert Hcb; unfold_work.
    + intros [= <- <- <-]. simpl in Hin. intuition discriminate.
    + destruct p; simpl; intros [= <- <- <-]; simpl in Hin;
        intuition discriminate.
    + intros _. left. exists n. reflexivity.
    + intros [= <- <- <-]. exfalso.
      apply in_app_or in Hin. destruct Hin as [Hin|Hin].
      * destruct p; simpl in Hin; intuition discriminate.
      * assert (Hq : forall l, forallb quiet l = true ->
                               ~ In OpAsyncReadSome l).
        { induction l as [|a l IH]; simpl; [tauto|].
          intros H. apply andb_prop in H. destruct H as [Ha Hl].
          intros [Hx|Hi]; [subst a; discriminate|exact (IH Hl Hi)]. }
        exact (Hq o Q Hin).
    + intros [= <- <- <-]. simpl in Hin. tauto.
    + destruct st; simpl.
      3: intros _; right; exists v; reflexivity.
      all: destruct p; simpl; intros H; inversion H; subst; simpl in Hin;
        intuition discriminate.
Qed.

Lemma no_read_while_buffer_in_use_witness :
  reachable 4 (after handover_run 4)
  /\ parent_buffer_in_use (after handover_run 4) = true
  /\ read_armed (hp (after handover_run 4)) = false.
Proof.
  assert (R : reachable 4 (after handover_run 4))
    by (apply after_reachable; discriminate).
  split; [exact R|]. split; [reflexivity|].
  apply (proj1 (no_read_while_buffer_in_use 4 (after handover_run 4) R)).
  reflexivity.
Defined.

(** C10, evaluated on the code: [server_work::on_read] is undefined when
    [child_handler_] is null, and the pair reaches that call.  The child's
    session timer fires while the parent's read completes; [child_close] is
    handed to the parent first and nulls [child_handler_]; the [on_read]
    that was already waiting then dereferences the null pointer. *)
Lemma on_read_reached_with_null_child :
  (forall n, server_work.on_read n None = None)
  /\ reachable 4 (after fault_run 4)
  /\ child_handler_ (after fault_run 4) = None
  /\ crashed (after fault_run 4) = true
  /\ hd_error (history (after fault_run 4))
     = Some (Faulted Parent (TRead 1)).
Proof.
  split; [reflexivity|].
  split; [apply after_reachable; discriminate|].
  repeat split; reflexivity.
Qed.

End ProxyFacts.

(* ================================================================== *)
(** * Lemmas on the server *)

Section ServerFacts.

Import Server Asio.

Lemma update_length {A} i (f : A -> A) l :
  length (update i f l) = length l.
Proof.
  revert i. induction l as [|x l IH]; intros [|i]; simpl; auto.
Qed.

Lemma nth_error_update_same {A} i (f : A -> A) l :
  nth_error (update i f l) i = option_map f (nth_error l i).
Proof.
  revert i. induction l as [|x l IH]; intros [|i]; simpl; auto.
Qed.

Lemma nth_error_update_other {A} i j (f : A -> A) l :
  i <> j -> nth_error (update i f l) j = nth_error l j.
Proof.
  revert i j. induction l as [|x l IH]; intros [|i] [|j] H; simpl; auto;
    try congruence.
Qed.

(** ** C7: the guards of [run] and [stop] *)

(** C7. [run] on a server that is already started returns at once with the
    server unchanged; [stop] on a server that is not started returns at once
    with the server unchanged. *)
Theorem run_stop_guards :
  (forall fuel force_stop env s,
      started_ s = true -> run fuel force_stop env s = Returned s)
  /\ (forall s, started_ s = false -> stop s = s).
Proof.
  split.
  - intros fuel force_stop env s H. unfold run. rewrite H. reflexivity.
  - intros s H. unfold stop. rewrite H. reflexivity.
Qed.

(** ** C5: one accept cycle *)

(** C5. One accept cycle on acceptor [a]: the handler checked out is bound
    to the I/O pool's next loop in round-robin order and to the work-pool
    loop chosen for the load hint [get_load] of the handler pool as it was
    before the checkout; both cursors advance, the in-use count goes up by
    one, and the one call made on the acceptor is the asynchronous accept on
    that handler, which is then the accept in progress. *)
Theorem accept_one_cycle s a c :
  nth_error (acceptors_ s) a = Some c ->
  pool_ok (service_handler_pool_ s) ->
  let load := get_load (service_handler_pool_ s) in
  let io := get_io_service (io_service_pool_ s) in
  let work := get_io_service_load (work_service_pool_ s) load in
  let s' := accept_one a s in
  exists h,
    fst io = cursor (io_service_pool_ s) mod loops (io_service_pool_ s)
    /\ nth_error (handlers (service_handler_pool_ s')) h
       = Some (mk_handler idle (Some (fst io)) (Some (fst work)) None)
    /\ get_load (service_handler_pool_ s') = S load
    /\ io_service_pool_ s' = snd io
    /\ work_service_pool_ s' = snd work
    /\ option_map acc_pending (nth_error (acceptors_ s') a) = Some (Some h)
    /\ log s' = log s ++ [acceptor_async_accept a h].
Proof.
  intros Ha Hok load io work s'.
  unfold s', accept_one.
  fold load. fold io. fold work.
  destruct io as [l1 p1] eqn:Eio. destruct work as [l2 p2] eqn:Ework.
  unfold get_service_handler.
  destruct (free_list (service_handler_pool_ s)) as [|h rest] eqn:Hf.
  - exists (length (handlers (service_handler_pool_ s))). simpl.
    rewrite nth_error_update_same, Ha. simpl.
    repeat split; try reflexivity.
    + unfold io in Eio. unfold get_io_service in Eio.
      inversion Eio. reflexivity.
    + rewrite nth_error_app2 by lia. rewrite Nat.sub_diag. reflexivity.
  - exists h. simpl.
    rewrite !nth_error_update_same, Ha. simpl.
    repeat split; try reflexivity.
    + unfold io in Eio. unfold get_io_service in Eio.
      inversion Eio. reflexivity.
    + unfold pool_ok in Hok. rewrite Hf in Hok. inversion Hok; subst.
      destruct (nth_error (handlers (service_handler_pool_ s)) h) eqn:Hn.
      * reflexivity.
      * apply nth_error_None in Hn. lia.
Qed.


Lemma accept_one_log a s :
  exists h, log (accept_one a s) = log s ++ [acceptor_async_accept a h]
            /\ (forall c, nth_error (acceptors_ s) a = Some c ->
                 option_map acc_pending (nth_error (acceptors_ (accept_one a s)) a)
                 = Some (Some h)).
Proof.
  unfold accept_one.
  destruct (get_io_service (io_service_pool_ s)) as [l1 p1].
  destruct (get_io_service_load (work_service_pool_ s) _) as [l2 p2].
  destruct (get_service_handler l1 l2 (service_handler_pool_ s)) as [h hp].
  exists h. simpl. split; [reflexivity|].
  intros c Hc. rewrite nth_error_update_same, Hc. reflexivity.
Qed.

(** ** C1: the completion of an accept *)

(** C1, as stated, fails: on the sample server, the accept on acceptor 1
    completes with [connection_reset]; afterwards no accept is in progress
    on that acceptor, so it accepts no further connection. *)
Lemma accept_error_counterexample :
  accept_armed 1 sample_started = true
  /\ failed connection_reset = true
  /\ accept_armed 1
       (complete_accept 1 connection_reset ([], []) sample_started)
     = false.
Proof. repeat split; reflexivity. Qed.

(** C1, amended: when the accept in progress on acceptor [a] completes
    with an error, the one call made is [close(e)] on its handler, whose
    [on_close(e)] is posted to the work pool and returns the handler to its
    pool when it has run, and no accept is in progress on [a] afterwards;
    when it completes without error the handler is started and the next
    accept is armed on [a]. *)
Theorem accept_completion s a c h e session :
  nth_error (acceptors_ s) a = Some c ->
  acc_pending c = Some h ->
  let s' := complete_accept a e session s in
  (failed e = true ->
     log s' = log s ++ [handler_close h e]
     /\ accept_armed a s' = false
     /\ pending (work_service_pool_ s')
        = pending (work_service_pool_ s) ++ [Task (on_close h e) [] []]
     /\ service_handler_pool_ (exec (Task (on_close h e) [] []) s')
        = put h (service_handler_pool_ s'))
  /\ (failed e = false ->
      exists h',
        log s' = log s ++ [handler_start h; acceptor_async_accept a h']
        /\ accept_armed a s' = true).
Proof.
  intros Ha Hp s'. unfold s', complete_accept. rewrite Ha, Hp.
  unfold handle_accept. split; intros Hf; rewrite Hf; simpl.
  - unfold accept_armed. simpl. rewrite nth_error_update_same, Ha. simpl.
    repeat split; reflexivity.
  - match goal with
    | |- context [accept_one a ?x] =>
        destruct (accept_one_log a x) as [h' [Hl Hc]]
    end.
    exists h'. rewrite Hl. simpl. rewrite <- app_assoc. simpl.
    split; [reflexivity|].
    unfold accept_armed.
    simpl in Hc.
    specialize (Hc (mk_acceptor (acc_loop c) (acc_open c)
                      (acc_reuse_address c) (acc_bound c) (acc_listening c)
                      None)).
    rewrite nth_error_update_same, Ha in Hc. specialize (Hc eq_refl).
    match goal with
    | |- context [nth_error ?l a] =>
        destruct (nth_error l a) as [c'|]; simpl in Hc; [|discriminate]
    end.
    injection Hc as Hc. rewrite Hc. reflexivity.
Qed.


(** ** C6: the acceptors *)

Lemma create_acceptors_spec m : forall k s,
  cursor (acceptor_service_pool_ s)
  = k mod loops (acceptor_service_pool_ s) ->
  k + m <= loops (acceptor_service_pool_ s) ->
  let s' := create_acceptors m s in
  acceptors_ s' = acceptors_ s ++ map fresh_acceptor (seq k m)
  /\ loops (acceptor_service_pool_ s') = loops (acceptor_service_pool_ s)
  /\ service_handler_pool_ s' = service_handler_pool_ s
  /\ endpoint_ s' = endpoint_ s
  /\ started_ s' = started_ s
  /\ log s' = log s.
Proof.
  induction m as [|m IH]; intros k s Hc Hle; simpl.
  - rewrite app_nil_r. repeat split; reflexivity.
  - set (s1 := mk_server _ _ _ _ _ _ _ _).
    specialize (IH (S k) s1).
    assert (Hk : k mod loops (acceptor_service_pool_ s) = k)
      by (apply Nat.mod_small; lia).
    simpl in IH. rewrite Hc, Hk in IH.
    destruct (IH eq_refl ltac:(lia)) as [A [B [C [D [E F]]]]].
    rewrite A, B, C, D, E, F. unfold s1. simpl.
    rewrite Hk, <- app_assoc. simpl.
    repeat split; reflexivity.
Qed.

Lemma open_acceptor_ok env a s c :
  nth_error (acceptors_ s) a = Some c ->
  acc_open c = None ->
  bind_error env a = None ->
  exists s1 h,
    open_acceptor env a s = Ok s1
    /\ log s1 = log s ++ opening_calls (endpoint_ s) (a, h)
    /\ endpoint_ s1 = endpoint_ s
    /\ (forall j, j <> a ->
        nth_error (acceptors_ s1) j = nth_error (acceptors_ s) j).
Proof.
  intros Ha Ho Hb. unfold open_acceptor. rewrite Ha, Ho, Hb.
  match goal with
  | |- context [accept_one a ?x] =>
      destruct (accept_one_log a x) as [h [Hl _]];
      exists (accept_one a x), h
  end.
  split; [reflexivity|]. split; [|split].
  - rewrite Hl. simpl. rewrite <- !app_assoc. reflexivity.
  - unfold accept_one.
    destruct (get_io_service _) as [l1 p1].
    destruct (get_io_service_load _ _) as [l2 p2].
    destruct (get_service_handler _ _ _) as [h' hp]. reflexivity.
  - intros j Hj. unfold accept_one.
    destruct (get_io_service _) as [l1 p1].
    destruct (get_io_service_load _ _) as [l2 p2].
    destruct (get_service_handler _ _ _) as [h' hp]. simpl.
    rewrite !nth_error_update_other by congruence. reflexivity.
Qed.

Lemma open_acceptors_ok env m : forall k s,
  (forall i, k <= i < k + m ->
     exists c, nth_error (acceptors_ s) i = Some c /\ acc_open c = None) ->
  (forall i, k <= i < k + m -> bind_error env i = None) ->
  exists s1 hs,
    open_acceptors env (seq k m) s = Ok s1
    /\ length hs = m
    /\ log s1
       = log s
         ++ flat_map (opening_calls (endpoint_ s)) (combine (seq k m) hs).
Proof.
  induction m as [|m IH]; intros k s Hfresh Hbind; simpl.
  - exists s, []. rewrite app_nil_r. repeat split; reflexivity.
  - destruct (Hfresh k ltac:(lia)) as [c [Hc Ho]].
    destruct (open_acceptor_ok env k s c Hc Ho (Hbind k ltac:(lia)))
      as [s1 [h [E1 [L1 [P1 F1]]]]].
    rewrite E1.
    destruct (IH (S k) s1) as [s2 [hs [E2 [Hlen L2]]]].
    + intros i Hi. rewrite F1 by lia. apply Hfresh. lia.
    + intros i Hi. apply Hbind. lia.
    + exists s2, (h :: hs). split; [exact E2|]. split; [simpl; lia|].
      rewrite L2, L1, P1. simpl. rewrite <- !app_assoc. reflexivity.
Qed.

(** C6. The constructor creates exactly [io_pool_size] acceptors, the
    [i]-th on loop [i] of the acceptor pool, which has [io_pool_size] loops;
    and when no [bind] fails, [run] makes on each acceptor in turn the calls
    [open] (for the configured endpoint), [set_option(reuse_address(true))],
    [bind], [listen] and one [async_accept], and only then starts the work
    pool and the I/O pool and enters the acceptor pool's [run]. *)
Theorem acceptors_created_and_opened hp addr port n w0 wmax L :
  let s0 := new_server hp addr port n w0 wmax L in
  let ep := mk_endpoint addr port in
  length (acceptors_ s0) = n
  /\ loops (acceptor_service_pool_ s0) = n
  /\ (forall i, i < n ->
      option_map acc_loop (nth_error (acceptors_ s0) i) = Some i)
  /\ (forall env,
      (forall i, i < n -> bind_error env i = None) ->
      exists s1 hs,
        start_up env s0 = Ok s1
        /\ length hs = n
        /\ log s1
           = flat_map (opening_calls ep) (combine (seq 0 n) hs)
             ++ [pool_start WorkPool; pool_start IoPool;
                 pool_run AcceptorPool]).
Proof.
  intros s0 ep.
  pose proof (create_acceptors_spec n 0
                (mk_server hp (fixed_pool n) (fixed_pool n)
                   (make_pool w0 wmax L) [] ep false [])) as H.
  simpl in H. destruct H as [A [B [C [D [E F]]]]].
  { symmetry. apply Nat.Div0.mod_0_l. }
  { lia. }
  assert (HA : acceptors_ s0 = map fresh_acceptor (seq 0 n))
    by (unfold s0, new_server; simpl; exact A).
  assert (HL : log s0 = []) by (unfold s0, new_server; simpl; exact F).
  assert (HE : endpoint_ s0 = ep) by (unfold s0, new_server; simpl; exact D).
  assert (Hnth : forall i, i < n ->
            nth_error (acceptors_ s0) i = Some (fresh_acceptor i)).
  { intros i Hi. rewrite HA, nth_error_map.
    rewrite nth_error_nth' with (d := 0) by (rewrite length_seq; exact Hi).
    rewrite seq_nth by exact Hi. reflexivity. }
  split; [rewrite HA, length_map, length_seq; reflexivity|].
  split; [unfold s0, new_server; simpl; exact B|].
  split.
  - intros i Hi. rewrite (Hnth i Hi). reflexivity.
  - intros env Hbind. unfold start_up.
    assert (Hlen : length (acceptors_ s0) = n)
      by (rewrite HA, length_map, length_seq; reflexivity).
    rewrite Hlen.
    destruct (open_acceptors_ok env n 0 s0) as [s1 [hs [E1 [Hl L1]]]].
    + intros i Hi. exists (fresh_acceptor i). split; [|reflexivity].
      apply Hnth. lia.
    + intros i Hi. apply Hbind. lia.
    + rewrite E1. eexists. exists hs. split; [reflexivity|].
      split; [exact Hl|]. simpl. rewrite L1, HL, HE. simpl.
      rewrite <- !app_assoc. reflexivity.
Qed.

(** ** C4: the graceful stop *)

Lemma weights_app a b : weights (a ++ b) = weights a + weights b.
Proof. induction a as [|x a IH]; simpl; [reflexivity|]. rewrite IH. lia. Qed.

Lemma weight_task cb a b : weight (Task cb a b) = S (weights a + weights b).
Proof. reflexivity. Qed.

Lemma exec_step k t rest s :
  k <> AcceptorPool ->
  pending (pool k s) = t :: rest ->
  let s1 := exec t (with_pool k (set_pending rest) s) in
  S (in_flight s1) = in_flight s /\ same_frame s1 s.
Proof.
  intros Hk Hp. destruct t as [cb a b].
  unfold in_flight, same_frame.
  destruct k; [congruence| |]; simpl in *.
  - destruct cb; simpl; rewrite Hp; simpl; rewrite !weights_app;
      fold (weights a); fold (weights b); repeat split; lia.
  - destruct cb; simpl; rewrite Hp; simpl; rewrite !weights_app;
      fold (weights a); fold (weights b); repeat split; lia.
Qed.

Lemma weights_nil l : weights l = 0 -> l = [].
Proof.
  destruct l as [|[cb a b] l]; [reflexivity|].
  simpl. lia.
Qed.

Lemma drain_spec k : k <> AcceptorPool -> forall fuel s,
  in_flight s <= fuel ->
  let s' := drain fuel k s in
  pending (pool k s') = []
  /\ in_flight s' <= in_flight s
  /\ (pending (pool k s) <> [] -> in_flight s' < in_flight s)
  /\ same_frame s' s.
Proof.
  intros Hk. induction fuel as [|fuel IH]; intros s Hle; simpl.
  - assert (Hz : in_flight s = 0) by lia. unfold in_flight in Hz.
    assert (Hp : pending (pool k s) = []).
    { destruct k; [congruence| |]; simpl; apply weights_nil; lia. }
    rewrite Hp. repeat split; auto; congruence.
  - destruct (pending (pool k s)) as [|t rest] eqn:Hp.
    + repeat split; auto; congruence.
    + destruct (exec_step k t rest s Hk Hp) as [Hw Hf].
      set (s1 := exec t (with_pool k (set_pending rest) s)) in *.
      destruct (IH s1 ltac:(lia)) as [A [B [_ D]]].
      split; [exact A|]. split; [lia|]. split; [intros _; lia|].
      unfold same_frame in *. intuition congruence.
Qed.

Lemma start_pool_spec k s :
  k <> AcceptorPool ->
  let s' := start_pool k s in
  running (pool k s') = true
  /\ in_flight s' = in_flight s
  /\ pending (io_service_pool_ s') = pending (io_service_pool_ s)
  /\ pending (work_service_pool_ s') = pending (work_service_pool_ s)
  /\ log s' = log s ++ [pool_start k]
  /\ started_ s' = started_ s
  /\ (running (io_service_pool_ s) = true ->
      running (io_service_pool_ s') = true)
  /\ (running (work_service_pool_ s) = true ->
      running (work_service_pool_ s') = true).
Proof.
  intros Hk. destruct k; [congruence| |]; simpl; repeat split; auto.
Qed.

Lemma stop_pool_spec k s :
  k <> AcceptorPool ->
  let s' := stop_pool k false s in
  in_flight s' <= in_flight s
  /\ log s' = log s ++ [pool_stop k false]
  /\ started_ s' = started_ s
  /\ (running (pool k s) = true ->
      is_free (pool k s') = true
      /\ (is_free (pool k s) = false -> in_flight s' < in_flight s))
  /\ (forall j, j <> k -> j <> AcceptorPool ->
      running (pool j s') = running (pool j s)
      /\ (is_free (pool k s) = true -> pending (pool j s') = pending (pool j s)))
  /\ (is_free (io_service_pool_ s) = true ->
      is_free (work_service_pool_ s) = true ->
      is_free (io_service_pool_ s') = true
      /\ is_free (work_service_pool_ s') = true).
Proof.
  intros Hk s'. unfold s', stop_pool.
  set (s1 := record (pool_stop k false) s).
  assert (H1 : in_flight s1 = in_flight s) by reflexivity.
  assert (P1 : forall j, pool j s1 = pool j s) by (intros []; reflexivity).
  rewrite (P1 k).
  assert (Hfree : is_free (io_service_pool_ s) = true ->
                  is_free (work_service_pool_ s) = true -> in_flight s = 0).
  { unfold in_flight, is_free.
    destruct (pending (io_service_pool_ s)), (pending (work_service_pool_ s));
      simpl; intros; try discriminate; reflexivity. }
  destruct (running (pool k s)) eqn:Hr; simpl.
  - destruct (drain_spec k Hk (in_flight s1) s1 (Nat.le_refl _))
      as [A [B [C [D1 [D2 [D3 D4]]]]]].
    set (s2 := drain (in_flight s1) k s1) in *.
    change (io_service_pool_ s1) with (io_service_pool_ s) in D3.
    change (work_service_pool_ s1) with (work_service_pool_ s) in D4.
    assert (Hin : in_flight (with_pool k (set_running false) s2)
                  = in_flight s2)
      by (destruct k; reflexivity).
    split; [lia|].
    split; [destruct k; simpl; rewrite D1; reflexivity|].
    split; [destruct k; simpl; rewrite D2; reflexivity|].
    split; [|split].
    + intros _. split.
      * unfold is_free. destruct k; [congruence| |]; simpl in *;
          rewrite A; reflexivity.
      * intros Hnf. rewrite Hin.
        assert (pending (pool k s1) <> []).
        { rewrite P1. unfold is_free in Hnf.
          destruct (pending (pool k s)); [discriminate|congruence]. }
        specialize (C H). lia.
    + intros j Hj Hja. split.
      * destruct k, j; try congruence; simpl; congruence.
      * intros Hf.
        assert (Hs2 : s2 = s1).
        { unfold s2. unfold is_free in Hf. rewrite <- (P1 k) in Hf.
          destruct (in_flight s1); simpl; [reflexivity|].
          destruct (pending (pool k s1)); [reflexivity|discriminate]. }
        rewrite Hs2. destruct k, j; try congruence; reflexivity.
    + intros F1 F2. specialize (Hfree F1 F2).
      assert (Hz : in_flight s2 = 0) by lia.
      unfold in_flight in Hz.
      assert (Z1 : pending (io_service_pool_ s2) = [])
        by (apply weights_nil; lia).
      assert (Z2 : pending (work_service_pool_ s2) = [])
        by (apply weights_nil; lia).
      unfold is_free. destruct k; simpl; rewrite ?Z1, ?Z2; auto.
  - split; [lia|]. split; [reflexivity|]. split; [reflexivity|].
    split; [discriminate|]. split.
    + intros j _ _. rewrite P1. auto.
    + intros F1 F2. split; assumption.
Qed.


Lemma round_spec s :
  in_flight (round s) <= in_flight s
  /\ ((is_free (io_service_pool_ s) = false
       \/ is_free (work_service_pool_ s) = false) ->
      in_flight (round s) < in_flight s)
  /\ log (round s) = log s ++ drain_round
  /\ started_ (round s) = started_ s.
Proof.
  unfold round.
  assert (Hw : WorkPool <> AcceptorPool) by discriminate.
  assert (Hi : IoPool <> AcceptorPool) by discriminate.
  destruct (start_pool_spec WorkPool s Hw)
    as [A1 [A2 [A3 [A4 [A5 [A6 [A7 A8]]]]]]].
  set (s1 := start_pool WorkPool s) in *.
  destruct (start_pool_spec IoPool s1 Hi)
    as [B1 [B2 [B3 [B4 [B5 [B6 [B7 B8]]]]]]].
  set (s2 := start_pool IoPool s1) in *.
  destruct (stop_pool_spec IoPool s2 Hi) as [C1 [C2 [C3 [C4 [C5 C6]]]]].
  set (s3 := stop_pool IoPool false s2) in *.
  destruct (stop_pool_spec WorkPool s3 Hw) as [D1 [D2 [D3 [D4 [D5 D6]]]]].
  cbv beta iota delta [pool] in A1, B1, C4, D4.
  destruct (C4 B1) as [C4a C4b].
  destruct (C5 WorkPool ltac:(discriminate) Hw) as [C5a C5b].
  cbv beta iota delta [pool] in C5a, C5b.
  assert (R3 : running (work_service_pool_ s3) = true).
  { rewrite C5a. apply B8. exact A1. }
  destruct (D4 R3) as [D4a D4b].
  split; [lia|]. split; [|split].
  - intros [F|F].
    + assert (is_free (io_service_pool_ s2) = false).
      { unfold is_free in *. rewrite B3, A3. exact F. }
      specialize (C4b H). lia.
    + destruct (is_free (io_service_pool_ s2)) eqn:F2.
      * assert (is_free (work_service_pool_ s3) = false).
        { unfold is_free in *. rewrite (C5b eq_refl), B4, A4. exact F. }
        specialize (D4b H). lia.
      * specialize (C4b eq_refl). lia.
  - rewrite D2, C2, B5, A5. unfold drain_round.
    rewrite <- !app_assoc. reflexivity.
  - congruence.
Qed.

Lemma drain_loop_exit fuel : forall s s',
  drain_loop fuel s = Some s' ->
  is_free (io_service_pool_ s') = true
  /\ is_free (work_service_pool_ s') = true.
Proof.
  induction fuel as [|fuel IH]; intros s s'; simpl; [discriminate|].
  destruct (is_free (io_service_pool_ s)) eqn:F1;
    destruct (is_free (work_service_pool_ s)) eqn:F2; simpl;
    try (apply IH).
  intros [= <-]. auto.
Qed.

Lemma drain_loop_returns fuel : forall s,
  in_flight s < fuel ->
  exists s' k,
    drain_loop fuel s = Some s'
    /\ log s' = log s ++ concat (repeat drain_round k)
    /\ started_ s' = started_ s.
Proof.
  induction fuel as [|fuel IH]; intros s Hlt; [lia|]. simpl.
  destruct (round_spec s) as [R1 [R2 [R3 R4]]]. fold (round s).
  destruct (is_free (io_service_pool_ s)) eqn:F1;
    destruct (is_free (work_service_pool_ s)) eqn:F2; simpl.
  - exists s, 0. simpl. rewrite app_nil_r. auto.
  - destruct (IH (round s)) as [s' [k [E [L S']]]];
      [specialize (R2 (or_intror eq_refl)); lia|].
    exists s', (S k). split; [exact E|]. split; [|congruence].
    rewrite L, R3. simpl. rewrite <- app_assoc. reflexivity.
  - destruct (IH (round s)) as [s' [k [E [L S']]]];
      [specialize (R2 (or_introl eq_refl)); lia|].
    exists s', (S k). split; [exact E|]. split; [|congruence].
    rewrite L, R3. simpl. rewrite <- app_assoc. reflexivity.
  - destruct (IH (round s)) as [s' [k [E [L S']]]];
      [specialize (R2 (or_introl eq_refl)); lia|].
    exists s', (S k). split; [exact E|]. split; [|congruence].
    rewrite L, R3. simpl. rewrite <- app_assoc. reflexivity.
Qed.

(** C4. In graceful mode, from the return of the acceptor pool's blocking
    [run] on, [server::run] returns whatever is in flight (enough fuel for
    the loop is one more than the callbacks in flight), and it does so after
    stopping the I/O pool and the work pool and then some number of rounds
    that restart and stop both; on return both pools are idle and the server
    is no longer started.  Hence whenever [run], entered on a server that
    was not started, returns in graceful mode, both pools are idle. *)
Theorem graceful_drain s :
  (forall fuel,
      in_flight s < fuel ->
      exists s' k,
        shut_down fuel false s = Some s'
        /\ is_free (io_service_pool_ s') = true
        /\ is_free (work_service_pool_ s') = true
        /\ started_ s' = false
        /\ log s'
           = log s ++ [pool_stop IoPool false; pool_stop WorkPool false]
             ++ concat (repeat drain_round k))
  /\ (forall fuel env s',
      started_ s = false ->
      run fuel false env s = Returned s' ->
      is_free (io_service_pool_ s') = true
      /\ is_free (work_service_pool_ s') = true).
Proof.
  split.
  - intros fuel Hlt. unfold shut_down.
    destruct (stop_pool_spec IoPool s ltac:(discriminate))
      as [A1 [A2 _]].
    set (s1 := stop_pool IoPool false s) in *.
    destruct (stop_pool_spec WorkPool s1 ltac:(discriminate))
      as [B1 [B2 _]].
    set (s2 := stop_pool WorkPool false s1) in *.
    destruct (drain_loop_returns fuel s2 ltac:(lia)) as [s' [k [E [L S']]]].
    rewrite E. exists (set_started false s'), k.
    destruct (drain_loop_exit fuel s2 s' E) as [F1 F2].
    repeat split; auto.
    simpl. rewrite L, B2, A2, <- !app_assoc. reflexivity.
  - intros fuel env s' Hs. unfold run. rewrite Hs.
    destruct (start_up env s) as [s1|e s1]; [|discriminate].
    destruct (serve (events env) s1) as [s2|]; [|discriminate].
    unfold shut_down.
    destruct (drain_loop fuel _) as [s3|] eqn:E; [|discriminate].
    intros [= <-]. apply drain_loop_exit in E. exact E.
Qed.

(** ** The claims at sample servers *)

Lemma run_stop_guards_witness :
  started_ sample_started = true
  /\ run 0 false quiet_world sample_started = Returned sample_started
  /\ started_ sample_server = false
  /\ stop sample_server = sample_server.
Proof.
  split; [reflexivity|].
  split; [apply (proj1 run_stop_guards); reflexivity|].
  split; [reflexivity|].
  apply (proj2 run_stop_guards); reflexivity.
Defined.

Lemma accept_one_cycle_witness :
  exists h,
    nth_error (handlers (service_handler_pool_ (accept_one 0 sample_server))) h
    = Some (mk_handler idle (Some 0) (Some 0) None)
    /\ get_load (service_handler_pool_ (accept_one 0 sample_server)) = 1
    /\ log (accept_one 0 sample_server) = [acceptor_async_accept 0 h].
Proof.
  destruct (accept_one_cycle sample_server 0 (fresh_acceptor 0))
    as [h [_ [A [B [_ [_ [_ C]]]]]]].
  - reflexivity.
  - repeat constructor.
  - exists h. split; [exact A|]. split; [exact B|exact C].
Defined.

Lemma accept_completion_witness :
  log (complete_accept 1 connection_reset ([], []) sample_started)
  = log sample_started ++ [handler_close 1 connection_reset]
  /\ accept_armed 1
       (complete_accept 1 connection_reset ([], []) sample_started)
     = false.
Proof.
  destruct (accept_completion sample_started 1
              (mk_acceptor 1 (Some (mk_endpoint "0.0.0.0" 1000)) true
                 (Some (mk_endpoint "0.0.0.0" 1000)) true (Some 1))
              1 connection_reset ([], []) eq_refl eq_refl) as [A _].
  destruct (A eq_refl) as [L [R _]].
  split; [exact L|exact R].
Defined.

Lemma acceptors_created_and_opened_witness :
  exists s1 hs,
    start_up quiet_world sample_server = Ok s1
    /\ length hs = 2
    /\ log s1
       = flat_map (opening_calls (mk_endpoint "0.0.0.0" 1000))
           (combine (seq 0 2) hs)
         ++ [pool_start WorkPool; pool_start IoPool; pool_run AcceptorPool].
Proof.
  apply (proj2 (proj2 (proj2
           (acceptors_created_and_opened (new_handler_pool 2)
              "0.0.0.0" 1000 2 2 4 64)))).
  intros i _. reflexivity.
Defined.

Lemma graceful_drain_witness :
  (exists s' k,
      shut_down 4 false sample_busy = Some s'
      /\ is_free (io_service_pool_ s') = true
      /\ is_free (work_service_pool_ s') = true
      /\ started_ s' = false
      /\ log s'
         = log sample_busy
           ++ [pool_stop IoPool false; pool_stop WorkPool false]
           ++ concat (repeat drain_round k))
  /\ match run 10 false sample_world sample_server with
     | Returned s' =>
         is_free (io_service_pool_ s') = true
         /\ is_free (work_service_pool_ s') = true
     | _ => False
     end.
Proof.
  split.
  - apply (proj1 (graceful_drain sample_busy)).
    apply Nat.le_refl.
  - destruct (run 10 false sample_world sample_server) as [s'| | |] eqn:E;
      try (vm_compute in E; discriminate E).
    exact (proj2 (graceful_drain sample_server) 10 sample_world s'
             eq_refl E).
Defined.

End ServerFacts.

(* ================================================================== *)
(** * Further lemmas on the work objects *)

Section WorkFacts.

Import Asio Proxy ProxyMore.

Ltac unfold_cb :=
  unfold server_work.on_open, server_work.on_read, server_work.on_write,
    server_work.on_parent, server_work.on_child,
    client_work.on_open, client_work.on_read, client_work.on_write,
    client_work.on_parent, client_work.on_child,
    bind, deref, emit, load, store, ret.

Ltac unfold_cb_in H :=
  unfold server_work.on_open, server_work.on_read, server_work.on_write,
    server_work.on_parent, server_work.on_child,
    client_work.on_open, client_work.on_read, client_work.on_write,
    client_work.on_parent, client_work.on_child,
    bind, deref, emit, load, store, ret in H.

Lemma report_console ok tag e p :
  exists o, report ok tag e p = Some (tt, p, o)
            /\ forallb is_console o = true
            /\ o = if normal_end e then [OpPrint ok]
                   else if unreported e then []
                   else [OpPrintError tag e].
Proof.
  unfold report, normal_end, unreported.
  destruct (_ || _)%bool; [|destruct (_ || _)%bool];
    eexists; (split; [reflexivity|]); split; reflexivity.
Qed.

Lemma on_close_console e p :
  exists o,
    forallb is_console o = true
    /\ server_work.on_close e p
       = Some (tt, None,
               match p with
               | Some c => [OpPostParent c (mk_event parent_close 0);
                            OpStore None]
               | None => []
               end
               ++ (if normal_end e
                   then [OpPrint (String.append "source ok ..............." nl)]
                   else if unreported e then []
                   else [OpPrintError "source error " e]))
    /\ client_work.on_close e p
       = Some (tt, None,
               match p with
               | Some c => [OpPostChild c (mk_event child_close 0);
                            OpStore None]
               | None => []
               end
               ++ (if normal_end e
                   then [OpPrint (String.append "target ok ***************" nl)]
                   else if unreported e then []
                   else [OpPrintError "target error " e])).
Proof.
  unfold server_work.on_close, client_work.on_close, bind, load, emit, store,
    ret.
  destruct (report_console (String.append "source ok ..............." nl)
              "source error " e None) as [o1 [E1 [Q1 S1]]].
  destruct (report_console (String.append "target ok ***************" nl)
              "target error " e None) as [o2 [E2 [Q2 S2]]].
  exists o1. split; [exact Q1|].
  destruct p as [c|]; rewrite E1, E2, S1, S2; split; reflexivity.
Qed.


Lemma callback_undefined x t p :
  undefined (callback x t p) = (is_null p && derefs x t)%bool.
Proof.
  destruct x, t as [|n|n|e|[st v]|[st v]]; simpl.
  4: destruct (on_close_console e p) as [o [Q [-> _]]].
  10: destruct (on_close_console e p) as [o [Q [_ ->]]].
  all: unfold_cb.
  all: try (destruct p as [[]|]; reflexivity).
  all: destruct st; destruct p as [[]|]; reflexivity.
Qed.

(** X1. No callback of either work object installs a peer pointer: a
    callback that is defined leaves the pointer as it was, except [on_close]
    and the callback that is handed the peer's close-event, which leave it
    null; and no callback stores a non-null pointer on the way. *)
Theorem peer_pointer_never_installed x t p :
  pointer_after (callback x t) p
  = (if (is_null p && derefs x t)%bool then None
     else Some (if (is_on_close t || is_close_for x t)%bool
                then None else p))
  /\ existsb stores_pointer (trace_of (callback x t) p) = false.
Proof.
  unfold pointer_after, trace_of.
  destruct x, t as [|n|n|e|[st v]|[st v]]; simpl.
  4: destruct (on_close_console e p) as [o [Q [-> _]]].
  10: destruct (on_close_console e p) as [o [Q [_ ->]]].
  all: unfold_cb.
  all: try (rewrite andb_false_r; split; [reflexivity|];
            rewrite existsb_app;
            destruct p, (normal_end e), (unreported e); reflexivity).
  all: try (destruct p as [[]|]; simpl; split; reflexivity).
  all: destruct st; destruct p as [[]|]; simpl; split; reflexivity.
Qed.

(** X2. A callback is undefined exactly when it is one of the five that
    dereference the peer pointer and the pointer is null; with a pointer
    set, every callback of both work objects is defined. *)
Theorem undefined_exactly_at_null_deref x t p :
  undefined (callback x t p) = (is_null p && derefs x t)%bool.
Proof. exact (callback_undefined x t p). Qed.

Lemma unreported_not_normal e : unreported e = true -> normal_end e = false.
Proof.
  unfold unreported, normal_end, connection_aborted, connection_reset,
    connection_refused, eof.
  intros H. apply orb_true_iff in H. destruct H as [H|H].
  - apply orb_true_iff in H. destruct H as [H|H];
      apply Z.eqb_eq in H; subst; reflexivity.
  - apply Z.eqb_eq in H; subst; reflexivity.
Qed.

(** X3. What [on_close] does besides writing to the console does not
    depend on the error code; it writes one line, except for
    [connection_aborted], [connection_reset] and [connection_refused], for
    which it writes nothing; the line is the "ok" line for 0 and [eof] and
    the error line, with the code, for every other code. *)
Theorem on_close_console_by_error e e' p :
  filter (fun o => negb (is_console o))
    (trace_of (server_work.on_close e) p)
  = filter (fun o => negb (is_console o))
      (trace_of (server_work.on_close e') p)
  /\ filter (fun o => negb (is_console o))
       (trace_of (client_work.on_close e) p)
     = filter (fun o => negb (is_console o))
         (trace_of (client_work.on_close e') p)
  /\ filter is_console (trace_of (server_work.on_close e) p)
     = (if unreported e then []
        else if normal_end e
             then [OpPrint (String.append "source ok ..............." nl)]
             else [OpPrintError "source error " e])
  /\ filter is_console (trace_of (client_work.on_close e) p)
     = (if unreported e then []
        else if normal_end e
             then [OpPrint (String.append "target ok ***************" nl)]
             else [OpPrintError "target error " e]).
Proof.
  destruct (on_close_console e p) as [o [Q [E1 E2]]].
  destruct (on_close_console e' p) as [o' [Q' [E1' E2']]].
  unfold trace_of. rewrite E1, E2, E1', E2'.
  rewrite !filter_app.
  pose proof (unreported_not_normal e) as Hn.
  repeat split.
  - f_equal. destruct (normal_end e), (unreported e), (normal_end e'),
      (unreported e'); reflexivity.
  - f_equal. destruct (normal_end e), (unreported e), (normal_end e'),
      (unreported e'); reflexivity.
  - destruct p, (unreported e); simpl;
      try (rewrite (Hn eq_refl)); destruct (normal_end e); reflexivity.
  - destruct p, (unreported e); simpl;
      try (rewrite (Hn eq_refl)); destruct (normal_end e); reflexivity.
Qed.

(** X4. [on_close] puts the work object back in the state its constructor
    gave it (null peer pointer), whatever the pointer and the error code
    were, so the empty [on_clear] leaves it ready for the next session; and
    [on_close] run a second time posts no close-event: two runs in a row
    post one when the pointer was set and none when it was null. *)
Theorem on_close_resets_work_object e1 e2 p :
  pointer_after (server_work.on_close e1 ;; server_work.on_clear) p
  = Some None
  /\ pointer_after (client_work.on_close e1 ;; client_work.on_clear) p
     = Some None
  /\ length (filter posts_close
               (trace_of (server_work.on_close e1 ;; server_work.on_close e2)
                  p))
     = (if is_null p then 0 else 1)
  /\ length (filter posts_close
               (trace_of (client_work.on_close e1 ;; client_work.on_close e2)
                  p))
     = (if is_null p then 0 else 1).
Proof.
  destruct (on_close_console e1 p) as [o1 [Q1 [A1 B1]]].
  destruct (on_close_console e2 None) as [o2 [Q2 [A2 B2]]].
  unfold pointer_after, trace_of, bind, server_work.on_clear,
    client_work.on_clear, ret.
  rewrite A1, B1, A2, B2. simpl.
  repeat split; try reflexivity.
  - rewrite !filter_app.
    destruct p, (normal_end e1), (unreported e1), (normal_end e2),
      (unreported e2); reflexivity.
  - rewrite !filter_app.
    destruct p, (normal_end e1), (unreported e1), (normal_end e2),
      (unreported e2); reflexivity.
Qed.

(** X5. Once [on_set_child] (or [on_set_parent]) has installed a handler
    [c], every callback of the work object is defined, whatever the pointer
    was before, and every event it posts and every buffer it writes from is
    that of [c]; once it has installed the null pointer, the callbacks that
    are undefined are exactly those that dereference the pointer. *)
Theorem installed_peer_is_addressed x t c p :
  undefined ((install x (Some c) ;; callback x t) p) = false
  /\ forallb (addressed_to c)
       (trace_of (install x (Some c) ;; callback x t) p) = true
  /\ undefined ((install x None ;; callback x t) p) = derefs x t.
Proof.
  unfold trace_of, install, bind, server_work.on_set_child,
    client_work.on_set_parent, store.
  assert (Hi : forall v, match x with
                         | Parent => fun _ : option side =>
                             Some (tt, v, [OpStore v])
                         | Child => fun _ : option side =>
                             Some (tt, v, [OpStore v])
                         end p = Some (tt, v, [OpStore v]))
    by (intros v; destruct x; reflexivity).
  rewrite !Hi. clear Hi.
  pose proof (callback_undefined x t (Some c)) as U1.
  pose proof (callback_undefined x t None) as U2.
  simpl in U1, U2.
  destruct (callback x t None) as [[[u0 p0] o0]|]; simpl in U2; rewrite <- U2.
  all: destruct (callback x t (Some c)) as [[[u1 p1] o1]|] eqn:E;
    simpl in U1; try discriminate.
  all: repeat split; try reflexivity.
  all: simpl.
  all: destruct x, t as [|n|n|e|[st v]|[st v]]; simpl in E.
  all: try (destruct (on_close_console e (Some c)) as [o [Q [A B]]];
            first [rewrite A in E|rewrite B in E]; injection E as _ _ <-;
            simpl; destruct c, (normal_end e), (unreported e); reflexivity).
  all: unfold_cb_in E; try destruct st; simpl in E; injection E as _ _ <-;
       destruct c; reflexivity.
Qed.

End WorkFacts.

(* ================================================================== *)
(** * Further lemmas on the proxy pair *)

Section PairFacts.

Import Asio Proxy ProxyMore.

Ltac unfold_cb :=
  unfold server_work.on_open, server_work.on_read, server_work.on_write,
    server_work.on_parent, server_work.on_child,
    client_work.on_open, client_work.on_read, client_work.on_write,
    client_work.on_parent, client_work.on_child,
    bind, deref, emit, load, store, ret.

(** ** Where a run of the pair can go wrong *)

Lemma count_le_cons f t (q : list task) : count f q <= count f (t :: q).
Proof. rewrite count_cons. lia. Qed.

Lemma behind_close_le f x q : count f (behind_close x q) <= count f q.
Proof.
  induction q as [|t q IH]; simpl; [lia|].
  pose proof (count_le_cons f t q).
  destruct (is_close_for x t); lia.
Qed.

Lemma behind_close_snoc x t q :
  behind_close x (q ++ [t])
  = if count (is_close_for x) q =? 0 then []
    else behind_close x q ++ [t].
Proof.
  induction q as [|a q IH]; simpl.
  - destruct (is_close_for x t); reflexivity.
  - rewrite count_cons. destruct (is_close_for x a); simpl.
    + reflexivity.
    + exact IH.
Qed.

Lemma ga_pop x st p t q :
  guarded_at x st p (t :: q) -> guarded_at x st p q.
Proof.
  intros [K R]. split.
  - intros Hp. destruct (K Hp) as [H|H]; [left; exact H|right].
    pose proof (count_le_cons (needs_peer x) t q). lia.
  - simpl in R. destruct (is_close_for x t); [|exact R].
    pose proof (behind_close_le (needs_peer x) x q). lia.
Qed.

Lemma ga_pop_told x st st' p t q :
  is_close_for x t = true ->
  guarded_at x st p (t :: q) -> guarded_at x st' None q.
Proof.
  intros Hc [K R]. simpl in R. rewrite Hc in R. split.
  - intros _. right. exact R.
  - pose proof (behind_close_le (needs_peer x) x q). lia.
Qed.

Lemma ga_snoc_plain x st p t q :
  needs_peer x t = false ->
  guarded_at x st p q -> guarded_at x st p (q ++ [t]).
Proof.
  intros Hn [K R]. split.
  - intros Hp. rewrite count_snoc, Hn. simpl.
    destruct (K Hp) as [H|H]; [left; exact H|right; lia].
  - rewrite behind_close_snoc.
    destruct (count (is_close_for x) q =? 0); [reflexivity|].
    rewrite count_snoc, Hn. simpl. lia.
Qed.

Lemma ga_snoc_needs x st p t q :
  count (is_close_for x) q = 0 ->
  (p = None -> st = closed) ->
  guarded_at x st p q -> guarded_at x st p (q ++ [t]).
Proof.
  intros Hc Hp [K R]. split.
  - intros H. left. exact (Hp H).
  - rewrite behind_close_snoc, Hc. reflexivity.
Qed.

Lemma ga_state x st st' p q :
  (st = closed -> st' = closed) ->
  guarded_at x st p q -> guarded_at x st' p q.
Proof.
  intros H [K R]. split; [|exact R].
  intros Hp. destruct (K Hp) as [E|E]; [left; exact (H E)|right; exact E].
Qed.

Lemma ga_closed x st p p' q :
  guarded_at x st p q -> guarded_at x closed p' q.
Proof. intros [K R]. split; [intros _; left; reflexivity|exact R]. Qed.

Lemma ga_close_handler x e h p :
  state h <> idle ->
  guarded_at x (state h) p (queue h) ->
  guarded_at x (state (close_handler e h)) p (queue (close_handler e h)).
Proof.
  intros Hi G. unfold close_handler. destruct (state h) eqn:E; simpl;
    try exact G; try congruence.
  apply ga_snoc_plain; [destruct x; reflexivity|].
  eapply ga_state; [|exact G]. discriminate.
Qed.

Lemma callback_kinds x t p u p' ops :
  callback x t p = Some (u, p', ops) ->
  (exists e o, t = TClose e /\ p' = None /\ forallb quiet o = true
     /\ ops = match p with
              | Some c => [close_post x c; OpStore None]
              | None => []
              end ++ o)
  \/ (is_close_for x t = true /\ is_on_close t = false /\ p' = None
      /\ ops = [OpStore None; OpClose])
  \/ (is_close_for x t = false /\ is_on_close t = false /\ p' = p
      /\ (ops = [] \/ ops = [OpAsyncReadSome] \/ ops = [OpConnect]
          \/ (exists c n, ops = [OpAsyncWrite c n])
          \/ (exists c ev, p = Some c /\ x = Parent
                /\ ops = [OpPostParent c ev])
          \/ (exists c ev, p = Some c /\ x = Child
                /\ ops = [OpPostChild c ev]))).
Proof.
  destruct x, t as [|n|n|e|[st v]|[st v]]; simpl.
  4: destruct (server_on_close_eq e p) as [o [Q ->]].
  10: destruct (client_on_close_eq e p) as [o [Q ->]].
  all: unfold_cb.
  all: try (intros [= <- <- <-]; left; exists e, o; auto).
  all: try (destruct p as [[]|]; simpl; intros [= <- <- <-];
            right; right; repeat split; eauto 12).
  all: destruct st; destruct p as [[]|]; simpl; intros H; inversion H; subst;
       first [ right; left; repeat split; reflexivity
             | right; right; repeat split; eauto 12 ].
Qed.

Lemma inv_not_idle y s : inv s -> state (get y s) <> idle.
Proof.
  intros H E. apply (inv_at y) in H. destruct H as [[L _ _ _ _ _ _ _] _].
  unfold view in L. simpl in L. rewrite E in L. exact L.
Qed.

(** What the shutdown invariant says to a side that has not run
[on_close]. *)
Lemma inv_running x s :
  inv s -> state (get x s) <> closed ->
  (ptr x s = None \/ ptr x s = Some (other x))
  /\ count (is_close_for (other x)) (queue (get (other x) s)) = 0
  /\ (ptr (other x) s = None -> state (get (other x) s) = closed).
Proof.
  intros H Hst. apply (inv_at x) in H.
  destruct H as [[_ W _ _ _ _ _ _] [_ _ _ N E _ _ _]].
  unfold view in *. simpl in *. repeat split.
  - exact W.
  - destruct (count _ _) eqn:C; [reflexivity|].
    exfalso. apply Hst, E. lia.
  - intros Hp. destruct (N Hp) as [A|A]; [exact A|contradiction].
Qed.

Lemma guarded_pop x t q o s :
  queue (get x s) = t :: q ->
  (forall y, guarded y s) ->
  forall y, guarded y (note o (upd x (set_queue q) s)).
Proof.
  intros Hq G y. specialize (G y). unfold guarded in *.
  destruct x, y; simpl in *; try exact G; rewrite Hq in G;
    exact (ga_pop _ _ _ _ _ G).
Qed.

Lemma guarded_same s s' :
  (forall y, state (get y s') = state (get y s)
             /\ ptr y s' = ptr y s /\ queue (get y s') = queue (get y s)) ->
  (forall y, guarded y s) -> forall y, guarded y s'.
Proof.
  intros E G y. destruct (E y) as [A [B C]]. unfold guarded.
  rewrite A, B, C. exact (G y).
Qed.

Lemma guarded_close_handler x e s :
  inv s -> (forall y, guarded y s) ->
  forall y, guarded y (upd x (close_handler e) s).
Proof.
  intros I G y. pose proof (inv_not_idle x s I) as Hi.
  specialize (G y). unfold guarded in *.
  destruct x, y; simpl in *; try exact G;
    apply ga_close_handler; assumption.
Qed.

Lemma guarded_enqueue_plain x t s :
  needs_peer x t = false ->
  (forall y, guarded y s) ->
  forall y, guarded y (upd x (enqueue t) s).
Proof.
  intros Hn G y. specialize (G y). unfold guarded in *.
  destruct x, y; simpl in *; try exact G; apply ga_snoc_plain; assumption.
Qed.

Lemma guarded_step l s s' :
  inv s -> (forall y, guarded y s) -> step l s = Some s' ->
  forall y, guarded y s'.
Proof.
  intros I G. unfold step. destruct (crashed s); [discriminate|].
  destruct l as [x|x data|x e|x|x e|x].
  - unfold deliver.
    destruct (queue (get x s)) as [|t q] eqn:Hq; [discriminate|].
    assert (Hrun : state (get x s) <> closed ->
      match callback x t (ptr x s) with
      | None => Some (fault x t s)
      | Some (_, p, ops) =>
          Some (note (Ran x t ops)
                  (if is_on_close t
                   then upd x (set_state closed)
                          (fold_left (apply_op x) ops
                             (set_ptr x p (upd x (set_queue q) s)))
                   else fold_left (apply_op x) ops
                          (set_ptr x p (upd x (set_queue q) s))))
      end = Some s' -> forall y, guarded y s').
    { intros Hst.
      destruct (inv_running x s I Hst) as [W [E N]].
      destruct (callback x t (ptr x s)) as [[[u p] ops]|] eqn:Hcb.
      2:{ intros [= <-]. apply guarded_same with (s := s); [|exact G].
          intros y; destruct y; repeat split; reflexivity. }
      intros [= <-].
      destruct (callback_kinds _ _ _ _ _ _ Hcb)
        as [[e [o [-> [-> [Q ->]]]]]
           |[[Hf [Hc [-> ->]]]
            |[Hf [Hc [-> Hops]]]]].
      + (* on_close *)
        simpl is_on_close. cbv iota.
        rewrite fold_left_app, (fold_quiet x o _ Q).
        intros y. pose proof (G Parent) as GP. pose proof (G Child) as GC.
        unfold guarded in *.
        destruct W as [W|W]; rewrite W in *;
          destruct x, y; simpl in *; rewrite ?Hq in *;
          eauto using ga_pop, ga_closed, ga_snoc_plain.
      + (* the peer's close-event *)
        rewrite Hc. intros y.
        pose proof (G Parent) as GP. pose proof (G Child) as GC.
        pose proof (inv_not_idle x s I) as Hi.
        unfold guarded in *.
        destruct x, y; simpl in *; rewrite ?Hq in *; try assumption.
        * apply (ga_close_handler Parent success
                   (mk_handler (state (hp s)) (read_armed (hp s))
                      (write_pending (hp s)) (read_buffer (hp s))
                      (socket_out (hp s)) q)); [exact Hi|].
          simpl. exact (ga_pop_told _ _ _ _ _ _ Hf GP).
        * apply (ga_close_handler Child success
                   (mk_handler (state (hc s)) (read_armed (hc s))
                      (write_pending (hc s)) (read_buffer (hc s))
                      (socket_out (hc s)) q)); [exact Hi|].
          simpl. exact (ga_pop_told _ _ _ _ _ _ Hf GC).
      + (* the data plane *)
        rewrite Hc. intros y.
        pose proof (G Parent) as GP. pose proof (G Child) as GC.
        unfold guarded in *.
        destruct Hops as [->|[->|[->|[[c [n ->]]
                         |[[c [ev [Hp [-> ->]]]]|[c [ev [Hp [-> ->]]]]]]]]].
        1-4: destruct x, y; simpl in *; rewrite ?Hq in *;
             eauto using ga_pop.
        * rewrite Hp in W. destruct W as [W|W]; [discriminate|].
          injection W as ->.
          destruct y; simpl in *; rewrite ?Hq in *; eauto using ga_pop.
          apply ga_snoc_needs; assumption.
        * rewrite Hp in W. destruct W as [W|W]; [discriminate|].
          injection W as ->.
          destruct y; simpl in *; rewrite ?Hq in *; eauto using ga_pop.
          apply ga_snoc_needs; assumption. }
    destruct (state (get x s)) eqn:Hst; cbv beta iota.
    1,4: intros [= <-]; exact (guarded_pop x t q _ s Hq G).
    all: apply Hrun; discriminate.
  - destruct (_ && _)%bool; [|discriminate]. intros [= <-].
    intros y. specialize (G y). unfold guarded in *.
    destruct x, y; simpl in *; try exact G;
      (apply ga_snoc_plain; [reflexivity|exact G]).
  - destruct (_ && _)%bool; [|discriminate]. intros [= <-].
    assert (Hu : upd x (fun h => close_handler e (set_read false h)) s
                 = upd x (close_handler e) (upd x (set_read false) s))
      by (destruct x; reflexivity).
    rewrite Hu. apply guarded_close_handler.
    + apply inv_view_eq with (s := s); [|exact I].
      apply view_same_fields. intros h; split; reflexivity.
    + apply guarded_same with (s := s); [|exact G].
      intros y; destruct x, y; repeat split; reflexivity.
  - destruct (write_pending (get x s)) as [[src n]|]; [|discriminate].
    destruct (is_open (get x s)); [|discriminate]. intros [= <-].
    intros y. specialize (G y). unfold guarded in *.
    destruct x, y; simpl in *; try exact G;
      (apply ga_snoc_plain; [reflexivity|exact G]).
  - destruct (write_pending (get x s)) as [[src n]|]; [|discriminate].
    destruct (failed e); [|discriminate]. intros [= <-].
    assert (Hu : upd x (fun h => close_handler e (set_write None h)) s
                 = upd x (close_handler e) (upd x (set_write None) s))
      by (destruct x; reflexivity).
    rewrite Hu. apply guarded_close_handler.
    + apply inv_view_eq with (s := s); [|exact I].
      apply view_same_fields. intros h; split; reflexivity.
    + apply guarded_same with (s := s); [|exact G].
      intros y; destruct x, y; repeat split; reflexivity.
  - intros [= <-]. apply guarded_close_handler; assumption.
Qed.

Lemma guarded_reachable cap s :
  reachable cap s -> forall y, guarded y s.
Proof.
  induction 1 as [|s l s' Hr IH Hs].
  - intros []; split; simpl; intros; try discriminate; reflexivity.
  - exact (guarded_step l s s' (inv_reachable cap s Hr) IH Hs).
Qed.

Lemma crashed_fold x ops : forall s,
  crashed (fold_left (apply_op x) ops s) = crashed s.
Proof.
  induction ops as [|o ops IH]; intros s; simpl; [reflexivity|].
  rewrite IH. destruct o as [c ev|c ev| |c n| |p| |m|tag e]; simpl;
    try reflexivity; try (destruct c; reflexivity); destruct x; reflexivity.
Qed.

(** X6. In a run of the pair, the only callback that can dereference a null
peer pointer is [on_read]: when a step ends with the process stopped, that
step ran [on_read] on a side whose pointer was null.  The other callbacks
that dereference the pointer ([on_open] and [on_parent] for [parent_write]
in [client_work], [on_child] for [child_write] in [server_work]) always
find it set. *)
Theorem only_on_read_meets_null_pointer cap s l s' :
  reachable cap s -> step l s = Some s' -> crashed s' = true ->
  exists x n q,
    l = Deliver x /\ queue (get x s) = TRead n :: q /\ ptr x s = None
    /\ state (get x s) <> closed.
Proof.
  intros Hr Hs Hc.
  pose proof (guarded_reachable cap s Hr) as G.
  pose proof (inv_reachable cap s Hr) as I.
  unfold step in Hs. destruct (crashed s) eqn:Hc0; [discriminate|].
  destruct l as [x|x data|x e|x|x e|x].
  - exists x. unfold deliver in Hs.
    destruct (queue (get x s)) as [|t q] eqn:Hq; [discriminate|].
    assert (Hdrop : Some (note (Dropped x t) (upd x (set_queue q) s))
                    = Some s' -> False).
    { intros [= <-]. destruct x; simpl in Hc; congruence. }
    destruct (state (get x s)) eqn:Hst; try (destruct (Hdrop Hs)).
    all: pose proof (callback_undefined x t (ptr x s)) as U.
    all: destruct (callback x t (ptr x s)) as [[[u p] ops]|] eqn:Hcb.
    all: try (exfalso; injection Hs as <-;
              destruct (is_on_close t), x; simpl in Hc;
              rewrite crashed_fold in Hc; simpl in Hc; congruence).
    all: simpl in U; symmetry in U; apply andb_prop in U;
      destruct U as [Hn Hd].
    all: destruct (ptr x s) eqn:Hp; [discriminate|].
    all: destruct (G x) as [K _]; unfold guarded in *; rewrite Hp, Hq, Hst in K.
    all: destruct (K eq_refl) as [K1|K1]; [discriminate|].
    all: rewrite count_cons in K1; unfold needs_peer in K1; rewrite Hd in K1.
    all: destruct t as [|n|n|e|ev|ev]; simpl in K1; try discriminate.
    all: exists n, q; repeat split; try reflexivity; discriminate.
  - exfalso. destruct (_ && _)%bool; [|discriminate]. injection Hs as <-.
    destruct x; simpl in Hc; congruence.
  - exfalso. destruct (_ && _)%bool; [|discriminate]. injection Hs as <-.
    destruct x; simpl in Hc; congruence.
  - exfalso. destruct (write_pending (get x s)) as [[src n]|]; [|discriminate].
    destruct (is_open (get x s)); [|discriminate]. injection Hs as <-.
    destruct x; simpl in Hc; congruence.
  - exfalso. destruct (write_pending (get x s)) as [[src n]|]; [|discriminate].
    destruct (failed e); [|discriminate]. injection Hs as <-.
    destruct x; simpl in Hc; congruence.
  - exfalso. injection Hs as <-. destruct x; simpl in Hc; congruence.
Qed.

Lemma only_on_read_meets_null_pointer_witness :
  exists x n q,
    Deliver Parent = Deliver x
    /\ queue (get x (after (firstn 6 fault_run) 4)) = TRead n :: q
    /\ ptr x (after (firstn 6 fault_run) 4) = None
    /\ state (get x (after (firstn 6 fault_run) 4)) <> closed.
Proof.
  apply (only_on_read_meets_null_pointer 4 (after (firstn 6 fault_run) 4)
           (Deliver Parent) (after fault_run 4)).
  - apply after_reachable. vm_compute. discriminate.
  - vm_compute. reflexivity.
  - vm_compute. reflexivity.
Defined.

Ltac unfold_cb_in H :=
  unfold server_work.on_open, server_work.on_read, server_work.on_write,
    server_work.on_parent, server_work.on_child,
    client_work.on_open, client_work.on_read, client_work.on_write,
    client_work.on_parent, client_work.on_child,
    bind, deref, emit, load, store, ret in H.

(** ** The relay *)

Lemma total_cons f t q : total f (t :: q) = f t + total f q.
Proof. reflexivity. Qed.

Lemma total_snoc f t q : total f (q ++ [t]) = total f q + f t.
Proof. unfold total. rewrite map_app, list_sum_app. simpl. lia. Qed.

Lemma no_token_no_bytes z q :
  count (is_token z) q = 0 ->
  total read_size q = 0 /\ total (write_event_size (other z)) q = 0.
Proof.
  induction q as [|t q IH]; [split; reflexivity|].
  rewrite count_cons, !total_cons. intros H.
  assert (H1 : b2n (is_token z t) = 0) by lia.
  assert (H2 : count (is_token z) q = 0) by lia.
  destruct (IH H2) as [A B]. rewrite A, B.
  destruct z, t as [|n|n|e|[[] v]|[[] v]]; simpl in *; try discriminate;
    split; reflexivity.
Qed.

Lemma no_write_no_bytes (w : option (side * N)) :
  b2n (match w with Some _ => true | None => false end) = 0 ->
  pending_size w = 0.
Proof. destruct w as [[? ?]|]; simpl; [discriminate|reflexivity]. Qed.

Lemma inv_wired s :
  inv s ->
  (child_handler_ s = None \/ child_handler_ s = Some Child)
  /\ (parent_handler_ s = None \/ parent_handler_ s = Some Parent).
Proof.
  intros [[_ W1 _ _ _ _ _ _] [_ W2 _ _ _ _ _ _]].
  split; [exact W1|exact W2].
Qed.

Ltac crunch :=
  unfold tokens, tokens_of, in_flight in *; simpl in *;
  rewrite ?count_cons, ?count_snoc, ?total_cons, ?total_snoc in *;
  simpl in *;
  repeat split; try reflexivity; try (intros; lia).

Lemma relay_frame x l s s' :
  tokens s <= 1 -> inv s -> step l s = Some s' ->
  (forall data, l <> ReadDone x data) -> l <> WriteDone (other x) ->
  socket_out (get (other x) s') = socket_out (get (other x) s)
  /\ read_buffer (get x s') = read_buffer (get x s)
  /\ (1 <= tokens s' -> in_flight x s' = in_flight x s).
Proof.
  intros T I Hs N1 N2.
  destruct (inv_wired s I) as [WP WC]. clear I.
  unfold step in Hs. destruct (crashed s) eqn:Hcr; [discriminate|].
  destruct s as [[stp rap wpp bufp outp qp] [stc rac wpc bufc outc qc]
                 cp pp cr hi].
  simpl in *.
  pose proof (no_write_no_bytes wpp) as ZWP.
  pose proof (no_write_no_bytes wpc) as ZWC.
  destruct l as [z|z data|z e|z|z e|z].
  - unfold deliver in Hs. destruct z; simpl in Hs.
    + destruct qp as [|t q]; [discriminate|].
      pose proof (no_token_no_bytes Parent q) as ZP.
      pose proof (no_token_no_bytes Child qc) as ZC.
      simpl in ZP, ZC.
      destruct stp.
      1,4: injection Hs as <-; destruct x, t as [|n|n|e|[[] v]|[[] v]];
           crunch.
      all: destruct t as [|n|n|e|[[] v]|[[] v]]; simpl in Hs.
      all: try (destruct (server_on_close_eq e cp) as [o [Q E]];
                rewrite E in Hs; injection Hs as <-;
                rewrite fold_left_app, (fold_quiet Parent o _ Q);
                destruct cp as [[]|]; try (destruct WP; discriminate);
                destruct x; crunch).
      all: unfold_cb_in Hs; destruct cp as [[]|]; simpl in Hs;
           try (destruct WP; discriminate);
           injection Hs as <-; destruct x; crunch.
    + destruct qc as [|t q]; [discriminate|].
      pose proof (no_token_no_bytes Parent qp) as ZP.
      pose proof (no_token_no_bytes Child q) as ZC.
      simpl in ZP, ZC.
      destruct stc.
      1,4: injection Hs as <-; destruct x, t as [|n|n|e|[[] v]|[[] v]];
           crunch.
      all: destruct t as [|n|n|e|[[] v]|[[] v]]; simpl in Hs.
      all: try (destruct (client_on_close_eq e pp) as [o [Q E]];
                rewrite E in Hs; injection Hs as <-;
                rewrite fold_left_app, (fold_quiet Child o _ Q);
                destruct pp as [[]|]; try (destruct WC; discriminate);
                destruct x; crunch).
      all: unfold_cb_in Hs; destruct pp as [[]|]; simpl in Hs;
           try (destruct WC; discriminate);
           injection Hs as <-; destruct x; crunch.
  - destruct (_ && _)%bool; [|discriminate]. injection Hs as <-.
    destruct x, z; try (exfalso; exact (N1 data eq_refl)); crunch.
  - destruct (_ && _)%bool; [|discriminate]. injection Hs as <-.
    pose proof (no_token_no_bytes Parent qp) as ZP.
    pose proof (no_token_no_bytes Child qc) as ZC.
    simpl in ZP, ZC.
    destruct x, z; simpl; unfold close_handler; simpl;
      try destruct stp; try destruct stc; crunch.
  - destruct x, z; simpl in Hs; try (exfalso; exact (N2 eq_refl)).
    + destruct wpp as [[src n]|]; [|discriminate].
      destruct (is_open _); [|discriminate]. injection Hs as <-. crunch.
    + destruct wpc as [[src n]|]; [|discriminate].
      destruct (is_open _); [|discriminate]. injection Hs as <-. crunch.
  - pose proof (no_token_no_bytes Parent qp) as ZP.
    pose proof (no_token_no_bytes Child qc) as ZC.
    simpl in ZP, ZC.
    destruct z; simpl in Hs.
    + destruct wpp as [[src n]|]; [|discriminate].
      destruct (failed e); [|discriminate]. injection Hs as <-.
      destruct x; simpl; unfold close_handler; simpl; destruct stp; crunch.
    + destruct wpc as [[src n]|]; [|discriminate].
      destruct (failed e); [|discriminate]. injection Hs as <-.
      destruct x; simpl; unfold close_handler; simpl; destruct stc; crunch.
  - injection Hs as <-.
    pose proof (no_token_no_bytes Parent qp) as ZP.
    pose proof (no_token_no_bytes Child qc) as ZC.
    simpl in ZP, ZC.
    destruct x, z; simpl; unfold close_handler; simpl;
      try destruct stp; try destruct stc; crunch.
Qed.

Lemma firstn_length_app {A} (l r : list A) : firstn (length l) (l ++ r) = l.
Proof. induction l as [|a l IH]; simpl; [reflexivity|]. rewrite IH. reflexivity. Qed.

Lemma sound_step cap l s s' :
  inv s -> sound cap s -> step l s = Some s' -> sound cap s'.
Proof.
  intros I [WA SZ] Hs.
  destruct (inv_wired s I) as [WP WC]. clear I.
  pose proof (WA Parent) as WAP. pose proof (WA Child) as WAC.
  pose proof (SZ Parent) as SZP. pose proof (SZ Child) as SZC.
  clear WA SZ.
  unfold step in Hs. destruct (crashed s) eqn:Hcr; [discriminate|].
  destruct s as [[stp rap wpp bufp outp qp] [stc rac wpc bufc outc qc]
                 cp pp cr hi].
  simpl in *.
  assert (Fin : forall h1 h2 a b c d,
    (forall src n, write_pending h1 = Some (src, n) -> src = Child) ->
    (forall src n, write_pending h2 = Some (src, n) -> src = Parent) ->
    length (read_buffer h1) = cap -> length (read_buffer h2) = cap ->
    sound cap (mk_sys h1 h2 a b c d)).
  { intros h1 h2 a b c d A1 A2 B1 B2. split.
    - intros [] src n; simpl; [apply A1|apply A2].
    - intros []; simpl; assumption. }
  destruct l as [z|z data|z e|z|z e|z].
  - unfold deliver in Hs. destruct z; simpl in Hs.
    + destruct qp as [|t q]; [discriminate|].
      destruct stp.
      1,4: injection Hs as <-; apply Fin; simpl; assumption.
      all: destruct t as [|n|n|e|[[] v]|[[] v]]; simpl in Hs.
      all: try (destruct (server_on_close_eq e cp) as [o [Q E]];
                rewrite E in Hs; injection Hs as <-;
                rewrite fold_left_app, (fold_quiet Parent o _ Q);
                destruct cp as [[]|]; try (destruct WP; discriminate);
                apply Fin; simpl; assumption).
      all: unfold_cb_in Hs; destruct cp as [[]|]; simpl in Hs;
           try (destruct WP; discriminate);
           injection Hs as <-; apply Fin; simpl; try assumption;
           try (intros src0 n0 [= <- <-]; reflexivity);
           try discriminate.
    + destruct qc as [|t q]; [discriminate|].
      destruct stc.
      1,4: injection Hs as <-; apply Fin; simpl; assumption.
      all: destruct t as [|n|n|e|[[] v]|[[] v]]; simpl in Hs.
      all: try (destruct (client_on_close_eq e pp) as [o [Q E]];
                rewrite E in Hs; injection Hs as <-;
                rewrite fold_left_app, (fold_quiet Child o _ Q);
                destruct pp as [[]|]; try (destruct WC; discriminate);
                apply Fin; simpl; assumption).
      all: unfold_cb_in Hs; destruct pp as [[]|]; simpl in Hs;
           try (destruct WC; discriminate);
           injection Hs as <-; apply Fin; simpl; try assumption;
           try (intros src0 n0 [= <- <-]; reflexivity);
           try discriminate.
  - destruct (_ && _)%bool eqn:Hg; [|discriminate]. injection Hs as <-.
    apply andb_prop in Hg. destruct Hg as [_ Hg]. apply Nat.leb_le in Hg.
    destruct z; simpl in *; apply Fin; simpl; try assumption;
      rewrite length_app, length_skipn; lia.
  - destruct (_ && _)%bool; [|discriminate]. injection Hs as <-.
    destruct z; simpl; unfold close_handler; simpl;
      try destruct stp; try destruct stc; apply Fin; simpl;
      try assumption; discriminate.
  - destruct z; simpl in Hs.
    + destruct wpp as [[src n]|]; [|discriminate].
      destruct (is_open _); [|discriminate]. injection Hs as <-.
      apply Fin; simpl; try assumption; discriminate.
    + destruct wpc as [[src n]|]; [|discriminate].
      destruct (is_open _); [|discriminate]. injection Hs as <-.
      apply Fin; simpl; try assumption; discriminate.
  - destruct z; simpl in Hs.
    + destruct wpp as [[src n]|]; [|discriminate].
      destruct (failed e); [|discriminate]. injection Hs as <-.
      simpl; unfold close_handler; simpl; destruct stp; apply Fin; simpl;
        try assumption; discriminate.
    + destruct wpc as [[src n]|]; [|discriminate].
      destruct (failed e); [|discriminate]. injection Hs as <-.
      simpl; unfold close_handler; simpl; destruct stc; apply Fin; simpl;
        try assumption; discriminate.
  - injection Hs as <-.
    destruct z; simpl; unfold close_handler; simpl;
      try destruct stp; try destruct stc; apply Fin; simpl;
      try assumption; discriminate.
Qed.

Lemma relay_step cap x ls l s s' :
  reachable cap s -> sound cap s -> relay cap x ls s ->
  step l s = Some s' -> relay cap x (ls ++ [l]) s'.
Proof.
  intros Hr [WA SZ] [rest [E [L O]]] Hs.
  pose proof (tokens_reachable cap s Hr) as T.
  pose proof (inv_reachable cap s Hr) as I.
  pose proof (tokens_step l s s' Hs) as T'.
  unfold relay, stream_in. rewrite flat_map_app. simpl. rewrite app_nil_r.
  fold (stream_in x ls). rewrite E.
  assert (Frame : (forall data, l <> ReadDone x data) ->
                  l <> WriteDone (other x) -> received x l = [] ->
                  exists rest0,
                    (socket_out (get (other x) s) ++ rest) ++ received x l
                    = socket_out (get (other x) s') ++ rest0
                    /\ length rest0 <= cap
                    /\ (1 <= tokens s' -> rest0 = owed x s')).
  { intros N1 N2 Hrc.
    destruct (relay_frame x l s s' T I Hs N1 N2) as [A [B C]].
    exists rest. rewrite Hrc, app_nil_r, A.
    split; [reflexivity|]. split; [exact L|].
    intros H1. unfold owed. rewrite B, (C H1). apply O. lia. }
  destruct l as [z|z data|z e|z|z e|z];
    try (apply Frame; [discriminate|discriminate|reflexivity]).
  - (* a read completes *)
    destruct (side_eqb x z) eqn:Hxz.
    2:{ apply Frame; [|discriminate|simpl; rewrite Hxz; reflexivity].
        intros d H. injection H as Hz _. subst z.
        destruct x; discriminate. }
    assert (Hz : z = x) by (destruct x, z; try discriminate; reflexivity).
    subst z.
    simpl. rewrite Hxz.
    unfold step in Hs. destruct (crashed s); [discriminate|].
    destruct (_ && _)%bool eqn:Hg; [|discriminate]. injection Hs as <-.
    apply andb_prop in Hg. destruct Hg as [Hg G4].
    apply andb_prop in Hg. destruct Hg as [Hg G3].
    apply andb_prop in Hg. destruct Hg as [G1 G2].
    apply Nat.leb_le in G4.
    specialize (SZ x).
    assert (Hzero : tokens s = 1 /\ in_flight x s = 0).
    { destruct (no_token_no_bytes Parent (queue (hp s))) as [ZP1 ZP2];
        [|destruct (no_token_no_bytes Child (queue (hc s))) as [ZC1 ZC2]].
      3: pose proof (no_write_no_bytes (write_pending (hp s))) as ZWP;
         pose proof (no_write_no_bytes (write_pending (hc s))) as ZWC.
      all: destruct x; unfold tokens, tokens_of, in_flight in *; simpl in *;
        rewrite G1 in *; simpl in *; lia. }
    destruct Hzero as [T1 F0].
    assert (Hrest : rest = []).
    { rewrite O by lia. unfold owed. rewrite F0. reflexivity. }
    subst rest. exists data. rewrite app_nil_r.
    assert (Hout : socket_out (get (other x) (upd x (read_done data) s))
                   = socket_out (get (other x) s))
      by (destruct x; reflexivity).
    rewrite Hout. split; [reflexivity|]. split; [lia|].
    intros _. unfold owed.
    assert (Hfl : in_flight x (upd x (read_done data) s) = length data).
    { destruct x; unfold in_flight in *; simpl in *;
        rewrite total_snoc; simpl; rewrite Nat2N.id; lia. }
    rewrite Hfl.
    assert (Hbuf : read_buffer (get x (upd x (read_done data) s))
                   = data ++ skipn (length data) (read_buffer (get x s)))
      by (destruct x; reflexivity).
    rewrite Hbuf, firstn_length_app. reflexivity.
  - (* a write completes *)
    destruct (side_eqb x z) eqn:Hxz.
    1:{ apply Frame; [discriminate| |reflexivity].
        intros H. injection H as Hz. subst z.
        destruct x; discriminate. }
    assert (Hz : z = other x)
      by (destruct x, z; try discriminate; reflexivity).
    subst z.
    simpl. rewrite app_nil_r.
    unfold step in Hs. destruct (crashed s); [discriminate|].
    destruct (write_pending (get (other x) s)) as [[src n]|] eqn:Hw;
      [|discriminate].
    destruct (is_open _); [|discriminate]. injection Hs as <-.
    pose proof (WA _ _ _ Hw) as Hsrc.
    assert (Hsx : src = x) by (destruct x; exact Hsrc).
    clear Hsrc. subst src.
    assert (Hflight : tokens s = 1 /\ in_flight x s = N.to_nat n).
    { destruct (no_token_no_bytes Parent (queue (hp s))) as [ZP1 ZP2];
        [|destruct (no_token_no_bytes Child (queue (hc s))) as [ZC1 ZC2]].
      all: destruct x; unfold tokens, tokens_of, in_flight in *; simpl in *;
        rewrite Hw in *; simpl in *; lia. }
    destruct Hflight as [T1 Fn].
    assert (Hrest : rest = firstn (N.to_nat n) (read_buffer (get x s))).
    { rewrite O by lia. unfold owed. rewrite Fn. reflexivity. }
    exists []. rewrite app_nil_r. split; [|split; [simpl; lia|]].
    + rewrite Hrest. destruct x; reflexivity.
    + intros _. unfold owed.
      assert (Hfl : in_flight x
                      (upd (other x)
                         (write_done (read_buffer (get x s)) n) s) = 0).
      { destruct (no_token_no_bytes Parent (queue (hp s))) as [ZP1 ZP2];
          [|destruct (no_token_no_bytes Child (queue (hc s))) as [ZC1 ZC2]].
        all: destruct x; unfold tokens, tokens_of, in_flight in *;
          simpl in *; rewrite Hw in *; simpl in *;
          rewrite ?total_snoc; simpl; lia. }
      rewrite Hfl. reflexivity.
Qed.

Lemma run_snoc ls l : forall s0,
  run (ls ++ [l]) s0
  = match run ls s0 with Some s => step l s | None => None end.
Proof.
  induction ls as [|a ls IH]; intros s0; simpl.
  - destruct (step l s0); reflexivity.
  - destruct (step a s0); [apply IH|reflexivity].
Qed.

Lemma relay_run cap x ls : forall s,
  run ls (init cap) = Some s ->
  reachable cap s /\ sound cap s /\ relay cap x ls s.
Proof.
  induction ls as [|l ls IH] using rev_ind; intros s.
  - intros [= <-]. split; [apply reach_init|]. split.
    + split.
      * intros [] src n; simpl; discriminate.
      * intros []; simpl; apply repeat_length.
    + exists []. split; [destruct x; reflexivity|]. split; [simpl; lia|].
      intros _. destruct x; reflexivity.
  - rewrite run_snoc.
    destruct (run ls (init cap)) as [s0|] eqn:Hr; [|discriminate].
    intros Hs. destruct (IH s0 eq_refl) as [R [S Y]].
    split; [exact (@reach_step cap s0 l s R Hs)|]. split.
    + exact (sound_step cap l s0 s (inv_reachable cap s0 R) S Hs).
    + exact (relay_step cap x ls l s0 s R S Y Hs).
Qed.

(** X7. The proxy relays faithfully.  After any run of the pair, the bytes
written to the socket of one side are a prefix of the bytes read from the
socket of the other side, in the order they were read, nothing skipped and
nothing repeated; what is missing is at most one read buffer, and as long
as the data plane is alive it is exactly the chunk on its way. *)
Theorem relay_is_faithful cap ls s x :
  run ls (init cap) = Some s ->
  exists rest,
    stream_in x ls = socket_out (get (other x) s) ++ rest
    /\ length rest <= cap
    /\ (1 <= tokens s -> rest = owed x s).
Proof. intros Hr. exact (proj2 (proj2 (relay_run cap x ls s Hr))). Qed.

Lemma relay_is_faithful_witness :
  exists rest,
    stream_in Parent handback_run
    = socket_out (get (other Parent) (after handback_run 4)) ++ rest
    /\ length rest <= 4
    /\ (1 <= tokens (after handback_run 4)
        -> rest = owed Parent (after handback_run 4)).
Proof.
  apply (relay_is_faithful 4 handback_run (after handback_run 4) Parent).
  vm_compute. reflexivity.
Defined.

End PairFacts.

(* ================================================================== *)
(** * Further lemmas on the server *)

Section ServerMoreFacts.

Import Asio Server ServerMore.

(** ** What each operation leaves alone *)

Lemma same_control_refl s : same_control s s.
Proof. repeat split. Qed.

Lemma same_control_trans s1 s2 s3 :
  same_control s3 s2 -> same_control s2 s1 -> same_control s3 s1.
Proof. unfold same_control. intuition congruence. Qed.

Lemma accept_one_state a s :
  exists h,
    acceptors_ (accept_one a s)
    = update a (fun c => mk_acceptor (acc_loop c) (acc_open c)
                           (acc_reuse_address c) (acc_bound c)
                           (acc_listening c) (Some h)) (acceptors_ s)
    /\ log (accept_one a s) = log s ++ [acceptor_async_accept a h]
    /\ get_load (service_handler_pool_ (accept_one a s))
       = S (get_load (service_handler_pool_ s))
    /\ same_control (accept_one a s) s.
Proof.
  unfold accept_one, same_control.
  destruct (get_io_service (io_service_pool_ s)) as [l1 p1] eqn:E1.
  destruct (get_io_service_load (work_service_pool_ s) _) as [l2 p2] eqn:E2.
  unfold get_io_service_load, get_io_service in *.
  inversion E1; subst. inversion E2; subst. clear E1 E2.
  unfold get_service_handler.
  destruct (free_list (service_handler_pool_ s)) as [|h r];
    eexists; simpl; rewrite update_length; repeat split; reflexivity.
Qed.

Lemma complete_accept_control a e session s :
  same_control (complete_accept a e session s) s.
Proof.
  unfold complete_accept.
  destruct (nth_error (acceptors_ s) a) as [c|]; [|apply same_control_refl].
  destruct (acc_pending c) as [h|]; [|apply same_control_refl].
  unfold handle_accept. destruct (negb (failed e)).
  - match goal with
    | |- context [accept_one a ?x] =>
        destruct (accept_one_state a x) as [h' [_ [_ [_ C]]]]
    end.
    eapply same_control_trans; [exact C|].
    unfold same_control. simpl. rewrite update_length. repeat split.
  - unfold same_control. simpl. rewrite update_length. repeat split.
Qed.

(** ** [stop] *)

Lemma update_update {A} a (f g : A -> A) l :
  update a f (update a g l) = update a (fun x => f (g x)) l.
Proof.
  revert a. induction l as [|x l IH]; intros [|a]; simpl; auto.
  f_equal. apply IH.
Qed.

Lemma update_id {A} a (f : A -> A) l :
  (forall c, nth_error l a = Some c -> f c = c) -> update a f l = l.
Proof.
  revert a. induction l as [|x l IH]; intros [|a] H; simpl in *; auto.
  - f_equal. apply H. reflexivity.
  - f_equal. apply IH. exact H.
Qed.

Lemma dispatch_all_state m : forall k s,
  let s' := fold_left (fun s a => dispatch_close a s) (seq k m) s in
  log s' = log s ++ map acceptor_dispatch_close (seq k m)
  /\ pending (acceptor_service_pool_ s')
     = pending (acceptor_service_pool_ s) ++ map close_request (seq k m)
  /\ running (acceptor_service_pool_ s')
     = running (acceptor_service_pool_ s)
  /\ acceptors_ s' = acceptors_ s
  /\ service_handler_pool_ s' = service_handler_pool_ s
  /\ io_service_pool_ s' = io_service_pool_ s
  /\ work_service_pool_ s' = work_service_pool_ s
  /\ started_ s' = started_ s.
Proof.
  induction m as [|m IH]; intros k s; simpl.
  - rewrite !app_nil_r. repeat split.
  - destruct (IH (S k) (dispatch_close k s))
      as [L [P [R [A [H [I [W S0]]]]]]].
    cbv zeta in L, P, R, A, H, I, W, S0.
    rewrite L, P, R, A, H, I, W, S0. simpl. rewrite <- !app_assoc.
    repeat split.
Qed.

Lemma stop_state s :
  started_ s = true ->
  log (stop s)
  = log s ++ map acceptor_dispatch_close (seq 0 (length (acceptors_ s)))
    ++ [pool_stop AcceptorPool false]
  /\ pending (acceptor_service_pool_ (stop s))
     = pending (acceptor_service_pool_ s)
       ++ map close_request (seq 0 (length (acceptors_ s)))
  /\ running (acceptor_service_pool_ (stop s)) = false
  /\ acceptors_ (stop s) = acceptors_ s
  /\ service_handler_pool_ (stop s) = service_handler_pool_ s
  /\ io_service_pool_ (stop s) = io_service_pool_ s
  /\ work_service_pool_ (stop s) = work_service_pool_ s
  /\ started_ (stop s) = true.
Proof.
  intros Hs. unfold stop. rewrite Hs. simpl.
  destruct (dispatch_all_state (length (acceptors_ s)) 0 s)
    as [L [P [R [A [H [I [W S0]]]]]]].
  cbv zeta in L, P, R, A, H, I, W, S0.
  rewrite L, P, A, H, I, W, S0, <- app_assoc. repeat split. exact Hs.
Qed.

(** ** The acceptor loops *)

Lemma close_acceptor_state b s :
  acceptors_ (close_acceptor b s)
  = update b (fun c => mk_acceptor (acc_loop c) None false None false
                         (acc_pending c)) (acceptors_ s)
  /\ pending (acceptor_service_pool_ (close_acceptor b s))
     = pending (acceptor_service_pool_ s)
       ++ (if accept_armed b s then [Task (accept_aborted b) [] []] else [])
  /\ running (acceptor_service_pool_ (close_acceptor b s))
     = running (acceptor_service_pool_ s)
  /\ started_ (close_acceptor b s) = started_ s.
Proof.
  unfold close_acceptor, accept_armed.
  destruct (nth_error (acceptors_ s) b) as [c|];
    [destruct (acc_pending c)|]; simpl; rewrite ?app_nil_r; repeat split.
Qed.

Lemma aborted_accept_state b s :
  acceptors_ (complete_accept b operation_aborted ([], []) s)
  = update b (fun c => mk_acceptor (acc_loop c) (acc_open c)
                         (acc_reuse_address c) (acc_bound c)
                         (acc_listening c) None) (acceptors_ s)
  /\ acceptor_service_pool_ (complete_accept b operation_aborted ([], []) s)
     = acceptor_service_pool_ s
  /\ started_ (complete_accept b operation_aborted ([], []) s) = started_ s.
Proof.
  unfold complete_accept.
  destruct (nth_error (acceptors_ s) b) as [c|] eqn:Hc.
  - destruct (acc_pending c) as [h|] eqn:Hp.
    + repeat split.
    + split; [|split; reflexivity]. symmetry. apply update_id.
      intros c' Hc'. rewrite Hc in Hc'. injection Hc' as <-.
      destruct c; simpl in *. rewrite Hp. reflexivity.
  - split; [|split; reflexivity]. symmetry. apply update_id.
    intros c' Hc'. congruence.
Qed.

Lemma exec_acceptors t s :
  acceptors_ (exec t s) = acceptors_ s
  /\ acceptor_service_pool_ (exec t s) = acceptor_service_pool_ s
  /\ started_ (exec t s) = started_ s.
Proof. destruct t as [[h|h e| |a0|a0] a b]; repeat split. Qed.

Lemma loop_work_cons t q : loop_work q < loop_work (t :: q).
Proof.
  unfold loop_work. simpl.
  destruct t as [[h|h e| |a0|a0] a b]; simpl; lia.
Qed.

Lemma loop_work_le q : loop_work q <= 2 * length q.
Proof.
  unfold loop_work.
  pose proof (filter_length_le
                (fun t => match t with
                          | Task (close_call _) _ _ => true
                          | _ => false
                          end) q).
  lia.
Qed.

(** One call of an acceptor loop: less is left to do, and every acceptor
    stays on its way to closed. *)
Lemma run_acceptor_task_step t rest s :
  pending (acceptor_service_pool_ s) = rest ->
  (forall a, closing_down (t :: rest) (acceptors_ s) a) ->
  let s1 := run_acceptor_task t s in
  loop_work (pending (acceptor_service_pool_ s1)) < loop_work (t :: rest)
  /\ (forall a,
        closing_down (pending (acceptor_service_pool_ s1)) (acceptors_ s1) a)
  /\ running (acceptor_service_pool_ s1)
     = running (acceptor_service_pool_ s)
  /\ started_ s1 = started_ s
  /\ length (acceptors_ s1) = length (acceptors_ s).
Proof.
  intros Hq H. destruct t as [cb ti tw].
  assert (Hexec : forall cb',
    (forall a, is_closing a (Task cb' ti tw) = false) ->
    (forall a, is_aborted a (Task cb' ti tw) = false) ->
    (forall a, closing_down (Task cb' ti tw :: rest) (acceptors_ s) a) ->
    let s1 := exec (Task cb' ti tw) s in
    loop_work (pending (acceptor_service_pool_ s1))
    < loop_work (Task cb' ti tw :: rest)
    /\ (forall a,
          closing_down (pending (acceptor_service_pool_ s1))
            (acceptors_ s1) a)
    /\ running (acceptor_service_pool_ s1)
       = running (acceptor_service_pool_ s)
    /\ started_ s1 = started_ s
    /\ length (acceptors_ s1) = length (acceptors_ s)).
  { intros cb' N1 N2 H'.
    destruct (exec_acceptors (Task cb' ti tw) s) as [A [B C]].
    cbv zeta. rewrite A, B, C, Hq.
    split; [apply loop_work_cons|]. split; [|repeat split].
    intros a. destruct (H' a) as [L|R].
    - left. cbn [existsb] in L. rewrite N1 in L. exact L.
    - right. intros c Hc. destruct (R c Hc) as [R1 [R2 [R3 [R4 R5]]]].
      repeat split; auto. intros Hp. specialize (R5 Hp).
      cbn [existsb] in R5. rewrite N2 in R5. exact R5. }
  destruct cb as [h|h e| |b|b];
    try (apply Hexec; [reflexivity|reflexivity|exact H]).
  - (* the dispatched close *)
    clear Hexec. simpl run_acceptor_task. cbv zeta.
    destruct (close_acceptor_state b s) as [A [P [R S0]]].
    rewrite A, P, R, S0, Hq, update_length.
    split; [|split; [|repeat split]].
    + unfold loop_work. rewrite filter_app, !length_app. simpl.
      destruct (accept_armed b s); simpl; lia.
    + intros a. destruct (Nat.eq_dec b a) as [->|Hn].
      * right. intros c. rewrite nth_error_update_same.
        destruct (nth_error (acceptors_ s) a) as [c0|] eqn:Hc0;
          [|discriminate].
        simpl. intros [= <-]. simpl. repeat split.
        intros Hp. unfold accept_armed. rewrite Hc0.
        destruct (acc_pending c0); [|congruence].
        rewrite existsb_app. simpl. rewrite Nat.eqb_refl.
        apply orb_true_r.
      * destruct (H a) as [L|Rt].
        -- left. simpl in L.
           replace (b =? a) with false in L
             by (symmetry; apply Nat.eqb_neq; exact Hn).
           cbn [orb] in L. rewrite existsb_app, L. reflexivity.
        -- right. intros c. rewrite nth_error_update_other by exact Hn.
           intros Hc. destruct (Rt c Hc) as [R1 [R2 [R3 [R4 R5]]]].
           repeat split; auto. intros Hp. specialize (R5 Hp).
           simpl in R5. rewrite existsb_app, R5. reflexivity.
  - (* the handler of a cancelled accept *)
    clear Hexec. simpl run_acceptor_task. cbv zeta.
    destruct (aborted_accept_state b s) as [A [P S0]].
    rewrite A, P, S0, Hq, update_length.
    split; [apply loop_work_cons|]. split; [|repeat split].
    intros a. destruct (H a) as [L|Rt].
    + left. exact L.
    + right. intros c. destruct (Nat.eq_dec b a) as [->|Hn].
      * rewrite nth_error_update_same.
        destruct (nth_error (acceptors_ s) a) as [c0|] eqn:Hc0;
          [|discriminate].
        simpl. intros [= <-]. simpl.
        destruct (Rt c0 eq_refl) as [R1 [R2 [R3 [R4 _]]]].
        repeat split; auto; congruence.
      * rewrite nth_error_update_other by exact Hn.
        intros Hc. destruct (Rt c Hc) as [R1 [R2 [R3 [R4 R5]]]].
        repeat split; auto. intros Hp. specialize (R5 Hp).
        simpl in R5.
        replace (b =? a) with false in R5
          by (symmetry; apply Nat.eqb_neq; exact Hn).
        cbn [orb] in R5. exact R5.
Qed.

(** With fuel for the work that is left, the acceptor loops run everything
    that waits, and leave every acceptor that was on its way closed. *)
Lemma drain_acceptor_loops_closes fuel : forall s,
  loop_work (pending (acceptor_service_pool_ s)) <= fuel ->
  (forall a,
     closing_down (pending (acceptor_service_pool_ s)) (acceptors_ s) a) ->
  let s' := drain_acceptor_loops fuel s in
  pending (acceptor_service_pool_ s') = []
  /\ (forall a, closing_down [] (acceptors_ s') a)
  /\ running (acceptor_service_pool_ s')
     = running (acceptor_service_pool_ s)
  /\ started_ s' = started_ s
  /\ length (acceptors_ s') = length (acceptors_ s).
Proof.
  induction fuel as [|fuel IH]; intros s Hf H.
  - simpl. destruct (pending (acceptor_service_pool_ s)) as [|t rest] eqn:Hq.
    + repeat split. exact H.
    + unfold loop_work in Hf. simpl in Hf. lia.
  - cbv zeta.
    change (drain_acceptor_loops (S fuel) s)
      with (match pending (acceptor_service_pool_ s) with
            | [] => s
            | t :: rest =>
                drain_acceptor_loops fuel
                  (run_acceptor_task t
                     (with_pool AcceptorPool (set_pending rest) s))
            end).
    destruct (pending (acceptor_service_pool_ s)) as [|t rest] eqn:Hq.
    + rewrite Hq. repeat split. exact H.
    + set (s0 := with_pool AcceptorPool (set_pending rest) s).
      destruct (run_acceptor_task_step t rest s0 eq_refl H)
        as [W [C [R [S0 L]]]].
      cbv zeta in W, C, R, S0, L.
      destruct (IH (run_acceptor_task t s0) ltac:(lia) C)
        as [P' [C' [R' [S' L']]]].
      cbv zeta in P', C', R', S', L'.
      split; [exact P'|]. split; [exact C'|].
      split; [rewrite R', R; reflexivity|].
      split; [rewrite S', S0; reflexivity|].
      rewrite L', L. reflexivity.
Qed.

Lemma closed_down acceptors a c :
  closing_down [] acceptors a -> nth_error acceptors a = Some c ->
  c = closed_acceptor c.
Proof.
  intros [L|R] Hc; [discriminate|].
  destruct (R c Hc) as [R1 [R2 [R3 [R4 R5]]]].
  destruct c as [l o r b li p]. simpl in *. subst.
  unfold closed_acceptor, fresh_acceptor. simpl.
  destruct p as [h|]; [|reflexivity].
  assert (X : false = true) by (apply R5; discriminate). discriminate.
Qed.

(** What the acceptor loops leave behind once [stop] has been called. *)
Lemma finish_after_stop s :
  started_ s = true ->
  let s' := finish_acceptor_loops (stop s) in
  pending (acceptor_service_pool_ s') = []
  /\ all_closed s'
  /\ (forall a, accept_armed a s' = false)
  /\ running (acceptor_service_pool_ s') = false
  /\ started_ s' = true
  /\ length (acceptors_ s') = length (acceptors_ s).
Proof.
  intros Hs. cbv zeta. unfold finish_acceptor_loops.
  destruct (stop_state s Hs) as [_ [P [R [A [_ [_ [_ S0]]]]]]].
  destruct (drain_acceptor_loops_closes
              (2 * length (pending (acceptor_service_pool_ (stop s))))
              (stop s) (loop_work_le _)) as [P' [C' [R' [S' L']]]].
  { intros a. rewrite P, A.
    destruct (Nat.lt_ge_cases a (length (acceptors_ s))) as [Hlt|Hge].
    - left. rewrite existsb_app. apply orb_true_iff. right.
      apply existsb_exists. exists (close_request a). split.
      + apply in_map. apply in_seq. lia.
      + simpl. apply Nat.eqb_refl.
    - right. intros c Hc. apply nth_error_None in Hge. congruence. }
  cbv zeta in P', C', R', S', L'.
  split; [exact P'|]. split; [|split; [|split; [|split]]].
  - intros a c Hc. exact (closed_down _ a c (C' a) Hc).
  - intros a. unfold accept_armed.
    destruct (nth_error _ a) as [c|] eqn:Hc; [|reflexivity].
    rewrite (closed_down _ a c (C' a) Hc). reflexivity.
  - rewrite R'. exact R.
  - rewrite S'. exact S0.
  - rewrite L', A. reflexivity.
Qed.

(** X8. [stop] on a started server only asks for the shutdown: it
    dispatches one [acceptor::close] to the loop of each acceptor, in order,
    and then stops the acceptor pool.  When it returns, every acceptor and
    every handler is as it was and [started_] is still set (only [run]
    clears it).  Once the acceptor loops have run what waits on them, no
    acceptor has a socket or an accept in progress. *)
Theorem stop_dispatches_every_close s :
  started_ s = true ->
  log (stop s)
  = log s ++ map acceptor_dispatch_close (seq 0 (length (acceptors_ s)))
    ++ [pool_stop AcceptorPool false]
  /\ pending (acceptor_service_pool_ (stop s))
     = pending (acceptor_service_pool_ s)
       ++ map close_request (seq 0 (length (acceptors_ s)))
  /\ running (acceptor_service_pool_ (stop s)) = false
  /\ acceptors_ (stop s) = acceptors_ s
  /\ service_handler_pool_ (stop s) = service_handler_pool_ s
  /\ started_ (stop s) = true
  /\ all_closed (finish_acceptor_loops (stop s))
  /\ (forall a, accept_armed a (finish_acceptor_loops (stop s)) = false).
Proof.
  intros Hs.
  destruct (stop_state s Hs) as [L [P [R [A [H [_ [_ S0]]]]]]].
  destruct (finish_after_stop s Hs) as [_ [C [D _]]].
  cbv zeta in C, D. repeat split; assumption.
Qed.

(** ** The blocking call and the return of [run] *)

Lemma serve_stopped evs s :
  running (acceptor_service_pool_ s) = false ->
  serve evs s = Some (finish_acceptor_loops s).
Proof. intros H. destruct evs; simpl; rewrite H; reflexivity. Qed.

Lemma serve_until_stop evs : forall s,
  started_ s = true ->
  running (acceptor_service_pool_ s) = true ->
  (existsb is_stop evs = false -> serve evs s = None)
  /\ (existsb is_stop evs = true ->
      exists s1, serve evs s = Some (finish_acceptor_loops (stop s1))
                 /\ started_ s1 = true).
Proof.
  induction evs as [|ev evs IH]; intros s Hs Hr; simpl; rewrite Hr; simpl.
  - split; [reflexivity|discriminate].
  - destruct ev as [a e session|]; simpl.
    + destruct (complete_accept_control a e session s) as [C1 [C2 _]].
      apply IH; congruence.
    + split; [discriminate|]. intros _. exists s. split; [|exact Hs].
      apply serve_stopped. apply (stop_state s Hs).
Qed.

Lemma start_up_control env s s1 :
  start_up env s = Ok s1 ->
  started_ s1 = true /\ running (acceptor_service_pool_ s1) = true
  /\ running (io_service_pool_ s1) = true
  /\ running (work_service_pool_ s1) = true.
Proof.
  unfold start_up. destruct (open_acceptors env _ s) as [s0|]; [|discriminate].
  intros [= <-]. repeat split.
Qed.

Lemma drain_acceptors fuel k : k <> AcceptorPool -> forall s,
  acceptors_ (drain fuel k s) = acceptors_ s
  /\ acceptor_service_pool_ (drain fuel k s) = acceptor_service_pool_ s.
Proof.
  intros Hk. induction fuel as [|fuel IH]; intros s; simpl; [auto|].
  destruct (pending (pool k s)) as [|t rest]; [auto|].
  destruct (IH (exec t (with_pool k (set_pending rest) s))) as [A B].
  destruct (exec_acceptors t (with_pool k (set_pending rest) s))
    as [C [D _]].
  rewrite A, B, C, D. destruct k; [congruence| |]; auto.
Qed.

Lemma stop_pool_acceptors k force s : k <> AcceptorPool ->
  acceptors_ (stop_pool k force s) = acceptors_ s
  /\ acceptor_service_pool_ (stop_pool k force s)
     = acceptor_service_pool_ s.
Proof.
  intros Hk. unfold stop_pool.
  destruct (negb (running (pool k (record (pool_stop k force) s))));
    [auto|].
  destruct force.
  - destruct k; [congruence| |]; auto.
  - destruct (drain_acceptors
                (in_flight (record (pool_stop k false) s)) k Hk
                (record (pool_stop k false) s)) as [A B].
    destruct k; [congruence| |]; simpl; rewrite A, B; auto.
Qed.

Lemma start_pool_acceptors k s : k <> AcceptorPool ->
  acceptors_ (start_pool k s) = acceptors_ s
  /\ acceptor_service_pool_ (start_pool k s) = acceptor_service_pool_ s.
Proof. intros Hk. destruct k; [congruence| |]; auto. Qed.

Lemma drain_loop_acceptors fuel : forall s s',
  drain_loop fuel s = Some s' ->
  acceptors_ s' = acceptors_ s
  /\ acceptor_service_pool_ s' = acceptor_service_pool_ s.
Proof.
  assert (Hw : WorkPool <> AcceptorPool) by discriminate.
  assert (Hi : IoPool <> AcceptorPool) by discriminate.
  induction fuel as [|fuel IH]; intros s s'; simpl; [discriminate|].
  destruct (_ || _)%bool.
  - intros H. apply IH in H. destruct H as [A B]. rewrite A, B.
    destruct (stop_pool_acceptors WorkPool false
                (stop_pool IoPool false
                   (start_pool IoPool (start_pool WorkPool s))) Hw)
      as [A1 B1].
    destruct (stop_pool_acceptors IoPool false
                (start_pool IoPool (start_pool WorkPool s)) Hi) as [A2 B2].
    destruct (start_pool_acceptors IoPool (start_pool WorkPool s) Hi)
      as [A3 B3].
    destruct (start_pool_acceptors WorkPool s Hw) as [A4 B4].
    split; congruence.
  - intros [= <-]. auto.
Qed.

Lemma shut_down_acceptors fuel force s s' :
  shut_down fuel force s = Some s' ->
  acceptors_ s' = acceptors_ s
  /\ acceptor_service_pool_ s' = acceptor_service_pool_ s
  /\ started_ s' = false.
Proof.
  assert (Hw : WorkPool <> AcceptorPool) by discriminate.
  assert (Hi : IoPool <> AcceptorPool) by discriminate.
  unfold shut_down. destruct force.
  - intros [= <-]. simpl.
    destruct (stop_pool_acceptors WorkPool true (stop_pool IoPool true s) Hw)
      as [A1 B1].
    destruct (stop_pool_acceptors IoPool true s Hi) as [A2 B2].
    repeat split; congruence.
  - destruct (drain_loop fuel _) as [s1|] eqn:E; [|discriminate].
    intros [= <-]. simpl. apply drain_loop_acceptors in E.
    destruct E as [A B].
    destruct (stop_pool_acceptors WorkPool false
                (stop_pool IoPool false s) Hw) as [A1 B1].
    destruct (stop_pool_acceptors IoPool false s Hi) as [A2 B2].
    repeat split; congruence.
Qed.

(** What holds of a server [run] has returned from. *)
Lemma returned_state fuel force env s s' :
  started_ s = false ->
  run fuel force env s = Returned s' ->
  existsb is_stop (events env) = true
  /\ started_ s' = false
  /\ running (acceptor_service_pool_ s') = false
  /\ all_closed s'
  /\ (forall a, accept_armed a s' = false).
Proof.
  intros Hs. unfold run. rewrite Hs.
  destruct (start_up env s) as [s1|e s1] eqn:E1; [|discriminate].
  destruct (start_up_control env s s1 E1) as [S1 [R1 _]].
  destruct (serve_until_stop (events env) s1 S1 R1) as [N Y].
  destruct (existsb is_stop (events env)).
  - destruct (Y eq_refl) as [s2 [E2 S2]]. rewrite E2.
    destruct (shut_down fuel force (finish_acceptor_loops (stop s2)))
      as [s3|] eqn:E3; [|discriminate].
    intros [= <-]. split; [reflexivity|].
    destruct (shut_down_acceptors fuel force _ s3 E3) as [A [B C]].
    destruct (finish_after_stop s2 S2) as [_ [F1 [F2 [F3 _]]]].
    cbv zeta in F1, F2, F3.
    split; [exact C|]. split; [congruence|]. split.
    + intros a c Hc. rewrite A in Hc. exact (F1 a c Hc).
    + intros a. unfold accept_armed. rewrite A. exact (F2 a).
  - rewrite (N eq_refl). discriminate.
Qed.

(** X9. Whenever [run], entered on a server that was not started, returns,
    in graceful or in forced mode, [stop] has been called, [started_] is
    clear again, the acceptor pool is stopped, and no acceptor has a socket
    or an accept in progress. *)
Theorem run_returns_with_acceptors_closed fuel force env s s' :
  started_ s = false ->
  run fuel force env s = Returned s' ->
  existsb is_stop (events env) = true
  /\ started_ s' = false
  /\ running (acceptor_service_pool_ s') = false
  /\ all_closed s'
  /\ (forall a, accept_armed a s' = false).
Proof. exact (returned_state fuel force env s s'). Qed.

(** X10. A server [run] has returned from can be run again: with no [bind]
    failing, the first part of [run] completes on it (no [open] finds its
    acceptor open). *)
Theorem run_can_be_repeated fuel force env s s' env2 :
  started_ s = false ->
  run fuel force env s = Returned s' ->
  (forall i, i < length (acceptors_ s') -> bind_error env2 i = None) ->
  exists s'', start_up env2 s' = Ok s''
              /\ started_ s'' = true
              /\ running (acceptor_service_pool_ s'') = true.
Proof.
  intros Hs Hr Hb.
  destruct (returned_state fuel force env s s' Hs Hr)
    as [_ [_ [_ [D _]]]].
  destruct (open_acceptors_ok env2 (length (acceptors_ s')) 0 s')
    as [s2 [hs [E _]]].
  - intros i Hi.
    destruct (nth_error (acceptors_ s') i) as [c|] eqn:Hc.
    + exists c. split; [reflexivity|]. rewrite (D i c Hc). reflexivity.
    + apply nth_error_None in Hc. lia.
  - intros i Hi. apply Hb. lia.
  - unfold start_up. rewrite E. eexists. split; [reflexivity|].
    split; reflexivity.
Qed.

(** X11. Once the first part of [run] has completed, [run] stays inside the
    acceptor pool's blocking call exactly as long as [stop] is not called:
    it is still blocked after any events without a [stop], and it leaves the
    call at the first [stop]. *)
Theorem run_blocks_until_stop fuel force env s s1 :
  started_ s = false ->
  start_up env s = Ok s1 ->
  is_blocked (run fuel force env s) = negb (existsb is_stop (events env)).
Proof.
  intros Hs E1. unfold run. rewrite Hs, E1.
  destruct (start_up_control env s s1 E1) as [S1 [R1 _]].
  destruct (serve_until_stop (events env) s1 S1 R1) as [N Y].
  destruct (existsb is_stop (events env)).
  - destruct (Y eq_refl) as [s2 [E2 _]]. rewrite E2.
    destruct (shut_down fuel force _); reflexivity.
  - rewrite (N eq_refl). reflexivity.
Qed.


(** ** The first part of [run], on the state *)

Lemma open_acceptor_state env a s c :
  nth_error (acceptors_ s) a = Some c ->
  acc_open c = None ->
  bind_error env a = None ->
  exists s1,
    open_acceptor env a s = Ok s1
    /\ (forall j, j <> a ->
        nth_error (acceptors_ s1) j = nth_error (acceptors_ s) j)
    /\ listening_on (endpoint_ s) a s1
    /\ accept_armed a s1 = true
    /\ get_load (service_handler_pool_ s1)
       = S (get_load (service_handler_pool_ s))
    /\ same_control s1 s.
Proof.
  intros Ha Ho Hb. unfold open_acceptor. rewrite Ha, Ho, Hb.
  match goal with
  | |- context [accept_one a ?x] =>
      destruct (accept_one_state a x) as [h [A [_ [G C]]]];
      exists (accept_one a x)
  end.
  split; [reflexivity|]. simpl in A.
  rewrite !update_update in A.
  split; [|split; [|split; [|split]]].
  - intros j Hj. rewrite A, nth_error_update_other by congruence.
    reflexivity.
  - unfold listening_on. rewrite A, nth_error_update_same, Ha. simpl.
    eexists. split; [reflexivity|]. repeat split.
  - unfold accept_armed. rewrite A, nth_error_update_same, Ha. reflexivity.
  - rewrite G. reflexivity.
  - eapply same_control_trans; [exact C|].
    unfold same_control. simpl. rewrite !update_length. repeat split.
Qed.

Lemma open_acceptor_bind_fails env a s c e :
  nth_error (acceptors_ s) a = Some c ->
  acc_open c = None ->
  bind_error env a = Some e ->
  exists s1,
    open_acceptor env a s = Throws e s1
    /\ acceptors_ s1
       = update a (fun c => mk_acceptor (acc_loop c) (Some (endpoint_ s))
                              true (acc_bound c) (acc_listening c)
                              (acc_pending c)) (acceptors_ s)
    /\ service_handler_pool_ s1 = service_handler_pool_ s
    /\ same_control s1 s.
Proof.
  intros Ha Ho Hb. unfold open_acceptor. rewrite Ha, Ho, Hb.
  eexists. split; [reflexivity|]. simpl.
  split; [reflexivity|]. split; [reflexivity|].
  unfold same_control. simpl. rewrite update_length. repeat split.
Qed.

Lemma open_acceptors_state env m : forall k s,
  (forall i c, k <= i < k + m ->
     nth_error (acceptors_ s) i = Some c -> acc_open c = None) ->
  k + m <= length (acceptors_ s) ->
  (forall i, k <= i < k + m -> bind_error env i = None) ->
  exists s1,
    open_acceptors env (seq k m) s = Ok s1
    /\ (forall j, k <= j < k + m ->
        listening_on (endpoint_ s) j s1 /\ accept_armed j s1 = true)
    /\ (forall j, ~ k <= j < k + m ->
        nth_error (acceptors_ s1) j = nth_error (acceptors_ s) j)
    /\ get_load (service_handler_pool_ s1)
       = get_load (service_handler_pool_ s) + m
    /\ same_control s1 s.
Proof.
  induction m as [|m IH]; intros k s Hfresh Hlen Hbind; simpl.
  - exists s. split; [reflexivity|]. split; [intros; lia|].
    split; [reflexivity|]. split; [lia|apply same_control_refl].
  - destruct (nth_error (acceptors_ s) k) as [c|] eqn:Hc;
      [|apply nth_error_None in Hc; lia].
    destruct (open_acceptor_state env k s c Hc
                (Hfresh k c ltac:(lia) Hc) (Hbind k ltac:(lia)))
      as [s1 [E1 [F1 [L1 [R1 [G1 C1]]]]]].
    rewrite E1.
    destruct (IH (S k) s1) as [s2 [E2 [L2 [F2 [G2 C2]]]]].
    + intros i c' Hi Hc'. rewrite F1 in Hc' by lia.
      exact (Hfresh i c' ltac:(lia) Hc').
    + destruct C1 as [_ [_ [_ [_ [_ Hl]]]]]. lia.
    + intros i Hi. apply Hbind. lia.
    + exists s2. split; [exact E2|].
      assert (Hep : endpoint_ s1 = endpoint_ s) by apply C1.
      split; [|split; [|split]].
      * intros j Hj. destruct (Nat.eq_dec j k) as [->|Hn].
        -- unfold listening_on, accept_armed in *.
           rewrite (F2 k) by lia. split; [exact L1|exact R1].
        -- rewrite <- Hep. apply L2. lia.
      * intros j Hj. rewrite F2 by lia. apply F1. lia.
      * lia.
      * eapply same_control_trans; eassumption.
Qed.

Lemma open_acceptors_app env l1 : forall l2 s,
  open_acceptors env (l1 ++ l2) s
  = match open_acceptors env l1 s with
    | Ok s1 => open_acceptors env l2 s1
    | Throws e s1 => Throws e s1
    end.
Proof.
  induction l1 as [|a l1 IH]; intros l2 s; simpl; [reflexivity|].
  destruct (open_acceptor env a s); [apply IH|reflexivity].
Qed.

(** X12. On a server whose acceptors are all closed, when no [bind] fails,
    the first part of [run] leaves every acceptor open for the configured
    endpoint with the reuse-address option, bound, listening and with one
    accept in progress; it has checked out one handler per acceptor before
    any connection arrived; and the three pools run with [started_] set. *)
Theorem start_up_arms_every_acceptor env s :
  all_closed s ->
  (forall i, i < length (acceptors_ s) -> bind_error env i = None) ->
  exists s1,
    start_up env s = Ok s1
    /\ (forall a, a < length (acceptors_ s) ->
        listening_on (endpoint_ s) a s1 /\ accept_armed a s1 = true)
    /\ get_load (service_handler_pool_ s1)
       = get_load (service_handler_pool_ s) + length (acceptors_ s)
    /\ started_ s1 = true
    /\ running (acceptor_service_pool_ s1) = true
    /\ running (io_service_pool_ s1) = true
    /\ running (work_service_pool_ s1) = true.
Proof.
  intros Hc Hb.
  destruct (open_acceptors_state env (length (acceptors_ s)) 0 s)
    as [s1 [E [L [_ [G C]]]]].
  - intros i c _ Hi. rewrite (Hc i c Hi). reflexivity.
  - lia.
  - intros i Hi. apply Hb. lia.
  - unfold start_up. rewrite E. eexists. split; [reflexivity|].
    split; [|split; [exact G|repeat split]].
    intros a Ha. destruct (L a ltac:(lia)) as [L1 L2].
    split; [exact L1|exact L2].
Qed.

(** X13. When [bind] fails on acceptor [i] and on none before it, [run]
    throws that error before it starts any pool: [started_] stays clear and
    the I/O and work pools are as they were; the acceptors before [i] are
    left listening with their accept in progress and their handler checked
    out, and acceptor [i] is left open.  Nothing closes them, so every
    further [run] throws [already_open] at acceptor 0. *)
Theorem bind_failure_leaves_run env s i e fuel force :
  started_ s = false ->
  all_closed s ->
  i < length (acceptors_ s) ->
  (forall j, j < i -> bind_error env j = None) ->
  bind_error env i = Some e ->
  exists s1,
    run fuel force env s = Thrown e s1
    /\ started_ s1 = false
    /\ running (io_service_pool_ s1) = running (io_service_pool_ s)
    /\ running (work_service_pool_ s1) = running (work_service_pool_ s)
    /\ (forall j, j < i ->
        listening_on (endpoint_ s) j s1 /\ accept_armed j s1 = true)
    /\ get_load (service_handler_pool_ s1)
       = get_load (service_handler_pool_ s) + i
    /\ (forall fuel2 force2 env2,
        exists s2, run fuel2 force2 env2 s1 = Thrown already_open s2).
Proof.
  intros Hs Hc Hi Hok Hbad.
  assert (Hseq : seq 0 (length (acceptors_ s))
                 = seq 0 i ++ i :: seq (S i) (length (acceptors_ s) - S i)).
  { replace (length (acceptors_ s)) with (i + S (length (acceptors_ s) - S i))
      at 1 by lia.
    rewrite seq_app. reflexivity. }
  destruct (open_acceptors_state env i 0 s) as [s1 [E1 [L1 [F1 [G1 C1]]]]].
  - intros j c _ Hj. rewrite (Hc j c Hj). reflexivity.
  - lia.
  - intros j Hj. apply Hok. lia.
  - destruct (nth_error (acceptors_ s1) i) as [c|] eqn:Hci.
    2:{ apply nth_error_None in Hci.
        destruct C1 as [_ [_ [_ [_ [_ Hl]]]]]. lia. }
    assert (Hfresh : acc_open c = None).
    { rewrite F1 in Hci by lia. rewrite (Hc i c Hci). reflexivity. }
    destruct (open_acceptor_bind_fails env i s1 c e Hci Hfresh Hbad)
      as [s2 [E2 [A2 [P2 C2]]]].
    exists s2.
    assert (Hrun : run fuel force env s = Thrown e s2).
    { unfold run, start_up. rewrite Hs, Hseq, open_acceptors_app, E1.
      simpl. rewrite E2. reflexivity. }
    assert (C : same_control s2 s)
      by (eapply same_control_trans; eassumption).
    destruct C as [Cs [_ [Ci [Cw [Ce Cl]]]]].
    split; [exact Hrun|]. split; [congruence|].
    split; [exact Ci|]. split; [exact Cw|].
    split; [|split].
    + intros j Hj. destruct (L1 j ltac:(lia)) as [[c' [N1 N2]] R1].
      unfold listening_on, accept_armed in *.
      rewrite A2, nth_error_update_other by lia.
      split; [exists c'; split; assumption|exact R1].
    + unfold get_load in *. rewrite P2. exact G1.
    + intros fuel2 force2 env2.
      assert (H0 : exists c0, nth_error (acceptors_ s2) 0 = Some c0
                              /\ acc_open c0 <> None).
      { destruct (Nat.eq_dec i 0) as [->|Hn].
        - rewrite A2, nth_error_update_same, Hci. simpl.
          eexists. split; [reflexivity|]. simpl. discriminate.
        - destruct (L1 0 ltac:(lia)) as [[c' [N1 [N2 _]]] _].
          rewrite A2, nth_error_update_other by lia.
          exists c'. split; [exact N1|]. congruence. }
      destruct H0 as [c0 [N0 O0]].
      unfold run, start_up. rewrite Cs, Hs.
      destruct (acceptors_ s2) as [|x l] eqn:El; [discriminate|].
      simpl in N0. injection N0 as ->.
      simpl. unfold open_acceptor. rewrite El. simpl.
      destruct (acc_open c0); [|congruence].
      eexists. reflexivity.
Qed.

(** X14. In forced mode [run] needs no round of the loop, whatever is in
    flight: from the return of the blocking call it stops the I/O pool and
    then the work pool, each once and with force, starts no pool again,
    runs no callback (no handler goes back to its pool) and clears
    [started_]. *)
Theorem forced_stop_runs_nothing fuel s :
  exists s',
    shut_down fuel true s = Some s'
    /\ log s' = log s ++ [pool_stop IoPool true; pool_stop WorkPool true]
    /\ service_handler_pool_ s' = service_handler_pool_ s
    /\ acceptors_ s' = acceptors_ s
    /\ started_ s' = false
    /\ running (io_service_pool_ s') = false
    /\ running (work_service_pool_ s') = false.
Proof.
  unfold shut_down. eexists. split; [reflexivity|].
  unfold stop_pool. simpl.
  destruct (running (io_service_pool_ s)) eqn:Ri;
    destruct (running (work_service_pool_ s)) eqn:Rw; simpl;
    rewrite ?Ri, ?Rw; simpl; rewrite <- ?app_assoc; repeat split; auto.
Qed.


(** ** Acceptors over the events of a run *)

Lemma complete_accept_acceptor a' e session s a :
  nth_error (acceptors_ (complete_accept a' e session s)) a
  = nth_error (acceptors_ s) a
  \/ (a' = a /\ accept_armed a s = true
      /\ (failed e = true ->
          accept_armed a (complete_accept a' e session s) = false)
      /\ (failed e = false ->
          accept_armed a (complete_accept a' e session s) = true)).
Proof.
  unfold complete_accept.
  destruct (nth_error (acceptors_ s) a') as [c|] eqn:Hc; [|left; reflexivity].
  destruct (acc_pending c) as [h|] eqn:Hp; [|left; reflexivity].
  destruct (Nat.eq_dec a' a) as [->|Hn].
  - right. split; [reflexivity|]. split.
    + unfold accept_armed. rewrite Hc, Hp. reflexivity.
    + unfold handle_accept. split; intros Hf; rewrite Hf; simpl.
      * unfold accept_armed. simpl. rewrite nth_error_update_same, Hc.
        reflexivity.
      * match goal with
        | |- context [accept_one a ?x] =>
            destruct (accept_one_state a x) as [h' [A _]]
        end.
        unfold accept_armed. rewrite A. simpl.
        rewrite update_update, nth_error_update_same, Hc. reflexivity.
  - left. unfold handle_accept. destruct (negb (failed e)).
    + match goal with
      | |- context [accept_one a' ?x] =>
          destruct (accept_one_state a' x) as [h' [A _]]
      end.
      rewrite A. simpl.
      rewrite !nth_error_update_other by congruence. reflexivity.
    + simpl. rewrite nth_error_update_other by congruence. reflexivity.
Qed.

Lemma accept_armed_same a s s' :
  nth_error (acceptors_ s') a = nth_error (acceptors_ s) a ->
  accept_armed a s' = accept_armed a s.
Proof. intros H. unfold accept_armed. rewrite H. reflexivity. Qed.

Lemma stop_not_arming a s :
  accept_armed a s = false -> accept_armed a (stop s) = false.
Proof.
  intros H. destruct (started_ s) eqn:Hs.
  - destruct (stop_state s Hs) as [_ [_ [_ [A _]]]].
    unfold accept_armed. rewrite A. exact H.
  - unfold stop. rewrite Hs. exact H.
Qed.

(** X15. An acceptor without an accept in progress never gets one again
    during the run: whatever accepts complete on it or on other acceptors,
    and whether [stop] is called or not, it stays without.  So the acceptor
    whose accept failed once accepts nothing more until [run] is entered
    again. *)
Theorem disarmed_acceptor_stays_disarmed evs : forall s a,
  accept_armed a s = false ->
  accept_armed a (after_events evs s) = false.
Proof.
  unfold after_events.
  induction evs as [|ev evs IH]; intros s a H; simpl; [exact H|].
  apply IH. destruct ev as [a' e session|]; simpl.
  - destruct (complete_accept_acceptor a' e session s a)
      as [Hsame|[_ [Harmed _]]].
    + rewrite (accept_armed_same a s _ Hsame). exact H.
    + congruence.
  - apply stop_not_arming. exact H.
Qed.

(** X16. An acceptor with an accept in progress keeps one as long as
    [stop] is not called and no accept on it completes with an error: each
    successful completion arms the next accept, and what happens on the
    other acceptors does not touch it. *)
Theorem armed_acceptor_stays_armed evs : forall s a,
  accept_armed a s = true ->
  forallb (spares a) evs = true ->
  accept_armed a (after_events evs s) = true.
Proof.
  unfold after_events.
  induction evs as [|ev evs IH]; intros s a H Hall; simpl; [exact H|].
  simpl in Hall. apply andb_prop in Hall. destruct Hall as [Hev Hall].
  apply IH; [|exact Hall].
  destruct ev as [a' e session|]; simpl in *; [|discriminate].
  destruct (complete_accept_acceptor a' e session s a)
    as [Hsame|[-> [_ [_ Hok]]]].
  - rewrite (accept_armed_same a s _ Hsame). exact H.
  - apply Hok. rewrite Nat.eqb_refl in Hev. simpl in Hev.
    apply negb_true_iff. exact Hev.
Qed.

(** ** The extras at sample servers *)

Lemma stop_dispatches_every_close_witness :
  started_ sample_started = true
  /\ log (stop sample_started)
     = log sample_started
       ++ [acceptor_dispatch_close 0; acceptor_dispatch_close 1;
           pool_stop AcceptorPool false]
  /\ acceptors_ (stop sample_started) = acceptors_ sample_started
  /\ accept_armed 1 (stop sample_started) = true
  /\ accept_armed 1 (finish_acceptor_loops (stop sample_started)) = false.
Proof.
  destruct (stop_dispatches_every_close sample_started eq_refl)
    as [L [_ [_ [A [_ [_ [_ D]]]]]]].
  split; [reflexivity|]. split; [exact L|]. split; [exact A|].
  split; [|apply D]. vm_compute. reflexivity.
Defined.

Lemma run_returns_with_acceptors_closed_witness :
  exists s',
    run 10 false sample_world sample_server = Returned s'
    /\ started_ s' = false
    /\ accept_armed 0 s' = false.
Proof.
  destruct (run 10 false sample_world sample_server) as [s'| | |] eqn:E;
    try (vm_compute in E; discriminate E).
  exists s'. split; [reflexivity|].
  destruct (run_returns_with_acceptors_closed 10 false sample_world
              sample_server s' eq_refl E) as [_ [B [_ [_ D]]]].
  split; [exact B|apply D].
Defined.

Lemma run_can_be_repeated_witness :
  exists s' s'',
    run 10 false sample_world sample_server = Returned s'
    /\ start_up quiet_world s' = Ok s''.
Proof.
  destruct (run 10 false sample_world sample_server) as [s'| | |] eqn:E;
    try (vm_compute in E; discriminate E).
  destruct (run_can_be_repeated 10 false sample_world sample_server s'
              quiet_world eq_refl E (fun _ _ => eq_refl))
    as [s'' [A _]].
  exists s', s''. split; [reflexivity|exact A].
Defined.

Lemma run_blocks_until_stop_witness :
  is_blocked (run 10 false quiet_world sample_server) = true
  /\ is_blocked (run 10 false sample_world sample_server) = false.
Proof.
  split.
  - rewrite (run_blocks_until_stop 10 false quiet_world sample_server
               sample_started); [reflexivity|reflexivity|].
    vm_compute. reflexivity.
  - destruct (start_up sample_world sample_server) as [s1|e s1] eqn:E;
      [|vm_compute in E; discriminate E].
    rewrite (run_blocks_until_stop 10 false sample_world sample_server
               s1 eq_refl E). reflexivity.
Defined.

Lemma start_up_arms_every_acceptor_witness :
  exists s1,
    start_up quiet_world sample_server = Ok s1
    /\ accept_armed 1 s1 = true
    /\ get_load (service_handler_pool_ s1) = 2.
Proof.
  destruct (start_up_arms_every_acceptor quiet_world sample_server)
    as [s1 [E [L [G _]]]].
  - intros [|[|[|a]]] c H; simpl in H; try discriminate;
      injection H as <-; reflexivity.
  - intros i _. reflexivity.
  - exists s1. split; [exact E|]. split; [|exact G].
    apply (L 1). repeat constructor.
Defined.

Lemma bind_failure_leaves_run_witness :
  exists s1,
    run 10 false (mk_environment
                    (fun a => if a =? 1 then Some 98%Z else None) [])
      sample_server
    = Thrown 98%Z s1
    /\ started_ s1 = false
    /\ accept_armed 0 s1 = true
    /\ exists s2, run 10 false quiet_world s1 = Thrown already_open s2.
Proof.
  destruct (bind_failure_leaves_run
              (mk_environment (fun a => if a =? 1 then Some 98%Z else None)
                 [])
              sample_server 1 98%Z 10 false)
    as [s1 [E [S [_ [_ [L [_ R]]]]]]].
  - reflexivity.
  - intros [|[|[|a]]] c H; simpl in H; try discriminate;
      injection H as <-; reflexivity.
  - repeat constructor.
  - intros [|j] Hj; [reflexivity|].
    apply Nat.succ_lt_mono in Hj. inversion Hj.
  - reflexivity.
  - exists s1. split; [exact E|]. split; [exact S|].
    split; [apply (L 0); repeat constructor|apply R].
Defined.

Lemma disarmed_acceptor_stays_disarmed_witness :
  accept_armed 1
    (complete_accept 1 connection_reset ([], []) sample_started) = false
  /\ accept_armed 1
       (after_events
          [accept_completes 1 success ([], []);
           accept_completes 0 success ([], [])]
          (complete_accept 1 connection_reset ([], []) sample_started))
     = false.
Proof.
  assert (H : accept_armed 1
                (complete_accept 1 connection_reset ([], []) sample_started)
              = false) by (vm_compute; reflexivity).
  split; [exact H|].
  apply disarmed_acceptor_stays_disarmed. exact H.
Defined.

Lemma armed_acceptor_stays_armed_witness :
  accept_armed 0
    (after_events
       [accept_completes 0 success ([], []);
        accept_completes 1 connection_reset ([], []);
        accept_completes 0 success ([], [])] sample_started)
  = true.
Proof.
  apply armed_acceptor_stays_armed.
  - vm_compute. reflexivity.
  - vm_compute. reflexivity.
Defined.

End ServerMoreFacts.
